(** * LoadEnv: a caching facade over the Infisical secret service

    Shallow embedding of [src/main.py] (class [LoadEnv]) and of the cache it
    owns, followed by the properties of the cache keys, of the time-to-live
    cache and of the prefix invalidation done by the write operations. *)

From Stdlib Require Import String Ascii List ZArith Lia Bool Sorted.
Import ListNotations.
Open Scope string_scope.
Open Scope list_scope.
Open Scope Z_scope.

(** ** Python values used by the facade *)

(** Truth value of an [Optional[str]]: [None] and the empty string are falsy. *)
Definition truthy (s : option string) : bool :=
  match s with
  | Some s => negb (s =? "")%string
  | None => false
  end.

(** [a or b] on [Optional[str]] operands. *)
Definition py_or (a b : option string) : option string :=
  if truthy a then a else b.

(** [a or b] when [b] is known to be a [str]; the result is a [str]. *)
Definition or_str (a : option string) (b : string) : string :=
  match a with
  | Some s => if (s =? "")%string then b else s
  | None => b
  end.

(** [s.startswith(p)]. *)
Fixpoint startswith (s p : string) {struct p} : bool :=
  match p with
  | EmptyString => true
  | String a p' =>
      match s with
      | EmptyString => false
      | String b s' => Ascii.eqb a b && startswith s' p'
      end
  end.

(** [pydantic.SecretStr]: an opaque wrapper around a string;
    [get_secret_value] is the projection. *)
Record SecretStr := mkSecretStr { get_secret_value : string }.

(** Exceptions that reach the caller.  [RemoteError] stands for whatever the
    SDK raises; the facade never inspects it. *)
Inductive Exception :=
| ValueError (msg : string)
| KeyError (k : string)
| AttributeError (attr : string)
| RemoteError (msg : string).

(** ** The time-to-live cache *)

Module TTLCache.

(** One node of the expiry chain: [__links[key]], with the value that
    [Cache.__data] holds for the key. *)
Record Link := mkLink {
  link_key : string;
  link_value : SecretStr;
  link_expires : Z
}.

(** Modelled from the spec: the cache class ([cachetools.TTLCache],
    imported at [src/main.py:5] and instantiated at line 46) is not under
    [src/].  The spec's ScopedCache is "a bounded, time-expiring key-value
    store keyed by opaque strings" with at most [capacity] entries, where
    a write that would exceed the capacity evicts the least recently used
    entry and an entry inserted at time [T] is absent at every time
    [>= T + ttl] "even if still physically present".  Where the spec leaves
    a choice (the order of eviction, what a read or a deletion of an expired
    key raises, when expired entries are purged) the model does what the
    imported class does.

    [links] are the keys from least to most recently used; [root] is the
    expiry chain, the entry that expires first at the head.  Every
    operation takes the reading [now] of the timer. *)
Record t := mk {
  maxsize : Z;
  ttl : Z;
  links : list string;
  root : list Link
}.

Definition empty (maxsize ttl : Z) : t := mk maxsize ttl [] [].

Definition has_key (k : string) (l : Link) : bool := (link_key l =? k)%string.

Definition find_link (k : string) (c : t) : option Link :=
  find (has_key k) (root c).

Definition unlink (k : string) (chain : list Link) : list Link :=
  filter (fun l => negb (has_key k l)) chain.

Definition forget (k : string) (order : list string) : list string :=
  filter (fun k' => negb (k' =? k)%string) order.

Definition move_to_end (k : string) (order : list string) : list string :=
  forget k order ++ [k].

Definition currsize (c : t) : Z := Z.of_nat (length (root c)).

Definition live (now : Z) (l : Link) : bool := now <? link_expires l.

(** Modelled from the spec: [contains(key)], "true iff [get(key)] would
    return a value (expiry-aware)".  It is [key in cache], and changes
    nothing. *)
Definition contains (c : t) (now : Z) (k : string) : bool :=
  match find_link k c with
  | Some l => live now l
  | None => false
  end.

(** Modelled from the spec: [get(key)], which "returns the entry if present
    and unexpired; otherwise signals absent".  It is [cache[key]]: the key
    becomes the most recently used one; an expired or unknown key raises
    [KeyError]. *)
Definition getitem (c : t) (now : Z) (k : string) : (Exception + SecretStr) * t :=
  match find_link k c with
  | None => (inl (KeyError k), c)
  | Some l =>
      let c' := mk (maxsize c) (ttl c) (move_to_end k (links c)) (root c) in
      if live now l then (inr (link_value l), c') else (inl (KeyError k), c')
  end.

(** Modelled from the spec: the purge of expired entries, [cache.expire(now)],
    which drops entries from the head of the expiry chain until the first one
    that is still live. *)
Fixpoint expire_chain (now : Z) (chain : list Link) (order : list string)
  : list string * list Link :=
  match chain with
  | [] => (order, [])
  | l :: rest =>
      if live now l then (order, chain)
      else expire_chain now rest (forget (link_key l) order)
  end.

Definition expire (c : t) (now : Z) : t :=
  let (order, chain) := expire_chain now (root c) (links c) in
  mk (maxsize c) (ttl c) order chain.

(** Modelled from the spec: the deletion of one key, by which
    [delete_matching_prefix] "removes every entry whose key starts with
    [prefix]".  It is [del cache[key]]: it removes the entry and raises
    [KeyError] for an unknown key, and also, after the removal, for an
    expired one. *)
Definition delitem (c : t) (now : Z) (k : string) : (Exception + unit) * t :=
  match find_link k c with
  | None => (inl (KeyError k), c)
  | Some l =>
      let c' := mk (maxsize c) (ttl c) (forget k (links c)) (unlink k (root c)) in
      if live now l then (inr tt, c') else (inl (KeyError k), c')
  end.

(** [cache.pop(key)] without default. *)
Definition pop (c : t) (now : Z) (k : string) : (Exception + SecretStr) * t :=
  if contains c now k then
    match getitem c now k with
    | (inr v, c1) =>
        match delitem c1 now k with
        | (inr _, c2) => (inr v, c2)
        | (inl e, c2) => (inl e, c2)
        end
    | (inl e, c1) => (inl e, c1)
    end
  else (inl (KeyError k), c).

(** Modelled from the spec: the eviction of "the least-recently-used or
    oldest entry".  It is [cache.popitem()]: it expires, then removes the
    least recently used entry. *)
Definition popitem (c : t) (now : Z) : (Exception + string * SecretStr) * t :=
  let c0 := expire c now in
  match links c0 with
  | [] => (inl (KeyError "TTLCache is empty"), c0)
  | k :: _ =>
      match pop c0 now k with
      | (inr v, c1) => (inr (k, v), c1)
      | (inl e, c1) => (inl e, c1)
      end
  end.

(** The loop [while currsize + size > maxsize: popitem()] of
    [Cache.__setitem__], every entry having size 1.  [fuel] bounds the
    number of iterations; [S (length (root c))] is always enough, see
    [make_room_fuel]. *)
Fixpoint make_room (fuel : nat) (c : t) (now : Z) : (Exception + unit) * t :=
  if currsize c + 1 >? maxsize c then
    match fuel with
    | O => (inl (KeyError "TTLCache is empty"), c)
    | S fuel' =>
        match popitem c now with
        | (inr _, c') => make_room fuel' c' now
        | (inl e, c') => (inl e, c')
        end
    end
  else (inr tt, c).

Definition in_data (k : string) (c : t) : bool :=
  match find_link k c with Some _ => true | None => false end.

(** The end of [__setitem__]: the value is stored and the key moves to
    the end of both orders with the expiry time [now + ttl]. *)
Definition store (c : t) (now : Z) (k : string) (v : SecretStr) : t :=
  mk (maxsize c) (ttl c) (move_to_end k (links c))
     (unlink k (root c) ++ [mkLink k v (now + ttl c)]).

(** Modelled from the spec: [put(key, value)], which "inserts/replaces; if
    at capacity, evicts one entry per the bounded-eviction policy before
    inserting".  It is [cache[key] = value]: it expires, makes room when the
    key is new, then stores the value. *)
Definition setitem (c : t) (now : Z) (k : string) (v : SecretStr)
  : (Exception + unit) * t :=
  let c0 := expire c now in
  if 1 >? maxsize c0 then (inl (ValueError "value too large"), c0)
  else
    let r := if in_data k c0 then (inr tt, c0)
             else make_room (S (length (root c0))) c0 now in
    match r with
    | (inl e, c1) => (inl e, c1)
    | (inr _, c1) => (inr tt, store c1 now k v)
    end.

(** Modelled from the spec: the keys of the entries that a read treats as
    present.  It is [cache.keys()]: the live keys in chain order. *)
Definition keys (c : t) (now : Z) : list string :=
  map link_key (filter (live now) (root c)).

(** [len(cache)]: expires, then counts what is left. *)
Definition len (c : t) (now : Z) : Z * t :=
  let c0 := expire c now in (currsize c0, c0).

End TTLCache.

(** ** The remote capability (the Infisical SDK client) *)

Module SDK.

(** A secret record of the SDK.  [None] stands for an absent attribute
    ([hasattr(secret, ...)] is false). *)
Record BaseSecret := mkSecret {
  secret_key : option string;
  secret_value : option string
}.

(** The keyword arguments of the four calls the facade issues on
    [client.secrets]. *)
Inductive GetArgs :=
| get_secret_by_name (secret_name project_id environment_slug secret_path : string).

Inductive ListArgs :=
| list_secrets (project_id environment_slug secret_path : string)
    (expand_secret_references view_secret_value recursive include_imports : bool)
    (tag_filters : list string).

Inductive CreateArgs :=
| create_secret_by_name (secret_name secret_value project_id secret_path
                         environment_slug : string)
    (secret_comment : option string) (skip_multiline_encoding : bool)
    (secret_reminder_repeat_days : option Z) (secret_reminder_note : option string).

Inductive UpdateArgs :=
| update_secret_by_name (current_secret_name project_id secret_path
                         environment_slug : string)
    (secret_value secret_comment : option string) (skip_multiline_encoding : bool)
    (secret_reminder_repeat_days : option Z) (secret_reminder_note : option string)
    (new_secret_name : option string) (secret_metadata tags_ids : list string).

Inductive Call :=
| Get (a : GetArgs)
| List (a : ListArgs)
| Create (a : CreateArgs)
| Update (a : UpdateArgs).

(** What [create_secret_by_name] returns: an opaque dictionary. *)
Definition Descriptor := list (string * string).

(** A client bound to some credentials: what each call answers, an
    exception or a result. *)
Record Client := mkClient {
  fetch : GetArgs -> Exception + BaseSecret;
  listing : ListArgs -> Exception + list BaseSecret;
  create : CreateArgs -> Exception + Descriptor;
  update : UpdateArgs -> Exception + unit
}.

End SDK.

(** What lies outside the facade during one operation: the reading of the
    timer, taken to be the same throughout the operation, what [self.client]
    answers, and the SDK constructor [_SDK] applied to a client id and a
    client secret. *)
Record World := mkWorld {
  now : Z;
  client : SDK.Client;
  _SDK : string -> string -> Exception + SDK.Client
}.

Definition raised {A} (r : Exception + A) : option Exception :=
  match r with
  | inl e => Some e
  | inr _ => None
  end.

(** Everything an operation does to the cache or to the remote service, in
    the order it happens.  A remote event records the exception the remote
    side raised, if any. *)
Inductive Event :=
| CacheContains (k : string)
| CacheGetitem (k : string)
| CacheSetitem (k : string) (v : SecretStr)
| CacheKeys
| CacheDelitem (k : string)
| NewClient (client_id client_secret : string) (failure : option Exception)
| RemoteCall (c : SDK.Call) (failure : option Exception).

Definition is_remote (e : Event) : bool :=
  match e with
  | NewClient _ _ _ | RemoteCall _ _ => true
  | _ => false
  end.

Definition is_cache_access (e : Event) : bool := negb (is_remote e).

(** ** The facade *)

Module LoadEnv.

Record t := mk {
  _cache : TTLCache.t;
  _default_client_id : string;
  _default_client_secret : string;
  project_id : option string;
  environment_slug : string;
  secret_path : string
}.

Definition set_cache (self : t) (c : TTLCache.t) : t :=
  mk c (_default_client_id self) (_default_client_secret self)
     (project_id self) (environment_slug self) (secret_path self).

(** An operation: from [self] to an exception or a result, the new [self]
    and the events of the operation. *)
Definition M (A : Type) : Type := t -> (Exception + A) * t * list Event.

Definition ret {A} (a : A) : M A := fun self => (inr a, self, []).

Definition raise {A} (e : Exception) : M A := fun self => (inl e, self, []).

Definition bind {A B} (m : M A) (f : A -> M B) : M B :=
  fun self =>
    match m self with
    | (inl e, self1, ev1) => (inl e, self1, ev1)
    | (inr a, self1, ev1) =>
        match f a self1 with
        | (r, self2, ev2) => (r, self2, ev1 ++ ev2)
        end
    end.

(** Reading an attribute of [self]. *)
Definition attr {A} (field : t -> A) : M A := fun self => (inr (field self), self, []).

Declare Scope loadenv_scope.
Delimit Scope loadenv_scope with loadenv.
Notation "x <- m ;; k" := (bind m (fun x => k))
  (at level 61, m at next level, right associativity) : loadenv_scope.
Notation "m ;; k" := (bind m (fun _ => k))
  (at level 61, right associativity) : loadenv_scope.
Local Open Scope loadenv_scope.

Fixpoint for_each {A} (l : list A) (body : A -> M unit) : M unit :=
  match l with
  | [] => ret tt
  | x :: rest => body x ;; for_each rest body
  end.

(** The cache operations of [self._cache], at the time of the world. *)
Definition cache_contains (w : World) (k : string) : M bool :=
  fun self => (inr (TTLCache.contains (_cache self) (now w) k), self, [CacheContains k]).

Definition cache_getitem (w : World) (k : string) : M SecretStr :=
  fun self =>
    let (r, c) := TTLCache.getitem (_cache self) (now w) k in
    (r, set_cache self c, [CacheGetitem k]).

Definition cache_setitem (w : World) (k : string) (v : SecretStr) : M unit :=
  fun self =>
    let (r, c) := TTLCache.setitem (_cache self) (now w) k v in
    (r, set_cache self c, [CacheSetitem k v]).

Definition cache_keys (w : World) : M (list string) :=
  fun self => (inr (TTLCache.keys (_cache self) (now w)), self, [CacheKeys]).

Definition cache_delitem (w : World) (k : string) : M unit :=
  fun self =>
    let (r, c) := TTLCache.delitem (_cache self) (now w) k in
    (r, set_cache self c, [CacheDelitem k]).

(** The remote operations. *)
Definition new_client (w : World) (client_id client_secret : string) : M SDK.Client :=
  fun self =>
    let r := _SDK w client_id client_secret in
    (r, self, [NewClient client_id client_secret (raised r)]).

Definition remote {A} (c : SDK.Call) (answer : Exception + A) : M A :=
  fun self => (answer, self, [RemoteCall c (raised answer)]).

Definition getenv_default (environ : string -> option string) (name default : string)
  : string :=
  match environ name with
  | Some v => v
  | None => default
  end.

(** [LoadEnv.__init__] (lines 30-70): the cache of capacity 100 and
    time-to-live 3600, the defaults read from the process environment, and
    the construction of the SDK client, whose failure is the failure of
    the constructor.  [host] only reaches the SDK and is left out. *)
Definition __init__ (w : World) (environ : string -> option string)
    (machine_identity_client_id machine_identity_client_secret : option string)
  : Exception + t :=
  let self :=
    mk (TTLCache.empty 100 3600)
       (or_str machine_identity_client_id (getenv_default environ "INFISICAL_MACHINE_ID" ""))
       (or_str machine_identity_client_secret (getenv_default environ "INFISICAL_SECRET_KEY" ""))
       (environ "INFISICAL_PROJECT_ID")
       (getenv_default environ "INFISICAL_ENVIRONMENT" "dev")
       (getenv_default environ "INFISICAL_SECRET_PATH" "/") in
  match _SDK w (_default_client_id self) (_default_client_secret self) with
  | inl e => inl e
  | inr _ => inr self
  end.

(** [LoadEnv._key] (lines 72-74). *)
Definition _key (project_id environment path : string) : string :=
  (project_id ++ ":" ++ environment ++ ":" ++ path)%string.

(** The key of one secret in the cache (line 107):
    [f"{self._key(project_id, env, path)}:{key}"]. *)
Definition cache_key (project_id env path key : string) : string :=
  (_key project_id env path ++ ":" ++ key)%string.

(** The value of a keyword parameter: the one supplied, or the default of
    the signature. *)
Definition kwarg {A} (default : A) (supplied : option A) : A :=
  match supplied with
  | Some a => a
  | None => default
  end.

Definition missing_project : Exception :=
  ValueError "Project ID must be provided or set via INFISICAL_PROJECT_ID".

(** [project_id = project or self.project_id] followed by
    [if not project_id: raise ValueError(...)], the first statements of
    every operation. *)
Definition resolve_project (project : option string) : M string :=
  default <- attr project_id ;;
  match py_or project default with
  | Some p => if (p =? "")%string then raise missing_project else ret p
  | None => raise missing_project
  end.

(** [LoadEnv.get] (lines 76-141).  [env] and [path] are [None] when the
    caller leaves them out; the signature then supplies ["dev"] and [""]. *)
Definition get (w : World) (key : string)
    (project env path client_id client_secret : option string) : M SecretStr :=
  let env := kwarg "dev" env in
  let path := kwarg "" path in
  project_id <- resolve_project project ;;
  let cache_key := cache_key project_id env path key in
  hit <- cache_contains w cache_key ;;
  if (hit : bool) then cache_getitem w cache_key
  else
    sdk <- (if truthy client_id || truthy client_secret
            then default_id <- attr _default_client_id ;;
                 default_secret <- attr _default_client_secret ;;
                 new_client w (or_str client_id default_id)
                              (or_str client_secret default_secret)
            else ret (client w)) ;;
    default_path <- attr secret_path ;;
    let args := SDK.get_secret_by_name key project_id env
                  (or_str (Some path) default_path) in
    secret <- remote (SDK.Get args) (SDK.fetch sdk args) ;;
    match SDK.secret_value secret with
    | None => raise (AttributeError "secret_value")
    | Some s =>
        let value := mkSecretStr s in
        cache_setitem w cache_key value ;;
        ret value
    end.

(** [result[k] = v] on a dictionary that keeps insertion order. *)
Fixpoint dict_set (d : list (string * SecretStr)) (k : string) (v : SecretStr)
  : list (string * SecretStr) :=
  match d with
  | [] => [(k, v)]
  | (k', v') :: rest =>
      if (k' =? k)%string then (k, v) :: rest else (k', v') :: dict_set rest k v
  end.

(** The loop of lines 181-184: records without both attributes are
    skipped. *)
Fixpoint collect (secrets_list : list SDK.BaseSecret) (result : list (string * SecretStr))
  : list (string * SecretStr) :=
  match secrets_list with
  | [] => result
  | secret :: rest =>
      match SDK.secret_key secret, SDK.secret_value secret with
      | Some k, Some v => collect rest (dict_set result k (mkSecretStr v))
      | _, _ => collect rest result
      end
  end.

(** [LoadEnv.get_all] (lines 143-191). *)
Definition get_all (w : World) (project env path : option string)
  : M (list (string * SecretStr)) :=
  let env := kwarg "dev" env in
  let path := kwarg "" path in
  project_id <- resolve_project project ;;
  default_path <- attr secret_path ;;
  let args := SDK.list_secrets project_id env (or_str (Some path) default_path)
                true true false true [] in
  secrets_list <- remote (SDK.List args) (SDK.listing (client w) args) ;;
  ret (collect secrets_list []).

(** [LoadEnv.list_secrets] (lines 193-246). *)
Definition list_secrets (w : World) (project env path : option string)
    (expand_secret_references view_secret_value recursive include_imports : option bool)
    (tag_filters : option (list string)) : M (list SDK.BaseSecret) :=
  let env := kwarg "dev" env in
  let path := kwarg "" path in
  project_id <- resolve_project project ;;
  default_path <- attr secret_path ;;
  let args := SDK.list_secrets project_id env (or_str (Some path) default_path)
                (kwarg true expand_secret_references) (kwarg true view_secret_value)
                (kwarg false recursive) (kwarg true include_imports)
                (kwarg [] tag_filters) in
  remote (SDK.List args) (SDK.listing (client w) args).

(** Lines 299-306 of [create_secret], repeated as lines 372-379 of
    [update_secret]: for the resolved path and then for the empty path,
    every key that [self._cache.keys()] yields and that starts with the
    scope prefix is deleted. *)
Definition invalidate (w : World) (project_id env : string) (path : option string)
  : M unit :=
  default_path <- attr secret_path ;;
  let paths_to_invalidate := [or_str path default_path; ""] in
  for_each paths_to_invalidate (fun path_to_check =>
    let cache_prefix := _key project_id env path_to_check in
    ks <- cache_keys w ;;
    let keys_to_remove := filter (fun k => startswith k cache_prefix) ks in
    for_each keys_to_remove (fun k => cache_delitem w k)).

(** [LoadEnv.create_secret] (lines 248-313). *)
Definition create_secret (w : World) (secret_name secret_value : string)
    (project env path secret_comment : option string)
    (skip_multiline_encoding : option bool)
    (secret_reminder_repeat_days : option Z) (secret_reminder_note : option string)
  : M SDK.Descriptor :=
  let env := kwarg "dev" env in
  project_id <- resolve_project project ;;
  default_path <- attr secret_path ;;
  let args := SDK.create_secret_by_name secret_name secret_value project_id
                (or_str path default_path) env secret_comment
                (kwarg false skip_multiline_encoding)
                secret_reminder_repeat_days secret_reminder_note in
  result <- remote (SDK.Create args) (SDK.create (client w) args) ;;
  invalidate w project_id env path ;;
  ret result.

(** [LoadEnv.update_secret] (lines 315-385). *)
Definition update_secret (w : World) (current_secret_name : string)
    (secret_value project env path new_secret_name secret_comment : option string)
    (skip_multiline_encoding : option bool)
    (secret_reminder_repeat_days : option Z) (secret_reminder_note : option string)
    (secret_metadata tags_ids : option (list string)) : M unit :=
  let env := kwarg "dev" env in
  project_id <- resolve_project project ;;
  default_path <- attr secret_path ;;
  let args := SDK.update_secret_by_name current_secret_name project_id
                (or_str path default_path) env secret_value secret_comment
                (kwarg false skip_multiline_encoding)
                secret_reminder_repeat_days secret_reminder_note new_secret_name
                (kwarg [] secret_metadata) (kwarg [] tags_ids) in
  remote (SDK.Update args) (SDK.update (client w) args) ;;
  invalidate w project_id env path.

(** [LoadEnv.secret_by_name] (lines 387-428). *)
Definition secret_by_name (w : World) (secret_name : string)
    (project env path : option string) : M SDK.BaseSecret :=
  let env := kwarg "dev" env in
  project_id <- resolve_project project ;;
  default_path <- attr secret_path ;;
  let args := SDK.get_secret_by_name secret_name project_id env
                (or_str path default_path) in
  remote (SDK.Get args) (SDK.fetch (client w) args).

(** *** Sequences of operations *)

(** One call of a public operation, with its arguments. *)
Inductive Request :=
| Get (key : string) (project env path client_id client_secret : option string)
| GetAll (project env path : option string)
| ListSecrets (project env path : option string)
    (expand_secret_references view_secret_value recursive include_imports : option bool)
    (tag_filters : option (list string))
| CreateSecret (secret_name secret_value : string)
    (project env path secret_comment : option string)
    (skip_multiline_encoding : option bool)
    (secret_reminder_repeat_days : option Z) (secret_reminder_note : option string)
| UpdateSecret (current_secret_name : string)
    (secret_value project env path new_secret_name secret_comment : option string)
    (skip_multiline_encoding : option bool)
    (secret_reminder_repeat_days : option Z) (secret_reminder_note : option string)
    (secret_metadata tags_ids : option (list string))
| SecretByName (secret_name : string) (project env path : option string).

(** What the caller gets back. *)
Inductive Value :=
| VSecretStr (v : SecretStr)
| VDict (d : list (string * SecretStr))
| VList (l : list SDK.BaseSecret)
| VDescriptor (d : SDK.Descriptor)
| VNone
| VBaseSecret (s : SDK.BaseSecret).

Definition fmap {A B} (f : A -> B) (m : M A) : M B := x <- m ;; ret (f x).

Definition perform (w : World) (r : Request) : M Value :=
  match r with
  | Get key project env path client_id client_secret =>
      fmap VSecretStr (get w key project env path client_id client_secret)
  | GetAll project env path => fmap VDict (get_all w project env path)
  | ListSecrets project env path e v r i t =>
      fmap VList (list_secrets w project env path e v r i t)
  | CreateSecret n v project env path c s d o =>
      fmap VDescriptor (create_secret w n v project env path c s d o)
  | UpdateSecret n v project env path nn c s d o m t =>
      fmap (fun _ => VNone) (update_secret w n v project env path nn c s d o m t)
  | SecretByName n project env path =>
      fmap VBaseSecret (secret_by_name w n project env path)
  end.

Definition request_project (r : Request) : option string :=
  match r with
  | Get _ project _ _ _ _ | GetAll project _ _
  | ListSecrets project _ _ _ _ _ _ _ | CreateSecret _ _ project _ _ _ _ _ _
  | UpdateSecret _ _ project _ _ _ _ _ _ _ _ _ | SecretByName _ project _ _ => project
  end.

Definition request_env (r : Request) : option string :=
  match r with
  | Get _ _ env _ _ _ | GetAll _ env _
  | ListSecrets _ env _ _ _ _ _ _ | CreateSecret _ _ _ env _ _ _ _ _
  | UpdateSecret _ _ _ env _ _ _ _ _ _ _ _ | SecretByName _ _ env _ => env
  end.


(** The facade after a sequence of operations, each in its own world,
    whatever each of them returned or raised. *)
Fixpoint run (steps : list (World * Request)) (self : t) : t :=
  match steps with
  | [] => self
  | (w, r) :: rest => run rest (snd (fst (perform w r self)))
  end.

End LoadEnv.

(** ** Invariants of the cache *)

Definition keys_of (chain : list TTLCache.Link) : list string :=
  map TTLCache.link_key chain.

Definition expires_le (a b : TTLCache.Link) : Prop :=
  TTLCache.link_expires a <= TTLCache.link_expires b.

(** The capacity bound: no more entries than [maxsize] are resident, live or
    expired. *)
Definition bounded (c : TTLCache.t) : Prop :=
  TTLCache.currsize c <= TTLCache.maxsize c.

(** The usage order and the expiry chain hold the same keys, each of them
    once. *)
Record consistent (c : TTLCache.t) : Prop := mk_consistent {
  consistent_nodup : NoDup (keys_of (TTLCache.root c));
  consistent_order : NoDup (TTLCache.links c);
  consistent_links : forall k, In k (TTLCache.links c) <-> In k (keys_of (TTLCache.root c))
}.

(** A cache as the facade can hold it when the timer reads [clock] or more:
    consistent, bounded by a positive capacity, in expiry order, and with no
    entry that expires later than [clock + ttl]. *)
Record valid (clock : Z) (c : TTLCache.t) : Prop := mk_valid {
  valid_maxsize : 1 <= TTLCache.maxsize c;
  valid_consistent : consistent c;
  valid_bounded : bounded c;
  valid_sorted : StronglySorted expires_le (TTLCache.root c);
  valid_clock : Forall (fun l => TTLCache.link_expires l <= clock + TTLCache.ttl c)
                       (TTLCache.root c)
}.

(** [c'] keeps the configuration of [c] and holds no more entries. *)
Definition shrinks (c c' : TTLCache.t) : Prop :=
  TTLCache.maxsize c' = TTLCache.maxsize c /\ TTLCache.ttl c' = TTLCache.ttl c /\
  (length (TTLCache.root c') <= length (TTLCache.root c))%nat.

(** No entry of the cache has expired at time [now]. *)
Definition fresh (now : Z) (c : TTLCache.t) : Prop :=
  Forall (fun l => TTLCache.live now l = true) (TTLCache.root c).

(** ** Invariants of the facade *)

(** The state, the result and the events of running [m] on [self]. *)
Definition state_after {A} (m : LoadEnv.M A) (self : LoadEnv.t) : LoadEnv.t :=
  snd (fst (m self)).

Definition result_of {A} (m : LoadEnv.M A) (self : LoadEnv.t) : Exception + A :=
  fst (fst (m self)).

Definition events_of {A} (m : LoadEnv.M A) (self : LoadEnv.t) : list Event :=
  snd (m self).

(** [m] changes nothing of [self] but the cache, and keeps the property [P]
    of the cache. *)
Definition keeps (P : TTLCache.t -> Prop) {A} (m : LoadEnv.M A) : Prop :=
  forall self,
    P (LoadEnv._cache self) ->
    P (LoadEnv._cache (state_after m self)) /\
    state_after m self = LoadEnv.set_cache self (LoadEnv._cache (state_after m self)).

(** [m] does not touch the remote side. *)
Definition local {A} (m : LoadEnv.M A) : Prop :=
  forall self, Forall (fun e => is_remote e = false) (events_of m self).

(** The times of a sequence of operations never go back, starting from
    [clock]. *)
Fixpoint monotone (clock : Z) (steps : list (World * LoadEnv.Request)) : Prop :=
  match steps with
  | [] => True
  | (w, _) :: rest => clock <= now w /\ monotone (now w) rest
  end.

(** The time of the last operation of a sequence, [clock] if there is
    none. *)
Fixpoint last_time (clock : Z) (steps : list (World * LoadEnv.Request)) : Z :=
  match steps with
  | [] => clock
  | (w, _) :: rest => last_time (now w) rest
  end.

(** [m] leaves [self] as it is. *)
Definition readonly {A} (m : LoadEnv.M A) : Prop :=
  forall self, state_after m self = self.

(** The remote side raised [e] during the events [ev]: a call failed, or the
    construction of a client did. *)
Definition failed_with (e : Exception) (ev : list Event) : Prop :=
  (exists c, In (RemoteCall c (Some e)) ev) \/
  (exists client_id client_secret, In (NewClient client_id client_secret (Some e)) ev).

(** When the remote side raises during [m], [m] raises the same exception
    and leaves [self] as it was. *)
Definition fail_safe {A} (m : LoadEnv.M A) : Prop :=
  forall self e,
    failed_with e (events_of m self) ->
    result_of m self = inl e /\ state_after m self = self.



(** The client that [get] uses (lines 118-124), with the events of choosing
    it: a transient one when a credential is overridden, [self.client]
    otherwise. *)
Definition pick_client (w : World) (self : LoadEnv.t)
    (client_id client_secret : option string) : (Exception + SDK.Client) * list Event :=
  if truthy client_id || truthy client_secret then
    let i := or_str client_id (LoadEnv._default_client_id self) in
    let s := or_str client_secret (LoadEnv._default_client_secret self) in
    (_SDK w i s, [NewClient i s (raised (_SDK w i s))])
  else (inr (client w), []).

(** The arguments of the remote fetch of [get] (lines 127-132). *)
Definition fetch_args (self : LoadEnv.t) (key project_id : string)
    (env path : option string) : SDK.GetArgs :=
  SDK.get_secret_by_name key project_id (LoadEnv.kwarg "dev" env)
    (or_str (Some (LoadEnv.kwarg "" path)) (LoadEnv.secret_path self)).

(** ** Vocabulary of the statements *)

(** The operations that write to the remote side and then invalidate. *)
Definition is_write (r : LoadEnv.Request) : bool :=
  match r with
  | LoadEnv.CreateSecret _ _ _ _ _ _ _ _ _
  | LoadEnv.UpdateSecret _ _ _ _ _ _ _ _ _ _ _ _ => true
  | _ => false
  end.

Definition request_path (r : LoadEnv.Request) : option string :=
  match r with
  | LoadEnv.Get _ _ _ path _ _ | LoadEnv.GetAll _ _ path
  | LoadEnv.ListSecrets _ _ path _ _ _ _ _ | LoadEnv.CreateSecret _ _ _ _ path _ _ _ _
  | LoadEnv.UpdateSecret _ _ _ _ path _ _ _ _ _ _ _ | LoadEnv.SecretByName _ _ _ path => path
  end.

(** The string has no [":"], the delimiter of the cache keys. *)
Fixpoint no_delimiter (s : string) : bool :=
  match s with
  | EmptyString => true
  | String a s' => negb (Ascii.eqb a ":"%char) && no_delimiter s'
  end.

(** The path argument of a write, resolved against the default path
    ([path or self.secret_path]). *)
Definition resolved_path (self : LoadEnv.t) (r : LoadEnv.Request) : string :=
  or_str (request_path r) (LoadEnv.secret_path self).

(** Every entry of [c'] is an entry of [c]. *)
Definition within (c c' : TTLCache.t) : Prop :=
  incl (TTLCache.root c') (TTLCache.root c).

(** The cache after a sequence of insertions, each at its own time. *)
Fixpoint insert_all (inserts : list (Z * string * SecretStr)) (c : TTLCache.t)
  : TTLCache.t :=
  match inserts with
  | [] => c
  | (t, k, v) :: rest => insert_all rest (snd (TTLCache.setitem c t k v))
  end.

Definition with_project (project : option string) (r : LoadEnv.Request)
  : LoadEnv.Request :=
  match r with
  | LoadEnv.Get key _ env path client_id client_secret =>
      LoadEnv.Get key project env path client_id client_secret
  | LoadEnv.GetAll _ env path => LoadEnv.GetAll project env path
  | LoadEnv.ListSecrets _ env path e v r i t =>
      LoadEnv.ListSecrets project env path e v r i t
  | LoadEnv.CreateSecret n v _ env path c s d o =>
      LoadEnv.CreateSecret n v project env path c s d o
  | LoadEnv.UpdateSecret n v _ env path nn c s d o m t =>
      LoadEnv.UpdateSecret n v project env path nn c s d o m t
  | LoadEnv.SecretByName n _ env path => LoadEnv.SecretByName n project env path
  end.

(** ** Further vocabulary *)

(** Every event of [m] satisfies [Q]. *)
Definition emits (Q : Event -> bool) {A} (m : LoadEnv.M A) : Prop :=
  forall self, Forall (fun e => Q e = true) (events_of m self).

(** The event is a write into the cache. *)
Definition is_store (e : Event) : bool :=
  match e with
  | CacheSetitem _ _ => true
  | _ => false
  end.

(** The operations that go straight to the remote side: [get_all],
    [list_secrets] and [secret_by_name]. *)
Definition is_bypass (r : LoadEnv.Request) : bool :=
  match r with
  | LoadEnv.GetAll _ _ _ | LoadEnv.ListSecrets _ _ _ _ _ _ _ _
  | LoadEnv.SecretByName _ _ _ _ => true
  | _ => false
  end.

Definition is_get (r : LoadEnv.Request) : bool :=
  match r with
  | LoadEnv.Get _ _ _ _ _ _ => true
  | _ => false
  end.

Definition with_path (path : option string) (r : LoadEnv.Request) : LoadEnv.Request :=
  match r with
  | LoadEnv.Get key project env _ client_id client_secret =>
      LoadEnv.Get key project env path client_id client_secret
  | LoadEnv.GetAll project env _ => LoadEnv.GetAll project env path
  | LoadEnv.ListSecrets project env _ e v r i t =>
      LoadEnv.ListSecrets project env path e v r i t
  | LoadEnv.CreateSecret n v project env _ c s d o =>
      LoadEnv.CreateSecret n v project env path c s d o
  | LoadEnv.UpdateSecret n v project env _ nn c s d o m t =>
      LoadEnv.UpdateSecret n v project env path nn c s d o m t
  | LoadEnv.SecretByName n project env _ => LoadEnv.SecretByName n project env path
  end.

(** [d[k]] on the dictionary that [get_all] returns, [None] for a missing
    key. *)
Fixpoint dict_get (d : list (string * SecretStr)) (k : string) : option SecretStr :=
  match d with
  | [] => None
  | (k', v) :: rest => if (k' =? k)%string then Some v else dict_get rest k
  end.

(** The value of the last record of the list that has the key [k] and a
    value. *)
Fixpoint last_value (k : string) (secrets : list SDK.BaseSecret) : option string :=
  match secrets with
  | [] => None
  | secret :: rest =>
      match last_value k rest with
      | Some v => Some v
      | None =>
          match SDK.secret_key secret, SDK.secret_value secret with
          | Some k', Some v => if (k' =? k)%string then Some v else None
          | _, _ => None
          end
      end
  end.

(** The event is a call of the remote service. *)
Definition is_call (e : Event) : bool :=
  match e with
  | RemoteCall _ _ => true
  | _ => false
  end.

(** The number of calls of the remote service among the events. *)
Definition calls (ev : list Event) : nat := length (filter is_call ev).

(** [m] calls the remote service at most once. *)
Definition calls_once {A} (m : LoadEnv.M A) : Prop :=
  forall self, (calls (events_of m self) <= 1)%nat.

(** What a write may do to the cache after its remote call: list the keys,
    and delete keys that start with [prefix]. *)
Definition invalidates_within (prefix : string) (e : Event) : bool :=
  match e with
  | CacheKeys => true
  | CacheDelitem k => startswith k prefix
  | _ => false
  end.

(** [class InfisicalSecrets] (lines 16-24): the two credentials, each
    defaulting to its variable of the process environment, or to the empty
    string.  [None] stands for a field that is not given. *)
Module InfisicalSecrets.

Record t := mk {
  machine_identity_client_id : string;
  machine_identity_client_secret : string
}.

Definition new (environ : string -> option string)
    (machine_identity_client_id machine_identity_client_secret : option string) : t :=
  mk (LoadEnv.kwarg (LoadEnv.getenv_default environ "INFISICAL_MACHINE_ID" "")
        machine_identity_client_id)
     (LoadEnv.kwarg (LoadEnv.getenv_default environ "INFISICAL_SECRET_KEY" "")
        machine_identity_client_secret).

End InfisicalSecrets.

(** ** Vocabulary of the capacity and expiry statements *)

(** The last [n] elements of a list, all of them when there are fewer. *)
Definition lastn {A} (n : nat) (l : list A) : list A := skipn (length l - n) l.

(** No string occurs twice in the list. *)
Fixpoint distinct (l : list string) : bool :=
  match l with
  | [] => true
  | k :: rest => negb (existsb (String.eqb k) rest) && distinct rest
  end.

(** The events of a sequence of operations run from [self] on, each with the
    time of its operation. *)
Fixpoint history (steps : list (World * LoadEnv.Request)) (self : LoadEnv.t)
  : list (Z * Event) :=
  match steps with
  | [] => []
  | (w, r) :: rest =>
      map (pair (now w)) (events_of (LoadEnv.perform w r) self)
      ++ history rest (state_after (LoadEnv.perform w r) self)
  end.

(** Every entry of the cache was stored, with its value, by an event of [h],
    and expires one time-to-live after the time of that event. *)
Definition recorded (h : list (Z * Event)) (c : TTLCache.t) : Prop :=
  forall l, In l (TTLCache.root c) ->
    exists T, In (T, CacheSetitem (TTLCache.link_key l) (TTLCache.link_value l)) h /\
              TTLCache.link_expires l = T + TTLCache.ttl c.

(** [m], run at time [T], keeps the entries of the cache recorded. *)
Definition records (T : Z) {A} (m : LoadEnv.M A) : Prop :=
  forall self h,
    recorded h (LoadEnv._cache self) ->
    recorded (h ++ map (pair T) (events_of m self)) (LoadEnv._cache (state_after m self)).

(** The key under which a [get] request looks its secret up (line 107), when
    the request has a project. *)
Definition read_key (self : LoadEnv.t) (r : LoadEnv.Request) : option string :=
  match r with
  | LoadEnv.Get key project env path _ _ =>
      match py_or project (LoadEnv.project_id self) with
      | Some p =>
          if (p =? "")%string then None
          else Some (LoadEnv.cache_key p (LoadEnv.kwarg "dev" env)
                       (LoadEnv.kwarg "" path) key)
      | None => None
      end
  | _ => None
  end.

(** Every operation of the sequence returns, none raises. *)
Fixpoint all_return (steps : list (World * LoadEnv.Request)) (self : LoadEnv.t) : bool :=
  match steps with
  | [] => true
  | (w, r) :: rest =>
      match result_of (LoadEnv.perform w r) self with
      | inr _ => all_return rest (state_after (LoadEnv.perform w r) self)
      | inl _ => false
      end
  end.

(** ** Concrete worlds and facades, used to exercise the statements *)

Module Example.

Definition secret (v : string) : SDK.BaseSecret :=
  SDK.mkSecret (Some "TEST_SECRET") (Some v).

(** A client all of whose calls succeed. *)
Definition answering (v : string) : SDK.Client :=
  SDK.mkClient (fun _ => inr (secret v)) (fun _ => inr [secret v])
               (fun _ => inr [("id", "secret_123")]) (fun _ => inr tt).

(** A client all of whose calls raise. *)
Definition failing (msg : string) : SDK.Client :=
  SDK.mkClient (fun _ => inl (RemoteError msg)) (fun _ => inl (RemoteError msg))
               (fun _ => inl (RemoteError msg)) (fun _ => inl (RemoteError msg)).

(** The world at time [t] in which every client behaves as [c]. *)
Definition world (t : Z) (c : SDK.Client) : World :=
  mkWorld t c (fun _ _ => inr c).

(** A process environment without any of the variables. *)
Definition no_environ (_ : string) : option string := None.

(** The process environment of [test_init_from_env_vars]. *)
Definition environ (name : string) : option string :=
  if (name =? "INFISICAL_MACHINE_ID")%string then Some "env_client_id"
  else if (name =? "INFISICAL_SECRET_KEY")%string then Some "env_secret_key"
  else if (name =? "INFISICAL_PROJECT_ID")%string then Some "test_project"
  else if (name =? "INFISICAL_ENVIRONMENT")%string then Some "staging"
  else if (name =? "INFISICAL_SECRET_PATH")%string then Some "/custom/path"
  else None.

(** The facade of the test fixture [load_env]: explicit credentials, no
    variable set. *)
Definition load_env : LoadEnv.t :=
  LoadEnv.mk (TTLCache.empty 100 3600) "test_client_id" "test_client_secret"
             None "dev" "/".

(** The facade built from [environ]. *)
Definition staging_env : LoadEnv.t :=
  LoadEnv.mk (TTLCache.empty 100 3600) "env_client_id" "env_secret_key"
             (Some "test_project") "staging" "/custom/path".

(** [load_env] after [get("NAME", project="P", path="/other")] at time 0. *)
Definition with_other_path : LoadEnv.t :=
  state_after
    (LoadEnv.get (world 0 (answering "other_value")) "NAME" (Some "P") None
                 (Some "/other") None None)
    load_env.

(** [create_secret("NEW_SECRET", "new_value", project="P", path="/app")]. *)
Definition create_in_app : LoadEnv.Request :=
  LoadEnv.CreateSecret "NEW_SECRET" "new_value" (Some "P") None (Some "/app")
                       None None None None.

(** [load_env] with the cache seeded as in [test_get_secret_cache_hit]. *)
Definition seeded : LoadEnv.t :=
  LoadEnv.set_cache load_env
    (snd (TTLCache.setitem (LoadEnv._cache load_env) 0
            "test_project:dev::TEST_SECRET" (mkSecretStr "cached_value"))).

(** [get("TEST_SECRET", project="test_project")]. *)
Definition get_test_secret : LoadEnv.Request :=
  LoadEnv.Get "TEST_SECRET" (Some "test_project") None None None None.

End Example.

(** ** Further concrete inputs *)

Module Listing.

(** A listing with a name listed twice, a record without a value and a
    record without a name. *)
Definition records : list SDK.BaseSecret :=
  [SDK.mkSecret (Some "SECRET_1") (Some "value_1");
   SDK.mkSecret (Some "SECRET_2") None;
   SDK.mkSecret None (Some "orphan");
   SDK.mkSecret (Some "SECRET_1") (Some "value_2")].

Definition listing_client : SDK.Client :=
  SDK.mkClient (fun _ => inl (RemoteError "not used")) (fun _ => inr records)
               (fun _ => inl (RemoteError "not used"))
               (fun _ => inl (RemoteError "not used")).

End Listing.

(** ** More secrets than the cache holds *)

Module Many.

(** [n] strokes. *)
Fixpoint tally (n : nat) : string :=
  match n with
  | O => ""
  | S n' => String "I" (tally n')
  end.

(** The names [S], [SI], [SII], ... of [n] secrets. *)
Definition names (n : nat) : list string :=
  map (fun i => ("S" ++ tally i)%string) (seq 0 n).

(** [get(name, project="P")] for each of the [n] names, the i-th of them at
    time [i], the remote side answering every call. *)
Definition reads (n : nat) : list (World * LoadEnv.Request) :=
  map (fun i => (Example.world (Z.of_nat i) (Example.answering "v"),
                 LoadEnv.Get ("S" ++ tally i) (Some "P") None None None None))
      (seq 0 n).

(** The cache keys of these reads. *)
Definition keys (n : nat) : list string :=
  map (LoadEnv.cache_key "P" "dev" "") (names n).

End Many.

(** ** A secret that is read, read again and left to expire *)

Module Aging.

(** The cache key of [get("TEST_SECRET", project="test_project")]. *)
Definition key : string := "test_project:dev::TEST_SECRET".

(** The secret is fetched and stored at time 10 and read from the cache at
    time 100, when the remote side is down; at time 200 a secret of another
    project is created. *)
Definition steps : list (World * LoadEnv.Request) :=
  [(Example.world 10 (Example.answering "fresh_value"), Example.get_test_secret);
   (Example.world 100 (Example.failing "down"), Example.get_test_secret);
   (Example.world 200 (Example.answering "v"), Example.create_in_app)].

End Aging.

(** * Properties *)

(** ** Strings *)

Lemma startswith_append (p s : string) : startswith (p ++ s)%string p = true.
Proof.
  induction p as [|a p IH]; simpl; [reflexivity|].
  now rewrite Ascii.eqb_refl, IH.
Qed.

Lemma startswith_split (s p : string) :
  startswith s p = true -> exists r, s = (p ++ r)%string.
Proof.
  revert s; induction p as [|a p IH]; intros s H; simpl in *.
  - now exists s.
  - destruct s as [|b s]; [discriminate|].
    apply andb_true_iff in H as [Hab Hs].
    apply Ascii.eqb_eq in Hab; subst b.
    destruct (IH _ Hs) as [r ->]. now exists r.
Qed.

Lemma append_assoc (a b c : string) :
  ((a ++ b) ++ c)%string = (a ++ b ++ c)%string.
Proof. induction a as [|x a IH]; simpl; [reflexivity|now rewrite IH]. Qed.

Lemma startswith_trans (s p q : string) :
  startswith s p = true -> startswith p q = true -> startswith s q = true.
Proof.
  intros Hs Hp.
  destruct (startswith_split _ _ Hs) as [r ->].
  destruct (startswith_split _ _ Hp) as [r' ->].
  rewrite append_assoc. apply startswith_append.
Qed.

(** ** The expiry chain and the usage order *)

Section Chain.

Import TTLCache.

Lemma has_key_eq k l : has_key k l = true <-> link_key l = k.
Proof. unfold has_key. apply String.eqb_eq. Qed.

Lemma find_has_key k chain l :
  find (has_key k) chain = Some l -> In l chain /\ link_key l = k.
Proof.
  intros H. apply find_some in H as [Hin Hk]. now apply has_key_eq in Hk.
Qed.

Lemma find_none_keys k chain :
  find (has_key k) chain = None <-> ~ In k (keys_of chain).
Proof.
  induction chain as [|l chain IH]; simpl.
  - tauto.
  - destruct (has_key k l) eqn:E.
    + apply has_key_eq in E. split; [discriminate|]. intros H. exfalso. auto.
    + rewrite IH. split.
      * intros Hn [Hl|Hin]; [|tauto].
        apply has_key_eq in Hl. congruence.
      * tauto.
Qed.

Lemma find_some_keys k chain l :
  find (has_key k) chain = Some l -> In k (keys_of chain).
Proof.
  intros H. destruct (find_has_key _ _ _ H) as [Hin <-].
  now apply in_map.
Qed.

Lemma find_unique k chain l :
  NoDup (keys_of chain) -> In l chain -> link_key l = k ->
  find (has_key k) chain = Some l.
Proof.
  induction chain as [|l0 chain IH]; simpl; intros Hnd Hin Hk; [tauto|].
  inversion Hnd as [|? ? Hnotin Hnd']; subst.
  destruct Hin as [->|Hin].
  - now rewrite (proj2 (has_key_eq _ _) eq_refl).
  - destruct (has_key (link_key l) l0) eqn:E.
    + apply has_key_eq in E. exfalso. apply Hnotin. rewrite E.
      now apply in_map.
    + auto.
Qed.

Lemma keys_unlink k chain k' :
  In k' (keys_of (unlink k chain)) <-> In k' (keys_of chain) /\ k' <> k.
Proof.
  unfold keys_of, unlink. rewrite !in_map_iff. split.
  - intros (l & <- & Hin). apply filter_In in Hin as [Hin Hk].
    split; [now exists l|].
    intros Heq. apply has_key_eq in Heq. now rewrite Heq in Hk.
  - intros [(l & <- & Hin) Hne]. exists l. split; [reflexivity|].
    apply filter_In. split; [assumption|].
    destruct (has_key k l) eqn:E; [|reflexivity].
    apply has_key_eq in E. contradiction.
Qed.

Lemma in_forget k order k' :
  In k' (forget k order) <-> In k' order /\ k' <> k.
Proof.
  unfold forget. rewrite filter_In. split; intros [Hin H]; split; try assumption.
  - intros ->. now rewrite String.eqb_refl in H.
  - apply String.eqb_neq in H. now rewrite H.
Qed.

Lemma find_unlink_same k chain : find (has_key k) (unlink k chain) = None.
Proof. apply find_none_keys. rewrite keys_unlink. tauto. Qed.

Lemma find_unlink_other k k' chain :
  k' <> k -> find (has_key k') (unlink k chain) = find (has_key k') chain.
Proof.
  intros Hne. induction chain as [|l chain IH]; simpl; [reflexivity|].
  destruct (has_key k l) eqn:Ek; simpl.
  - apply has_key_eq in Ek.
    destruct (has_key k' l) eqn:Ek'; [|assumption].
    apply has_key_eq in Ek'. congruence.
  - destruct (has_key k' l); [reflexivity|assumption].
Qed.

Lemma nodup_keys_filter (f : Link -> bool) chain :
  NoDup (keys_of chain) -> NoDup (keys_of (filter f chain)).
Proof.
  induction chain as [|l chain IH]; simpl; intros Hnd; [constructor|].
  inversion Hnd as [|? ? Hnotin Hnd']; subst.
  destruct (f l); simpl; [|auto].
  constructor; [|auto].
  intros Hin. apply Hnotin. unfold keys_of in *.
  apply in_map_iff in Hin as (l' & Hk & Hin).
  apply filter_In in Hin as [Hin _]. rewrite <- Hk. now apply in_map.
Qed.

Lemma length_unlink_le k chain : (length (unlink k chain) <= length chain)%nat.
Proof. apply filter_length_le. Qed.

Lemma length_unlink_lt k chain l :
  find (has_key k) chain = Some l -> (length (unlink k chain) < length chain)%nat.
Proof.
  induction chain as [|l0 chain IH]; simpl; [discriminate|].
  destruct (has_key k l0) eqn:E; simpl; intros H.
  - pose proof (length_unlink_le k chain). unfold unlink in *. lia.
  - specialize (IH H). unfold unlink in *. lia.
Qed.

Lemma sorted_filter (f : Link -> bool) chain :
  StronglySorted expires_le chain -> StronglySorted expires_le (filter f chain).
Proof.
  induction 1 as [|l chain Hs IH Hall]; simpl; [constructor|].
  destruct (f l); [|assumption].
  constructor; [assumption|].
  apply Forall_forall. intros x Hx. apply filter_In in Hx as [Hx _].
  rewrite Forall_forall in Hall. auto.
Qed.

Lemma sorted_snoc chain l :
  StronglySorted expires_le chain ->
  Forall (fun x => link_expires x <= link_expires l) chain ->
  StronglySorted expires_le (chain ++ [l]).
Proof.
  induction 1 as [|x chain Hs IH Hall]; simpl; intros Hle.
  - constructor; constructor.
  - inversion Hle; subst. constructor; [auto|].
    apply Forall_app. split; [assumption|]. constructor; [assumption|constructor].
Qed.

End Chain.

(** ** Expiry *)

Section Expire.

Import TTLCache.

Lemma expire_chain_spec now chain order :
  exists dropped,
    chain = dropped ++ snd (expire_chain now chain order) /\
    Forall (fun l => live now l = false) dropped /\
    (forall l, hd_error (snd (expire_chain now chain order)) = Some l ->
               live now l = true) /\
    (forall k, In k (fst (expire_chain now chain order)) <->
               In k order /\ ~ In k (keys_of dropped)) /\
    (NoDup order -> NoDup (fst (expire_chain now chain order))).
Proof.
  revert order. induction chain as [|l chain IH]; intros order; simpl.
  - exists []. simpl. repeat split; try tauto; try constructor. discriminate.
  - destruct (live now l) eqn:E.
    + exists []. simpl. repeat split; try tauto; try constructor.
      now intros ? [= <-].
    + destruct (IH (forget (link_key l) order)) as (dropped & Hc & Hd & Hh & Hk & Hn).
      exists (l :: dropped). simpl. split; [now rewrite <- Hc|].
      split; [now constructor|]. split; [assumption|]. split.
      * intros k. rewrite Hk, in_forget. intuition congruence.
      * intros Hnd. apply Hn. now apply NoDup_filter.
Qed.

Lemma expire_maxsize c now : maxsize (expire c now) = maxsize c.
Proof. unfold expire. now destruct (expire_chain now (root c) (links c)). Qed.

Lemma expire_ttl c now : ttl (expire c now) = ttl c.
Proof. unfold expire. now destruct (expire_chain now (root c) (links c)). Qed.

Lemma expire_root c now :
  root (expire c now) = snd (expire_chain now (root c) (links c)).
Proof. unfold expire. now destruct (expire_chain now (root c) (links c)). Qed.

Lemma expire_links c now :
  links (expire c now) = fst (expire_chain now (root c) (links c)).
Proof. unfold expire. now destruct (expire_chain now (root c) (links c)). Qed.

Lemma expire_suffix c now :
  exists dropped, root c = dropped ++ root (expire c now) /\
                  Forall (fun l => live now l = false) dropped.
Proof.
  destruct (expire_chain_spec now (root c) (links c)) as (d & Hc & Hd & _).
  exists d. now rewrite expire_root.
Qed.

Lemma expire_length c now : (length (root (expire c now)) <= length (root c))%nat.
Proof.
  destruct (expire_suffix c now) as (d & Hc & _).
  rewrite Hc at 1. rewrite length_app. lia.
Qed.

Lemma expire_bounded c now : bounded c -> bounded (expire c now).
Proof.
  unfold bounded, currsize. rewrite expire_maxsize.
  pose proof (expire_length c now). lia.
Qed.

Lemma sorted_suffix (a b : list Link) :
  StronglySorted expires_le (a ++ b) -> StronglySorted expires_le b.
Proof.
  induction a as [|x a IH]; simpl; [tauto|].
  intros H. inversion H; auto.
Qed.

Lemma nodup_app_disjoint (a b : list string) k :
  NoDup (a ++ b) -> In k a -> ~ In k b.
Proof.
  induction a as [|x a IH]; simpl; [tauto|].
  intros Hnd [->|Hin] Hb.
  - inversion Hnd as [|? ? Hnotin _]; subst. apply Hnotin, in_or_app. now right.
  - inversion Hnd; subst. now apply IH.
Qed.

Lemma expire_consistent c now : consistent c -> consistent (expire c now).
Proof.
  intros [Hnd Hord Hlinks].
  destruct (expire_chain_spec now (root c) (links c)) as (d & Hc & _ & _ & Hk & Hn).
  rewrite <- expire_root, <- expire_links in *.
  assert (Hsplit : keys_of (root c) = keys_of d ++ keys_of (root (expire c now))).
  { unfold keys_of. now rewrite Hc at 1; rewrite map_app. }
  rewrite Hsplit in Hnd.
  constructor.
  - now apply NoDup_app_remove_l in Hnd.
  - auto.
  - intros k. rewrite Hk, Hlinks, Hsplit, in_app_iff. split.
    + tauto.
    + intros Hin. split; [tauto|]. intros Hd.
      now apply (nodup_app_disjoint _ _ k Hnd Hd).
Qed.

(** In a chain in expiry order, nothing expired is left after [expire]. *)
Lemma expire_live c now :
  StronglySorted expires_le (root c) ->
  Forall (fun l => live now l = true) (root (expire c now)).
Proof.
  intros Hs.
  destruct (expire_chain_spec now (root c) (links c)) as (d & Hc & _ & Hh & _).
  rewrite <- expire_root in *.
  rewrite Hc in Hs. apply sorted_suffix in Hs.
  destruct (root (expire c now)) as [|l rest]; [constructor|].
  specialize (Hh l eq_refl). constructor; [assumption|].
  inversion Hs as [|? ? _ Hall]; subst.
  apply Forall_forall. intros x Hx. rewrite Forall_forall in Hall.
  specialize (Hall x Hx). unfold live, expires_le in *. lia.
Qed.

Lemma valid_later clock clock' c : valid clock c -> clock <= clock' -> valid clock' c.
Proof.
  intros [Hm Hc Hb Hs Ht] Hle. constructor; try assumption.
  eapply Forall_impl; [|exact Ht]. simpl. intros; lia.
Qed.

Lemma expire_valid clock c now : valid clock c -> valid clock (expire c now).
Proof.
  intros [Hm Hc Hb Hs Ht].
  destruct (expire_suffix c now) as (d & Hd & _).
  constructor.
  - now rewrite expire_maxsize.
  - now apply expire_consistent.
  - now apply expire_bounded.
  - rewrite Hd in Hs. now apply sorted_suffix in Hs.
  - rewrite expire_ttl. rewrite Hd in Ht. now apply Forall_app in Ht.
Qed.

End Expire.

(** ** Reading and deleting one entry *)

Section Entries.

Import TTLCache.

Lemma shrinks_refl c : shrinks c c.
Proof. unfold shrinks. auto. Qed.

Lemma shrinks_trans a b c : shrinks a b -> shrinks b c -> shrinks a c.
Proof. unfold shrinks. intros (-> & -> & ?) (-> & -> & ?). repeat split. lia. Qed.

Lemma shrinks_bounded c c' : shrinks c c' -> bounded c -> bounded c'.
Proof. unfold shrinks, bounded, currsize. intros (-> & _ & ?) ?. lia. Qed.

Lemma expire_shrinks c now : shrinks c (expire c now).
Proof.
  repeat split; auto using expire_maxsize, expire_ttl, expire_length.
Qed.

Lemma getitem_hit c now k l :
  find_link k c = Some l -> live now l = true ->
  getitem c now k =
    (inr (link_value l), mk (maxsize c) (ttl c) (move_to_end k (links c)) (root c)).
Proof. unfold getitem. now intros -> ->. Qed.

Lemma getitem_root c now k : root (snd (getitem c now k)) = root c.
Proof.
  unfold getitem. destruct (find_link k c) as [l|]; [|reflexivity].
  now destruct (live now l).
Qed.

Lemma getitem_shrinks c now k : shrinks c (snd (getitem c now k)).
Proof.
  unfold getitem. destruct (find_link k c) as [l|]; [|apply shrinks_refl].
  destruct (live now l); repeat split; simpl; lia.
Qed.

Lemma nodup_move_to_end k order : NoDup order -> NoDup (move_to_end k order).
Proof.
  intros H. unfold move_to_end. apply NoDup_app.
  - now apply NoDup_filter.
  - constructor; [simpl; tauto|constructor].
  - intros a Ha [<-|[]]. apply in_forget in Ha. tauto.
Qed.

Lemma in_move_to_end k order k' :
  In k' (move_to_end k order) <-> In k' order \/ k' = k.
Proof.
  unfold move_to_end. rewrite in_app_iff, in_forget. simpl.
  destruct (String.eqb_spec k' k); intuition congruence.
Qed.

Lemma getitem_consistent c now k : consistent c -> consistent (snd (getitem c now k)).
Proof.
  intros [Hnd Hord Hlinks]. unfold getitem.
  destruct (find_link k c) as [l|] eqn:E; [|now constructor].
  apply find_some_keys in E.
  assert (consistent (mk (maxsize c) (ttl c) (move_to_end k (links c)) (root c))).
  { constructor; simpl; [assumption|now apply nodup_move_to_end|].
    intros k'. rewrite in_move_to_end, Hlinks. intuition congruence. }
  now destruct (live now l).
Qed.

Lemma getitem_valid clock c now k : valid clock c -> valid clock (snd (getitem c now k)).
Proof.
  intros [Hm Hc Hb Hs Ht].
  pose proof (getitem_shrinks c now k) as Hsh.
  pose proof (getitem_root c now k) as Hr.
  destruct Hsh as (Hm' & Ht' & _).
  constructor.
  - now rewrite Hm'.
  - now apply getitem_consistent.
  - eapply shrinks_bounded; [apply getitem_shrinks|assumption].
  - now rewrite Hr.
  - now rewrite Hr, Ht'.
Qed.

Lemma delitem_live c now k l :
  find_link k c = Some l -> live now l = true ->
  delitem c now k =
    (inr tt, mk (maxsize c) (ttl c) (forget k (links c)) (unlink k (root c))).
Proof. unfold delitem. now intros -> ->. Qed.

Lemma delitem_shrinks c now k : shrinks c (snd (delitem c now k)).
Proof.
  unfold delitem. destruct (find_link k c) as [l|]; [|apply shrinks_refl].
  pose proof (length_unlink_le k (root c)).
  destruct (live now l); repeat split; simpl; lia.
Qed.

Lemma removed_consistent c k :
  consistent c ->
  consistent (mk (maxsize c) (ttl c) (forget k (links c)) (unlink k (root c))).
Proof.
  intros [Hnd Hord Hlinks]. constructor; simpl.
  - now apply nodup_keys_filter.
  - now apply NoDup_filter.
  - intros k'. now rewrite in_forget, keys_unlink, Hlinks.
Qed.

Lemma removed_valid clock c k :
  valid clock c ->
  valid clock (mk (maxsize c) (ttl c) (forget k (links c)) (unlink k (root c))).
Proof.
  intros [Hm Hc Hb Hs Ht]. constructor; simpl.
  - assumption.
  - now apply removed_consistent.
  - unfold bounded, currsize in *. simpl.
    pose proof (length_unlink_le k (root c)). lia.
  - now apply sorted_filter.
  - apply Forall_forall. intros x Hx. apply filter_In in Hx as [Hx _].
    rewrite Forall_forall in Ht. auto.
Qed.

Lemma delitem_consistent c now k : consistent c -> consistent (snd (delitem c now k)).
Proof.
  intros H. unfold delitem. destruct (find_link k c) as [l|]; [|assumption].
  destruct (live now l); now apply removed_consistent.
Qed.

Lemma delitem_valid clock c now k : valid clock c -> valid clock (snd (delitem c now k)).
Proof.
  intros H. unfold delitem. destruct (find_link k c) as [l|]; [|assumption].
  destruct (live now l); now apply removed_valid.
Qed.

(** What a deletion leaves of the other keys, and of the deleted one. *)
Lemma delitem_find_other c now k k' :
  k' <> k -> find_link k' (snd (delitem c now k)) = find_link k' c.
Proof.
  intros Hne. unfold delitem. destruct (find_link k c) as [l|]; [|reflexivity].
  destruct (live now l); simpl; unfold find_link; simpl;
    now apply find_unlink_other.
Qed.

Lemma delitem_find_same c now k : find_link k (snd (delitem c now k)) = None.
Proof.
  unfold delitem. destruct (find_link k c) as [l|] eqn:E; [|assumption].
  destruct (live now l); simpl; unfold find_link; simpl; apply find_unlink_same.
Qed.

End Entries.

(** ** Eviction *)

Section Eviction.

Import TTLCache.

Lemma contains_find c now k :
  contains c now k = true <-> exists l, find_link k c = Some l /\ live now l = true.
Proof.
  unfold contains. destruct (find_link k c) as [l|].
  - split; [intros H; now exists l|now intros (l' & [= <-] & H)].
  - split; [discriminate|now intros (l' & [=] & _)].
Qed.

Lemma pop_live c now k l :
  find_link k c = Some l -> live now l = true ->
  pop c now k =
    (inr (link_value l),
     mk (maxsize c) (ttl c) (forget k (move_to_end k (links c))) (unlink k (root c))).
Proof.
  intros Hf Hl. unfold pop, contains. rewrite Hf, Hl.
  rewrite (getitem_hit c now k l Hf Hl).
  erewrite delitem_live; [reflexivity| |exact Hl]. exact Hf.
Qed.

Lemma pop_dead c now k : contains c now k = false -> pop c now k = (inl (KeyError k), c).
Proof. unfold pop. now intros ->. Qed.

Lemma pop_shrinks c now k : shrinks c (snd (pop c now k)).
Proof.
  destruct (contains c now k) eqn:E.
  - apply contains_find in E as (l & Hf & Hl). rewrite (pop_live c now k l Hf Hl).
    pose proof (length_unlink_le k (root c)). repeat split; simpl; lia.
  - rewrite pop_dead by assumption. apply shrinks_refl.
Qed.

Lemma pop_strict c now k v c' :
  pop c now k = (inr v, c') -> (length (root c') < length (root c))%nat.
Proof.
  destruct (contains c now k) eqn:E.
  - apply contains_find in E as (l & Hf & Hl). rewrite (pop_live c now k l Hf Hl).
    intros [= _ <-]. simpl. now apply length_unlink_lt with l.
  - rewrite pop_dead by assumption. discriminate.
Qed.

Lemma pop_consistent c now k : consistent c -> consistent (snd (pop c now k)).
Proof.
  intros H. destruct (contains c now k) eqn:E.
  - apply contains_find in E as (l & Hf & Hl). rewrite (pop_live c now k l Hf Hl).
    pose proof (getitem_consistent c now k H) as Hg.
    rewrite (getitem_hit c now k l Hf Hl) in Hg.
    exact (removed_consistent _ k Hg).
  - now rewrite pop_dead.
Qed.

Lemma pop_valid clock c now k : valid clock c -> valid clock (snd (pop c now k)).
Proof.
  intros H. destruct (contains c now k) eqn:E.
  - apply contains_find in E as (l & Hf & Hl). rewrite (pop_live c now k l Hf Hl).
    pose proof (getitem_valid clock c now k H) as Hg.
    rewrite (getitem_hit c now k l Hf Hl) in Hg.
    exact (removed_valid clock _ k Hg).
  - now rewrite pop_dead.
Qed.

Lemma popitem_eq c now :
  popitem c now =
    match links (expire c now) with
    | [] => (inl (KeyError "TTLCache is empty"), expire c now)
    | k :: _ =>
        match pop (expire c now) now k with
        | (inr v, c1) => (inr (k, v), c1)
        | (inl e, c1) => (inl e, c1)
        end
    end.
Proof. reflexivity. Qed.

Lemma popitem_snd c now :
  snd (popitem c now) =
    match links (expire c now) with
    | [] => expire c now
    | k :: _ => snd (pop (expire c now) now k)
    end.
Proof.
  rewrite popitem_eq. destruct (links (expire c now)) as [|k ?]; [reflexivity|].
  now destruct (pop (expire c now) now k) as [[e|v] c1].
Qed.

Lemma popitem_shrinks c now : shrinks c (snd (popitem c now)).
Proof.
  rewrite popitem_snd. pose proof (expire_shrinks c now) as He.
  destruct (links (expire c now)) as [|k ?]; [assumption|].
  eapply shrinks_trans; [exact He|apply pop_shrinks].
Qed.

Lemma popitem_strict c now kv c' :
  popitem c now = (inr kv, c') -> (length (root c') < length (root c))%nat.
Proof.
  rewrite popitem_eq. pose proof (expire_length c now) as He.
  destruct (links (expire c now)) as [|k ?]; [discriminate|].
  destruct (pop (expire c now) now k) as [[e|v] c1] eqn:E; [discriminate|].
  intros [= _ <-]. apply pop_strict in E. lia.
Qed.

Lemma popitem_consistent c now : consistent c -> consistent (snd (popitem c now)).
Proof.
  intros H. rewrite popitem_snd. apply (expire_consistent c now) in H.
  destruct (links (expire c now)) as [|k ?]; [assumption|].
  now apply pop_consistent.
Qed.

Lemma popitem_valid clock c now : valid clock c -> valid clock (snd (popitem c now)).
Proof.
  intros H. rewrite popitem_snd. apply (expire_valid clock c now) in H.
  destruct (links (expire c now)) as [|k ?]; [assumption|].
  now apply pop_valid.
Qed.

Lemma make_room_shrinks fuel c now : shrinks c (snd (make_room fuel c now)).
Proof.
  revert c. induction fuel as [|fuel IH]; intros c; simpl.
  - destruct (currsize c + 1 >? maxsize c); apply shrinks_refl.
  - destruct (currsize c + 1 >? maxsize c); [|apply shrinks_refl].
    pose proof (popitem_shrinks c now) as Hp.
    destruct (popitem c now) as [[e|kv] c1]; simpl in *; [assumption|].
    eapply shrinks_trans; [exact Hp|apply IH].
Qed.

Lemma make_room_consistent fuel c now :
  consistent c -> consistent (snd (make_room fuel c now)).
Proof.
  revert c. induction fuel as [|fuel IH]; intros c H; simpl.
  - now destruct (currsize c + 1 >? maxsize c).
  - destruct (currsize c + 1 >? maxsize c); [|assumption].
    pose proof (popitem_consistent c now H) as Hp.
    destruct (popitem c now) as [[e|kv] c1]; simpl in *; auto.
Qed.

Lemma make_room_valid clock fuel c now :
  valid clock c -> valid clock (snd (make_room fuel c now)).
Proof.
  revert c. induction fuel as [|fuel IH]; intros c H; simpl.
  - now destruct (currsize c + 1 >? maxsize c).
  - destruct (currsize c + 1 >? maxsize c); [|assumption].
    pose proof (popitem_valid clock c now H) as Hp.
    destruct (popitem c now) as [[e|kv] c1]; simpl in *; auto.
Qed.

(** When the loop ends normally there is room for one more entry. *)
Lemma make_room_room fuel c now c' :
  make_room fuel c now = (inr tt, c') -> currsize c' + 1 <= maxsize c'.
Proof.
  revert c. induction fuel as [|fuel IH]; intros c; simpl.
  - destruct (currsize c + 1 >? maxsize c) eqn:E; [discriminate|].
    intros [= <-]. lia.
  - destruct (currsize c + 1 >? maxsize c) eqn:E.
    + destruct (popitem c now) as [[e|kv] c1]; [discriminate|]. apply IH.
    + intros [= <-]. lia.
Qed.

(** The fuel [S (length (root c))] is never used up: more fuel gives the
    same result. *)
Lemma make_room_fuel fuel c now :
  (length (root c) < fuel)%nat ->
  make_room fuel c now = make_room (S (length (root c))) c now.
Proof.
  assert (H : forall n m c, (length (root c) < n)%nat -> (length (root c) < m)%nat ->
                            make_room n c now = make_room m c now).
  { clear. induction n as [|n IH]; intros m c Hn Hm; [lia|].
    destruct m as [|m]; [lia|]. simpl.
    destruct (currsize c + 1 >? maxsize c); [|reflexivity].
    destruct (popitem c now) as [[e|kv] c1] eqn:E; [reflexivity|].
    apply popitem_strict in E. apply IH; lia. }
  intros Hlt. apply H; lia.
Qed.

End Eviction.

(** ** Storing one entry *)

Section Store.

Import TTLCache.

Lemma setitem_eq c now k v :
  setitem c now k v =
    let c0 := expire c now in
    if 1 >? maxsize c0 then (inl (ValueError "value too large"), c0)
    else
      match (if in_data k c0 then (inr tt, c0)
             else make_room (S (length (root c0))) c0 now) with
      | (inl e, c1) => (inl e, c1)
      | (inr _, c1) => (inr tt, store c1 now k v)
      end.
Proof. reflexivity. Qed.

Lemma find_app (f : Link -> bool) a b :
  find f (a ++ b) = match find f a with Some x => Some x | None => find f b end.
Proof.
  induction a as [|x a IH]; simpl; [reflexivity|]. now destruct (f x).
Qed.

Lemma stored_find_same c1 now k v :
  find_link k (store c1 now k v) = Some (mkLink k v (now + ttl c1)).
Proof.
  unfold find_link, store. simpl. rewrite find_app, find_unlink_same. simpl.
  unfold has_key. simpl. now rewrite String.eqb_refl.
Qed.

Lemma stored_find_other c1 now k v k' :
  k' <> k -> find_link k' (store c1 now k v) = find_link k' c1.
Proof.
  intros Hne. unfold find_link, store. simpl.
  rewrite find_app, find_unlink_other by assumption.
  destruct (find (has_key k') (root c1)); [reflexivity|]. simpl.
  unfold has_key. simpl. apply String.eqb_neq in Hne.
  rewrite String.eqb_sym. now rewrite Hne.
Qed.

Lemma keys_snoc chain l : keys_of (chain ++ [l]) = keys_of chain ++ [link_key l].
Proof. unfold keys_of. now rewrite map_app. Qed.

Lemma stored_consistent c1 now k v : consistent c1 -> consistent (store c1 now k v).
Proof.
  intros [Hnd Hord Hlinks]. constructor; simpl.
  - rewrite keys_snoc. simpl. apply NoDup_app.
    + now apply nodup_keys_filter.
    + constructor; [simpl; tauto|constructor].
    + intros a Ha [<-|[]]. apply keys_unlink in Ha. tauto.
  - now apply nodup_move_to_end.
  - intros k'. rewrite in_move_to_end, keys_snoc, in_app_iff, keys_unlink, Hlinks.
    simpl. destruct (String.eqb_spec k' k); intuition congruence.
Qed.

Lemma stored_length c1 now k v :
  in_data k c1 = true \/ currsize c1 + 1 <= maxsize c1 ->
  bounded c1 -> bounded (store c1 now k v).
Proof.
  unfold bounded, currsize, in_data, store. simpl. rewrite length_app. simpl.
  pose proof (length_unlink_le k (root c1)).
  intros [Hin|Hroom] Hb; [|lia].
  destruct (find_link k c1) as [l|] eqn:E; [|discriminate].
  apply length_unlink_lt in E. lia.
Qed.

Lemma stored_valid c1 now k v :
  in_data k c1 = true \/ currsize c1 + 1 <= maxsize c1 ->
  valid now c1 -> valid now (store c1 now k v).
Proof.
  intros Hroom [Hm Hc Hb Hs Ht]. constructor.
  - assumption.
  - now apply stored_consistent.
  - now apply stored_length.
  - simpl. apply sorted_snoc; [now apply sorted_filter|]. simpl.
    apply Forall_forall. intros x Hx. apply filter_In in Hx as [Hx _].
    rewrite Forall_forall in Ht. auto.
  - simpl. apply Forall_app. split.
    + apply Forall_forall. intros x Hx. apply filter_In in Hx as [Hx _].
      rewrite Forall_forall in Ht. auto.
    + constructor; [simpl; lia|constructor].
Qed.

(** Whatever it returns, [setitem] keeps the capacity, the time-to-live,
    the capacity bound and the agreement of the two orders. *)
Lemma setitem_config c now k v :
  maxsize (snd (setitem c now k v)) = maxsize c /\
  ttl (snd (setitem c now k v)) = ttl c.
Proof.
  rewrite setitem_eq. cbv zeta.
  generalize (S (length (root (expire c now)))). intros fuel.
  destruct (expire_shrinks c now) as (Hm & Ht & _).
  destruct (1 >? maxsize (expire c now)); [now split|].
  destruct (in_data k (expire c now)); simpl; [now split|].
  pose proof (make_room_shrinks fuel (expire c now) now) as (Hm' & Ht' & _).
  destruct (make_room _ _ _) as [[e|[]] c1]; simpl in *; split; congruence.
Qed.

Lemma setitem_bounded c now k v : bounded c -> bounded (snd (setitem c now k v)).
Proof.
  intros Hb. rewrite setitem_eq. cbv zeta.
  generalize (S (length (root (expire c now)))). intros fuel.
  pose proof (expire_bounded c now Hb) as Hb0.
  destruct (1 >? maxsize (expire c now)); [assumption|].
  destruct (in_data k (expire c now)) eqn:E; simpl.
  - apply stored_length; auto.
  - pose proof (make_room_shrinks fuel (expire c now) now) as Hsh.
    pose proof (make_room_room fuel (expire c now) now) as Hroom.
    destruct (make_room _ _ _) as [[e|[]] c1]; simpl in *.
    + now apply (shrinks_bounded _ _ Hsh).
    + apply stored_length; [right; now apply Hroom|].
      now apply (shrinks_bounded _ _ Hsh).
Qed.

Lemma setitem_consistent c now k v :
  consistent c -> consistent (snd (setitem c now k v)).
Proof.
  intros Hc. rewrite setitem_eq. cbv zeta.
  generalize (S (length (root (expire c now)))). intros fuel.
  pose proof (expire_consistent c now Hc) as Hc0.
  destruct (1 >? maxsize (expire c now)); [assumption|].
  destruct (in_data k (expire c now)) eqn:E; simpl.
  - now apply stored_consistent.
  - pose proof (make_room_consistent fuel _ now Hc0) as Hc1.
    destruct (make_room _ _ _) as [[e|[]] c1]; simpl in *; [assumption|].
    now apply stored_consistent.
Qed.

Lemma expire_fresh c now : fresh now c -> expire c now = c.
Proof.
  destruct c as [m t order chain]. unfold fresh, expire. simpl.
  intros H. destruct chain as [|l rest]; simpl; [reflexivity|].
  inversion H as [|? ? Hl _]; subst. now rewrite Hl.
Qed.

Lemma popitem_ok clock c now :
  valid clock c -> fresh now c -> root c <> [] ->
  exists kv c', popitem c now = (inr kv, c') /\ fresh now c'.
Proof.
  intros Hv Hf Hne. rewrite popitem_eq, (expire_fresh c now Hf).
  destruct Hv as [_ [Hnd Hord Hlinks] _ _ _].
  destruct (links c) as [|k order] eqn:El.
  - destruct (root c) as [|l rest]; [congruence|].
    exfalso. apply (proj2 (Hlinks (link_key l))). simpl. now left.
  - assert (Hk : In k (keys_of (root c))) by (apply Hlinks; now left).
    destruct (find_link k c) as [l|] eqn:E.
    2:{ apply find_none_keys in E. contradiction. }
    assert (Hl : live now l = true).
    { apply find_has_key in E as [Hin _].
      unfold fresh in Hf. rewrite Forall_forall in Hf. auto. }
    rewrite (pop_live c now k l E Hl). eexists. eexists. split; [reflexivity|].
    unfold fresh in *. simpl. apply Forall_forall. intros x Hx.
    apply filter_In in Hx as [Hx _]. rewrite Forall_forall in Hf. auto.
Qed.

Lemma make_room_ok clock fuel c now :
  valid clock c -> fresh now c -> (length (root c) < fuel)%nat ->
  exists c', make_room fuel c now = (inr tt, c') /\ valid clock c' /\ fresh now c'.
Proof.
  revert c. induction fuel as [|fuel IH]; intros c Hv Hf Hlen; [lia|]. simpl.
  destruct (currsize c + 1 >? maxsize c) eqn:E; [|now exists c].
  assert (Hne : root c <> []).
  { destruct Hv as [Hm _ _ _ _]. unfold currsize in E.
    destruct (root c); [simpl in E; lia|discriminate]. }
  destruct (popitem_ok clock c now Hv Hf Hne) as (kv & c1 & Hp & Hf1).
  pose proof (popitem_valid clock c now Hv) as Hv1.
  pose proof (popitem_strict c now kv c1 Hp) as Hlt.
  rewrite Hp in *. simpl in Hv1. apply IH; [assumption|assumption|lia].
Qed.

(** In a valid cache, at a time that is not before its clock, [setitem]
    succeeds, and the key then holds the value until [now + ttl]. *)
Lemma setitem_ok clock c now k v :
  valid clock c -> clock <= now ->
  exists c', setitem c now k v = (inr tt, c') /\
             valid now c' /\
             find_link k c' = Some (mkLink k v (now + ttl c)) /\
             maxsize c' = maxsize c /\ ttl c' = ttl c.
Proof.
  intros Hv Hle.
  pose proof (setitem_config c now k v) as Hcfg.
  rewrite setitem_eq in *. cbv zeta in *.
  remember (S (length (root (expire c now)))) as fuel eqn:Hfuel.
  pose proof (expire_valid clock c now Hv) as Hv0.
  apply valid_later with (clock' := now) in Hv0; [|assumption].
  assert (Hf0 : fresh now (expire c now)).
  { apply expire_live. now destruct Hv. }
  assert (Hm0 : 1 <= maxsize (expire c now)) by now destruct Hv0.
  assert (Hb0 : bounded (expire c now)) by now destruct Hv0.
  replace (1 >? maxsize (expire c now)) with false in * by lia.
  destruct (in_data k (expire c now)) eqn:E.
  - simpl in *. eexists. split; [reflexivity|]. split; [apply stored_valid; auto|].
    rewrite stored_find_same, expire_ttl. intuition.
  - destruct (make_room_ok now fuel (expire c now) now)
      as (c1 & Hmr & Hv1 & _); [assumption|assumption|lia|].
    pose proof (make_room_room _ _ _ _ Hmr) as Hroom.
    pose proof (make_room_shrinks fuel (expire c now) now) as (_ & Ht1 & _).
    rewrite Hmr in *. simpl in *.
    eexists. split; [reflexivity|]. split; [apply stored_valid; auto|].
    rewrite stored_find_same, Ht1, expire_ttl. intuition.
Qed.

Lemma setitem_valid clock c now k v :
  valid clock c -> clock <= now -> valid now (snd (setitem c now k v)).
Proof.
  intros Hv Hle. destruct (setitem_ok clock c now k v Hv Hle) as (c' & -> & H & _).
  exact H.
Qed.

End Store.

(** ** Running operations *)

Section Monad.

Import LoadEnv.
Local Open Scope loadenv_scope.

Lemma bind_inl {A B} (m : M A) (f : A -> M B) self e self1 ev1 :
  m self = (inl e, self1, ev1) -> bind m f self = (inl e, self1, ev1).
Proof. unfold bind. now intros ->. Qed.

Lemma bind_inr {A B} (m : M A) (f : A -> M B) self a self1 ev1 :
  m self = (inr a, self1, ev1) ->
  bind m f self =
    (fst (fst (f a self1)), snd (fst (f a self1)), ev1 ++ snd (f a self1)).
Proof. unfold bind. intros ->. now destruct (f a self1) as [[r s] ev]. Qed.

Lemma set_cache_same self : set_cache self (_cache self) = self.
Proof. now destruct self. Qed.

Lemma resolve_project_ok project self p :
  py_or project (project_id self) = Some p -> p <> "" ->
  resolve_project project self = (inr p, self, []).
Proof.
  intros Hp Hne. unfold resolve_project, bind, attr. simpl. rewrite Hp.
  apply String.eqb_neq in Hne. now rewrite Hne.
Qed.

Lemma resolve_project_missing project self :
  truthy (py_or project (project_id self)) = false ->
  resolve_project project self = (inl missing_project, self, []).
Proof.
  unfold resolve_project, bind, attr. simpl.
  destruct (py_or project (project_id self)) as [p|]; simpl; [|reflexivity].
  destruct (p =? "")%string; [reflexivity|discriminate].
Qed.

End Monad.

(** ** Missing project *)

(** C3. When neither the [project] argument nor the default of the instance
    gives a project identifier, every operation raises the [ValueError] of
    the missing project with [self] as it was and with no event at all: no
    access to the cache and no interaction with the remote side has taken
    place. *)
Theorem missing_project_fails_closed (w : World) (r : LoadEnv.Request) (self : LoadEnv.t) :
  truthy (py_or (LoadEnv.request_project r) (LoadEnv.project_id self)) = false ->
  LoadEnv.perform w r self = (inl LoadEnv.missing_project, self, []).
Proof.
  intros H.
  pose proof (resolve_project_missing _ _ H) as Hr.
  destruct r; simpl in Hr; unfold LoadEnv.perform, LoadEnv.fmap;
    apply bind_inl;
    [ unfold LoadEnv.get | unfold LoadEnv.get_all | unfold LoadEnv.list_secrets
    | unfold LoadEnv.create_secret | unfold LoadEnv.update_secret
    | unfold LoadEnv.secret_by_name ];
    cbv zeta; apply bind_inl; exact Hr.
Qed.

(** ** Reads served by the cache *)

Section Hit.

Import LoadEnv.

Variables (w : World) (self : LoadEnv.t).
Variables (key : string) (project env path client_id client_secret : option string).

Lemma get_hit p l :
  py_or project (project_id self) = Some p -> p <> "" ->
  let ck := cache_key p (kwarg "dev" env) (kwarg "" path) key in
  TTLCache.find_link ck (_cache self) = Some l ->
  TTLCache.live (now w) l = true ->
  get w key project env path client_id client_secret self =
    (inr (TTLCache.link_value l),
     set_cache self (snd (TTLCache.getitem (_cache self) (now w) ck)),
     [CacheContains ck; CacheGetitem ck]).
Proof.
  intros Hp Hne ck Hf Hl. unfold get. cbv zeta.
  rewrite (bind_inr _ _ _ _ _ _ (resolve_project_ok project self p Hp Hne)).
  unfold bind, cache_contains, cache_getitem, TTLCache.contains. fold ck.
  rewrite Hf, Hl. rewrite (getitem_hit _ _ _ _ Hf Hl). reflexivity.
Qed.

End Hit.

(** C2. A [get] whose cache key is in the cache and not expired returns
    exactly the value of that entry, and its only events are the membership
    test and the read of the cache: the remote side is not touched. *)
Theorem cache_hit_avoids_remote (w : World) (self : LoadEnv.t) (key : string)
    (project env path client_id client_secret : option string) (p : string) :
  py_or project (LoadEnv.project_id self) = Some p -> p <> "" ->
  let k := LoadEnv.cache_key p (LoadEnv.kwarg "dev" env) (LoadEnv.kwarg "" path) key in
  let call := LoadEnv.get w key project env path client_id client_secret in
  TTLCache.contains (LoadEnv._cache self) (now w) k = true ->
  exists l, TTLCache.find_link k (LoadEnv._cache self) = Some l /\
            result_of call self = inr (TTLCache.link_value l) /\
            events_of call self = [CacheContains k; CacheGetitem k] /\
            Forall (fun e => is_remote e = false) (events_of call self).
Proof.
  intros Hp Hne k call Hc.
  apply contains_find in Hc as (l & Hf & Hl). exists l.
  unfold result_of, events_of, call.
  rewrite (get_hit w self key project env path client_id client_secret p l Hp Hne Hf Hl).
  simpl. repeat split; auto.
Qed.

(** ** Rules for composing operations *)

Section Rules.

Import LoadEnv.
Local Open Scope loadenv_scope.

Context {A B : Type}.
Variables (m : M A) (f : A -> M B).

Lemma bind_result self :
  result_of (bind m f) self =
    match result_of m self with
    | inl e => inl e
    | inr a => result_of (f a) (state_after m self)
    end.
Proof.
  unfold result_of, state_after, bind.
  destruct (m self) as [[[e|a] self1] ev1]; simpl; [reflexivity|].
  now destruct (f a self1) as [[r self2] ev2].
Qed.

Lemma bind_state self :
  state_after (bind m f) self =
    match result_of m self with
    | inl e => state_after m self
    | inr a => state_after (f a) (state_after m self)
    end.
Proof.
  unfold result_of, state_after, bind.
  destruct (m self) as [[[e|a] self1] ev1]; simpl; [reflexivity|].
  now destruct (f a self1) as [[r self2] ev2].
Qed.

Lemma bind_events self :
  events_of (bind m f) self =
    match result_of m self with
    | inl e => events_of m self
    | inr a => events_of m self ++ events_of (f a) (state_after m self)
    end.
Proof.
  unfold result_of, state_after, events_of, bind.
  destruct (m self) as [[[e|a] self1] ev1]; simpl; [reflexivity|].
  now destruct (f a self1) as [[r self2] ev2].
Qed.

Lemma keeps_bind P : keeps P m -> (forall a, keeps P (f a)) -> keeps P (bind m f).
Proof.
  intros Hm Hf self HP. rewrite bind_state.
  destruct (Hm self HP) as [HP1 Hs1].
  destruct (result_of m self) as [e|a]; [auto|].
  destruct (Hf a _ HP1) as [HP2 Hs2]. split; [assumption|].
  rewrite Hs2 at 1. rewrite Hs1 at 1. reflexivity.
Qed.

Lemma local_bind : local m -> (forall a, local (f a)) -> local (bind m f).
Proof.
  intros Hm Hf self. unfold local in *. rewrite bind_events.
  destruct (result_of m self) as [e|a]; [auto|].
  apply Forall_app. auto.
Qed.

Lemma readonly_bind : readonly m -> (forall a, readonly (f a)) -> readonly (bind m f).
Proof.
  intros Hm Hf self. rewrite bind_state.
  destruct (result_of m self) as [e|a]; [auto|].
  now rewrite Hm, Hf.
Qed.

Lemma local_no_failure {C} (n : M C) self e :
  local n -> failed_with e (events_of n self) -> False.
Proof.
  intros Hl [[c Hin]|(i & s & Hin)]; specialize (Hl self);
    rewrite Forall_forall in Hl; specialize (Hl _ Hin); discriminate.
Qed.

Lemma failed_with_app e ev1 ev2 :
  failed_with e (ev1 ++ ev2) -> failed_with e ev1 \/ failed_with e ev2.
Proof.
  unfold failed_with. intros [[c Hin]|(i & s & Hin)];
    apply in_app_or in Hin as [Hin|Hin]; eauto 6.
Qed.

(** A failure after a step that changed nothing. *)
Lemma fail_safe_bind :
  readonly m -> fail_safe m -> (forall a, fail_safe (f a)) -> fail_safe (bind m f).
Proof.
  intros Hr Hm Hf self e. rewrite bind_events, bind_result, bind_state.
  destruct (result_of m self) as [e0|a] eqn:E.
  - intros H. destruct (Hm self e H) as [He Hs]. rewrite E in He.
    injection He as ->. auto.
  - intros H. apply failed_with_app in H as [H|H].
    + destruct (Hm self e H) as [He _]. congruence.
    + rewrite Hr in *. now apply (Hf a).
Qed.

(** A failure before the steps that change the cache. *)
Lemma fail_safe_then_local :
  fail_safe m -> (forall a, local (f a)) -> fail_safe (bind m f).
Proof.
  intros Hm Hf self e. rewrite bind_events, bind_result, bind_state.
  destruct (result_of m self) as [e0|a] eqn:E.
  - intros H. destruct (Hm self e H) as [He Hs]. rewrite E in He.
    injection He as ->. auto.
  - intros H. apply failed_with_app in H as [H|H].
    + destruct (Hm self e H) as [He _]. congruence.
    + exfalso. eapply local_no_failure; [apply Hf|exact H].
Qed.


End Rules.

(** ** Rules for the primitive steps *)

Section Primitives.

Import LoadEnv.
Local Open Scope loadenv_scope.

Variable w : World.

Lemma local_fail_safe {A} (m : M A) : local m -> fail_safe m.
Proof. intros Hl self e H. exfalso. eapply local_no_failure; eauto. Qed.

(** Steps that neither change [self] nor do anything. *)
Lemma ret_readonly {A} (a : A) : readonly (ret a).
Proof. now intros self. Qed.

Lemma ret_local {A} (a : A) : local (ret a).
Proof. intros self. constructor. Qed.

Lemma ret_keeps P {A} (a : A) : keeps P (ret a).
Proof. intros self HP. split; [assumption|]. symmetry. apply set_cache_same. Qed.


Lemma raise_readonly {A} e : readonly (@raise A e).
Proof. now intros self. Qed.

Lemma raise_local {A} e : local (@raise A e).
Proof. intros self. constructor. Qed.

Lemma raise_keeps P {A} e : keeps P (@raise A e).
Proof. intros self HP. split; [assumption|]. symmetry. apply set_cache_same. Qed.


Lemma attr_readonly {A} (field : t -> A) : readonly (attr field).
Proof. now intros self. Qed.

Lemma attr_local {A} (field : t -> A) : local (attr field).
Proof. intros self. constructor. Qed.

Lemma attr_keeps P {A} (field : t -> A) : keeps P (attr field).
Proof. intros self HP. split; [assumption|]. symmetry. apply set_cache_same. Qed.


(** The remote steps. *)
Lemma remote_readonly {A} c (answer : Exception + A) : readonly (remote c answer).
Proof. now intros self. Qed.

Lemma remote_keeps P {A} c (answer : Exception + A) : keeps P (remote c answer).
Proof. intros self HP. split; [assumption|]. symmetry. apply set_cache_same. Qed.

Lemma remote_fail_safe {A} c (answer : Exception + A) : fail_safe (remote c answer).
Proof.
  intros self e [[c' Hin]|(i & s & Hin)]; simpl in Hin;
    destruct Hin as [Hin|[]]; [|discriminate].
  injection Hin as _ Hr. destruct answer; [|discriminate].
  injection Hr as ->. now split.
Qed.


Lemma new_client_readonly i s : readonly (new_client w i s).
Proof. now intros self. Qed.

Lemma new_client_keeps P i s : keeps P (new_client w i s).
Proof. intros self HP. split; [assumption|]. symmetry. apply set_cache_same. Qed.

Lemma new_client_fail_safe i s : fail_safe (new_client w i s).
Proof.
  intros self e [[c' Hin]|(i' & s' & Hin)]; simpl in Hin;
    destruct Hin as [Hin|[]]; [discriminate|].
  injection Hin as _ _ Hr. unfold result_of, state_after, new_client. simpl.
  destruct (_SDK w i s); [|discriminate].
  injection Hr as ->. now split.
Qed.


(** The steps on the cache. *)
Lemma cache_contains_readonly k : readonly (cache_contains w k).
Proof. now intros self. Qed.

Lemma cache_contains_local k : local (cache_contains w k).
Proof. intros self. repeat constructor. Qed.

Lemma cache_contains_keeps P k : keeps P (cache_contains w k).
Proof. intros self HP. split; [assumption|]. symmetry. apply set_cache_same. Qed.


Lemma cache_keys_readonly : readonly (cache_keys w).
Proof. now intros self. Qed.

Lemma cache_keys_local : local (cache_keys w).
Proof. intros self. repeat constructor. Qed.

Lemma cache_keys_keeps P : keeps P (cache_keys w).
Proof. intros self HP. split; [assumption|]. symmetry. apply set_cache_same. Qed.


Lemma cache_getitem_local k : local (cache_getitem w k).
Proof.
  intros self. unfold events_of, cache_getitem.
  destruct (TTLCache.getitem _ _ _). repeat constructor.
Qed.

Lemma cache_getitem_state k self :
  state_after (cache_getitem w k) self =
    set_cache self (snd (TTLCache.getitem (_cache self) (now w) k)).
Proof.
  unfold state_after, cache_getitem. now destruct (TTLCache.getitem _ _ _).
Qed.


Lemma cache_setitem_local k v : local (cache_setitem w k v).
Proof.
  intros self. unfold events_of, cache_setitem.
  destruct (TTLCache.setitem _ _ _ _). repeat constructor.
Qed.

Lemma cache_setitem_state k v self :
  state_after (cache_setitem w k v) self =
    set_cache self (snd (TTLCache.setitem (_cache self) (now w) k v)).
Proof.
  unfold state_after, cache_setitem. now destruct (TTLCache.setitem _ _ _ _).
Qed.


Lemma cache_delitem_local k : local (cache_delitem w k).
Proof.
  intros self. unfold events_of, cache_delitem.
  destruct (TTLCache.delitem _ _ _). repeat constructor.
Qed.

Lemma cache_delitem_state k self :
  state_after (cache_delitem w k) self =
    set_cache self (snd (TTLCache.delitem (_cache self) (now w) k)).
Proof.
  unfold state_after, cache_delitem. now destruct (TTLCache.delitem _ _ _).
Qed.


(** Loops. *)
Lemma for_each_local {A} (l : list A) body :
  (forall x, local (body x)) -> local (for_each l body).
Proof.
  intros H. induction l as [|x l IH]; simpl; [apply ret_local|].
  apply local_bind; auto.
Qed.

Lemma for_each_keeps P {A} (l : list A) body :
  (forall x, keeps P (body x)) -> keeps P (for_each l body).
Proof.
  intros H. induction l as [|x l IH]; simpl; [apply ret_keeps|].
  apply keeps_bind; auto.
Qed.


(** Properties of the cache that its three mutating operations keep at
    the time of the world are kept by the steps of the facade. *)
Section Keeps.

Variable P : TTLCache.t -> Prop.
Hypothesis P_getitem : forall c k, P c -> P (snd (TTLCache.getitem c (now w) k)).
Hypothesis P_setitem : forall c k v, P c -> P (snd (TTLCache.setitem c (now w) k v)).
Hypothesis P_delitem : forall c k, P c -> P (snd (TTLCache.delitem c (now w) k)).

Lemma cache_getitem_keeps k : keeps P (cache_getitem w k).
Proof. intros self HP. rewrite cache_getitem_state. simpl. auto. Qed.

Lemma cache_setitem_keeps k v : keeps P (cache_setitem w k v).
Proof. intros self HP. rewrite cache_setitem_state. simpl. auto. Qed.

Lemma cache_delitem_keeps k : keeps P (cache_delitem w k).
Proof. intros self HP. rewrite cache_delitem_state. simpl. auto. Qed.

End Keeps.

End Primitives.

(** ** What every operation keeps *)

Ltac unfold_operations :=
  unfold LoadEnv.perform, LoadEnv.fmap, LoadEnv.get, LoadEnv.get_all,
    LoadEnv.list_secrets, LoadEnv.create_secret, LoadEnv.update_secret,
    LoadEnv.secret_by_name, LoadEnv.invalidate, LoadEnv.resolve_project;
  cbv zeta.

Ltac split_branches :=
  match goal with
  | |- context [if ?b then _ else _] => destruct b
  | |- context [match ?x with Some _ => _ | None => _ end] => destruct x
  end.

Section Operations.

Variable w : World.

Section Keeps.

Variable P : TTLCache.t -> Prop.
Hypothesis P_getitem : forall c k, P c -> P (snd (TTLCache.getitem c (now w) k)).
Hypothesis P_setitem : forall c k v, P c -> P (snd (TTLCache.setitem c (now w) k v)).
Hypothesis P_delitem : forall c k, P c -> P (snd (TTLCache.delitem c (now w) k)).

Lemma perform_keeps r : keeps P (LoadEnv.perform w r).
Proof.
  destruct r; unfold_operations;
    repeat first
      [ apply keeps_bind; [|intros ?]
      | apply ret_keeps | apply raise_keeps | apply attr_keeps
      | apply remote_keeps | apply new_client_keeps
      | apply cache_contains_keeps | apply cache_keys_keeps
      | apply cache_getitem_keeps; assumption
      | apply cache_setitem_keeps; assumption
      | apply cache_delitem_keeps; assumption
      | apply for_each_keeps; intros ?
      | split_branches ].
Qed.

End Keeps.

Lemma invalidate_local p env path : local (LoadEnv.invalidate w p env path).
Proof.
  unfold LoadEnv.invalidate.
  repeat first
    [ apply local_bind; [|intros ?]
    | apply attr_local | apply cache_keys_local | apply cache_delitem_local
    | apply for_each_local; intros ? ].
Qed.

Lemma resolve_project_readonly project : readonly (LoadEnv.resolve_project project).
Proof.
  unfold LoadEnv.resolve_project.
  apply readonly_bind; [apply attr_readonly|intros default].
  repeat split_branches; auto using raise_readonly, ret_readonly.
Qed.

Lemma resolve_project_local project : local (LoadEnv.resolve_project project).
Proof.
  unfold LoadEnv.resolve_project.
  apply local_bind; [apply attr_local|intros default].
  repeat split_branches; auto using raise_local, ret_local.
Qed.

Lemma perform_fail_safe r : fail_safe (LoadEnv.perform w r).
Proof.
  destruct r; unfold LoadEnv.perform, LoadEnv.fmap, LoadEnv.get, LoadEnv.get_all,
    LoadEnv.list_secrets, LoadEnv.create_secret, LoadEnv.update_secret,
    LoadEnv.secret_by_name; cbv zeta.
  all: apply fail_safe_then_local; [|intros ?; apply ret_local].
  all: apply fail_safe_bind;
    [apply resolve_project_readonly
    |apply local_fail_safe, resolve_project_local|intros project_id].
  - (* get *)
    apply fail_safe_bind;
      [apply cache_contains_readonly
      |apply local_fail_safe, cache_contains_local|intros hit].
    destruct hit; [apply local_fail_safe, cache_getitem_local|].
    apply fail_safe_bind.
    + destruct (truthy client_id || truthy client_secret).
      * repeat (apply readonly_bind; [apply attr_readonly|intros ?]).
        apply new_client_readonly.
      * apply ret_readonly.
    + destruct (truthy client_id || truthy client_secret).
      * repeat (apply fail_safe_bind;
                [apply attr_readonly|apply local_fail_safe, attr_local|intros ?]).
        apply new_client_fail_safe.
      * apply local_fail_safe, ret_local.
    + intros sdk.
      apply fail_safe_bind;
        [apply attr_readonly|apply local_fail_safe, attr_local|intros default_path].
      apply fail_safe_then_local; [apply remote_fail_safe|intros secret].
      destruct (SDK.secret_value secret); [|apply raise_local].
      apply local_bind; [apply cache_setitem_local|intros ?; apply ret_local].
  - (* get_all *)
    apply fail_safe_bind;
      [apply attr_readonly|apply local_fail_safe, attr_local|intros default_path].
    apply fail_safe_then_local; [apply remote_fail_safe|intros ?; apply ret_local].
  - (* list_secrets *)
    apply fail_safe_bind;
      [apply attr_readonly|apply local_fail_safe, attr_local|intros default_path].
    apply remote_fail_safe.
  - (* create_secret *)
    apply fail_safe_bind;
      [apply attr_readonly|apply local_fail_safe, attr_local|intros default_path].
    apply fail_safe_then_local; [apply remote_fail_safe|intros result].
    apply local_bind; [apply invalidate_local|intros ?; apply ret_local].
  - (* update_secret *)
    apply fail_safe_bind;
      [apply attr_readonly|apply local_fail_safe, attr_local|intros default_path].
    apply fail_safe_then_local; [apply remote_fail_safe|intros ?].
    apply invalidate_local.
  - (* secret_by_name *)
    apply fail_safe_bind;
      [apply attr_readonly|apply local_fail_safe, attr_local|intros default_path].
    apply remote_fail_safe.
Qed.


End Operations.

(** ** Reads that reach the remote side *)

Section Miss.

Import LoadEnv.

Variables (w : World) (self : LoadEnv.t).
Variables (key : string) (project env path client_id client_secret : option string).
Variable p : string.
Hypothesis project_resolved : py_or project (project_id self) = Some p.
Hypothesis project_not_empty : p <> "".

(** What [get] does after a miss. *)
Lemma get_miss :
  let ck := cache_key p (kwarg "dev" env) (kwarg "" path) key in
  let args := fetch_args self key p env path in
  TTLCache.contains (_cache self) (now w) ck = false ->
  get w key project env path client_id client_secret self =
    match pick_client w self client_id client_secret with
    | (inl e, ev) => (inl e, self, CacheContains ck :: ev)
    | (inr sdk, ev) =>
        match SDK.fetch sdk args with
        | inl e => (inl e, self, CacheContains ck :: ev ++ [RemoteCall (SDK.Get args) (Some e)])
        | inr secret =>
            match SDK.secret_value secret with
            | None => (inl (AttributeError "secret_value"), self,
                       CacheContains ck :: ev ++ [RemoteCall (SDK.Get args) None])
            | Some s =>
                let v := mkSecretStr s in
                let r := TTLCache.setitem (_cache self) (now w) ck v in
                (match fst r with inl e => inl e | inr _ => inr v end,
                 set_cache self (snd r),
                 CacheContains ck :: ev ++ [RemoteCall (SDK.Get args) None; CacheSetitem ck v])
            end
        end
    end.
Proof.
  intros ck args Hmiss. unfold get. cbv zeta.
  rewrite (bind_inr _ _ _ _ _ _
             (resolve_project_ok project self p project_resolved project_not_empty)).
  fold ck. unfold pick_client, bind, cache_contains, attr, new_client, remote, ret,
    raise, cache_setitem. simpl. rewrite Hmiss.
  subst args. unfold fetch_args. simpl.
  destruct (truthy client_id || truthy client_secret); simpl.
  - destruct (_SDK w _ _) as [e|sdk]; simpl; [reflexivity|].
    match goal with |- context [SDK.fetch ?c ?a] => destruct (SDK.fetch c a) as [e|secret] end;
      simpl; [reflexivity|].
    destruct (SDK.secret_value secret) as [s|]; simpl; [|reflexivity].
    destruct (TTLCache.setitem _ _ _ _) as [[e|[]] c']; reflexivity.
  - match goal with |- context [SDK.fetch ?c ?a] => destruct (SDK.fetch c a) as [e|secret] end;
      simpl; [reflexivity|].
    destruct (SDK.secret_value secret) as [s|]; simpl; [|reflexivity].
    destruct (TTLCache.setitem _ _ _ _) as [[e|[]] c']; reflexivity.
Qed.

(** After a miss the remote side is always involved. *)
Lemma get_miss_remote :
  TTLCache.contains (_cache self) (now w)
    (cache_key p (kwarg "dev" env) (kwarg "" path) key) = false ->
  exists e, In e (events_of (get w key project env path client_id client_secret) self)
            /\ is_remote e = true.
Proof.
  intros Hmiss. unfold events_of. rewrite (get_miss Hmiss).
  unfold pick_client.
  destruct (truthy client_id || truthy client_secret).
  - destruct (_SDK w _ _) as [e|sdk];
      [|destruct (SDK.fetch sdk _); [|destruct (SDK.secret_value _)]];
      simpl; eexists; (split; [right; left; reflexivity|reflexivity]).
  - destruct (SDK.fetch (client w) _) as [e|secret];
      [|destruct (SDK.secret_value secret)];
      simpl; eexists; (split; [right; left; reflexivity|reflexivity]).
Qed.

(** A miss that returns a value has stored it. *)
Lemma get_miss_stored v :
  let ck := cache_key p (kwarg "dev" env) (kwarg "" path) key in
  let call := get w key project env path client_id client_secret in
  TTLCache.contains (_cache self) (now w) ck = false ->
  result_of call self = inr v ->
  exists c', TTLCache.setitem (_cache self) (now w) ck v = (inr tt, c') /\
             state_after call self = set_cache self c' /\
             In (CacheSetitem ck v) (events_of call self).
Proof.
  intros ck call Hmiss. unfold result_of, state_after, events_of, call.
  rewrite (get_miss Hmiss). fold ck.
  destruct (pick_client w self client_id client_secret) as [[e|sdk] ev];
    simpl; [discriminate|].
  destruct (SDK.fetch sdk _) as [e|secret]; simpl; [discriminate|].
  destruct (SDK.secret_value secret) as [s|]; simpl; [|discriminate].
  destruct (TTLCache.setitem _ _ _ _) as [[e|[]] c'] eqn:E; simpl; [discriminate|].
  intros [= <-]. exists c'. split; [assumption|]. split; [reflexivity|].
  right. apply in_or_app. right. simpl. auto.
Qed.

End Miss.

(** ** Invalidation *)

Section Invalidate.

Import LoadEnv.
Local Open Scope loadenv_scope.

Variable w : World.

Lemma keys_contains c k :
  NoDup (keys_of (TTLCache.root c)) ->
  In k (TTLCache.keys c (now w)) <-> TTLCache.contains c (now w) k = true.
Proof.
  intros Hnd. unfold TTLCache.keys. rewrite in_map_iff, contains_find. split.
  - intros (l & Hk & Hin). apply filter_In in Hin as [Hin Hl].
    exists l. split; [|assumption]. now apply find_unique.
  - intros (l & Hf & Hl). apply find_has_key in Hf as [Hin Hk].
    exists l. split; [assumption|]. apply filter_In. now split.
Qed.

Lemma keys_nodup c : NoDup (keys_of (TTLCache.root c)) -> NoDup (TTLCache.keys c (now w)).
Proof. intros H. now apply (nodup_keys_filter (TTLCache.live (now w))) in H. Qed.

(** Deleting a list of distinct live keys, one after the other. *)
Lemma delete_all ks : forall self,
  consistent (_cache self) -> NoDup ks ->
  (forall k, In k ks -> TTLCache.contains (_cache self) (now w) k = true) ->
  exists c',
    for_each ks (cache_delitem w) self = (inr tt, set_cache self c', map CacheDelitem ks) /\
    consistent c' /\ shrinks (_cache self) c' /\
    (forall clock, valid clock (_cache self) -> valid clock c') /\
    (forall k, In k ks -> TTLCache.find_link k c' = None) /\
    (forall k, ~ In k ks -> TTLCache.find_link k c' = TTLCache.find_link k (_cache self)).
Proof.
  induction ks as [|k1 ks IH]; intros self Hc Hnd Hlive.
  - exists (_cache self). simpl. unfold ret. rewrite set_cache_same.
    split; [reflexivity|]. split; [assumption|]. split; [apply shrinks_refl|].
    split; [auto|]. split; [intros k []|auto].
  - inversion Hnd as [|? ? Hnotin Hnd']; subst.
    destruct (proj1 (contains_find _ _ _) (Hlive k1 (or_introl eq_refl)))
      as (l & Hf & Hl).
    pose proof (delitem_live _ _ _ _ Hf Hl) as Hdel.
    set (c1 := TTLCache.mk (TTLCache.maxsize (_cache self)) (TTLCache.ttl (_cache self))
                 (TTLCache.forget k1 (TTLCache.links (_cache self)))
                 (TTLCache.unlink k1 (TTLCache.root (_cache self)))) in *.
    assert (Hother : forall k, k <> k1 ->
              TTLCache.find_link k c1 = TTLCache.find_link k (_cache self)).
    { intros k Hne. unfold TTLCache.find_link, c1. simpl.
      now apply find_unlink_other. }
    destruct (IH (set_cache self c1)) as (c' & Hrun & Hc' & Hsh & Hv & Hin & Hout).
    + simpl. now apply removed_consistent.
    + assumption.
    + intros k Hk. simpl. unfold TTLCache.contains. rewrite Hother.
      * apply Hlive. now right.
      * intros ->. contradiction.
    + exists c'. split; [|split; [assumption|split; [|split; [|split]]]].
      * simpl. unfold bind, cache_delitem at 1. rewrite Hdel. fold c1.
        now rewrite Hrun.
      * eapply shrinks_trans; [|exact Hsh]. simpl.
        pose proof (length_unlink_le k1 (TTLCache.root (_cache self))).
        unfold shrinks, c1. simpl. auto.
      * intros clock Hvc. apply Hv. simpl. now apply removed_valid.
      * intros k [<-|Hk]; [|auto].
        rewrite Hout by assumption. simpl.
        unfold TTLCache.find_link, c1. simpl. apply find_unlink_same.
      * intros k Hk. simpl in Hk. rewrite Hout by tauto. simpl.
        apply Hother. intros ->. tauto.
Qed.

(** One pass of the invalidation: every live key with the prefix goes,
    every other entry stays as it is. *)
Lemma invalidate_pass prefix self :
  consistent (_cache self) ->
  exists c' ev,
    (ks <- cache_keys w ;;
     for_each (filter (fun k => startswith k prefix) ks) (cache_delitem w)) self =
      (inr tt, set_cache self c', ev) /\
    consistent c' /\ shrinks (_cache self) c' /\
    (forall clock, valid clock (_cache self) -> valid clock c') /\
    (forall k, TTLCache.find_link k c' =
               if TTLCache.contains (_cache self) (now w) k && startswith k prefix
               then None else TTLCache.find_link k (_cache self)).
Proof.
  intros Hc. pose proof (consistent_nodup _ Hc) as Hnd.
  set (ks := filter (fun k => startswith k prefix)
               (TTLCache.keys (_cache self) (now w))).
  assert (Hks : forall k, In k ks <->
            TTLCache.contains (_cache self) (now w) k && startswith k prefix = true).
  { intros k. unfold ks. rewrite filter_In, keys_contains, andb_true_iff; tauto. }
  destruct (delete_all ks self Hc) as (c' & Hrun & Hc' & Hsh & Hv & Hin & Hout).
  - unfold ks. apply NoDup_filter. now apply keys_nodup.
  - intros k Hk. apply Hks in Hk. now apply andb_true_iff in Hk.
  - exists c', (CacheKeys :: map CacheDelitem ks).
    split; [|split; [assumption|split; [assumption|split; [assumption|]]]].
    + unfold bind, cache_keys at 1. fold ks. now rewrite Hrun.
    + intros k.
      destruct (TTLCache.contains (_cache self) (now w) k && startswith k prefix) eqn:E.
      * apply Hin, Hks, E.
      * apply Hout. rewrite Hks, E. discriminate.
Qed.

(** The whole invalidation (lines 299-306 and 372-379). *)
Lemma invalidate_spec project_id env path self :
  consistent (_cache self) ->
  let prefix1 := _key project_id env (or_str path (secret_path self)) in
  let prefix2 := _key project_id env "" in
  exists c' ev,
    invalidate w project_id env path self = (inr tt, set_cache self c', ev) /\
    consistent c' /\ shrinks (_cache self) c' /\
    (forall clock, valid clock (_cache self) -> valid clock c') /\
    (forall k, TTLCache.find_link k c' =
               if TTLCache.contains (_cache self) (now w) k &&
                  (startswith k prefix1 || startswith k prefix2)
               then None else TTLCache.find_link k (_cache self)).
Proof.
  intros Hc prefix1 prefix2.
  destruct (invalidate_pass prefix1 self Hc) as (c1 & ev1 & Hrun1 & Hc1 & Hsh1 & Hv1 & Hf1).
  destruct (invalidate_pass prefix2 (set_cache self c1) Hc1)
    as (c2 & ev2 & Hrun2 & Hc2 & Hsh2 & Hv2 & Hf2).
  simpl in *.
  exists c2, (ev1 ++ ev2 ++ []).
  split; [|split; [assumption|split; [|split]]].
  - unfold invalidate. unfold bind at 1, attr at 1.
    cbn [for_each fst snd]. cbv beta. fold prefix1. fold prefix2.
    rewrite (bind_inr _ _ _ _ _ _ Hrun1).
    rewrite (bind_inr _ _ _ _ _ _ Hrun2). reflexivity.
  - eapply shrinks_trans; eassumption.
  - auto.
  - intros k. rewrite Hf2. unfold TTLCache.contains at 1. rewrite !Hf1.
    unfold TTLCache.contains.
    destruct (TTLCache.find_link k (_cache self)) as [l|];
      [destruct (TTLCache.live (now w) l) eqn:El|];
      destruct (startswith k prefix1); destruct (startswith k prefix2);
      simpl; rewrite ?El; reflexivity.
Qed.

End Invalidate.

(** ** Keys of different scopes *)

Lemma startswith_scope (a b x y : string) :
  no_delimiter a = true -> no_delimiter b = true ->
  startswith (a ++ ":" ++ x)%string (b ++ ":" ++ y)%string = true ->
  a = b /\ startswith x y = true.
Proof.
  revert b. induction a as [|c a IH]; intros [|d b] Ha Hb H;
    cbn [startswith no_delimiter append] in *.
  - apply andb_true_iff in H as [_ H]. auto.
  - apply andb_true_iff in Hb as [Hd _]. apply andb_true_iff in H as [H _].
    apply Ascii.eqb_eq in H. subst d. now rewrite Ascii.eqb_refl in Hd.
  - apply andb_true_iff in Ha as [Hc _]. apply andb_true_iff in H as [H _].
    apply Ascii.eqb_eq in H. subst c. now rewrite Ascii.eqb_refl in Hc.
  - apply andb_true_iff in Ha as [_ Ha]. apply andb_true_iff in Hb as [_ Hb].
    apply andb_true_iff in H as [Hdc H]. apply Ascii.eqb_eq in Hdc. subst d.
    destruct (IH b Ha Hb H) as [-> Hxy]. auto.
Qed.

(** With no delimiter inside the project and the environment, a key starts
    with the prefix of a scope only if it is a key of that project and that
    environment. *)
Lemma key_of_other_scope (p env p' env' path' name : string) :
  no_delimiter p = true -> no_delimiter env = true ->
  no_delimiter p' = true -> no_delimiter env' = true ->
  startswith (LoadEnv.cache_key p' env' path' name) (LoadEnv._key p env "") = true ->
  p' = p /\ env' = env.
Proof.
  intros Hp He Hp' He' H. unfold LoadEnv.cache_key, LoadEnv._key in H.
  rewrite !append_assoc in H.
  apply startswith_scope in H as [-> H]; [|assumption|assumption].
  apply startswith_scope in H as [-> _]; auto.
Qed.

Lemma key_in_scope (p env path name : string) :
  startswith (LoadEnv.cache_key p env path name) (LoadEnv._key p env "") = true.
Proof.
  unfold LoadEnv.cache_key, LoadEnv._key.
  replace ((p ++ ":" ++ env ++ ":" ++ path) ++ ":" ++ name)%string
    with ((p ++ ":" ++ env ++ ":" ++ "") ++ path ++ ":" ++ name)%string.
  - apply startswith_append.
  - now rewrite !append_assoc.
Qed.

Lemma contains_later c now t k :
  TTLCache.contains c now k = false -> now <= t -> TTLCache.contains c t k = false.
Proof.
  unfold TTLCache.contains, TTLCache.live.
  destruct (TTLCache.find_link k c) as [l|]; [|reflexivity].
  intros H Hle. apply Z.ltb_ge in H. apply Z.ltb_ge. lia.
Qed.

(** ** Writes *)

Section Writes.

Import LoadEnv.

Variables (w : World) (self : LoadEnv.t) (p : string).

(** A write that returns has run the invalidation of its scope on the
    [self] it started from. *)
Lemma write_invalidates r v :
  is_write r = true ->
  py_or (request_project r) (project_id self) = Some p -> p <> "" ->
  result_of (perform w r) self = inr v ->
  state_after (perform w r) self =
    state_after (invalidate w p (kwarg "dev" (request_env r)) (request_path r)) self.
Proof.
  intros Hw Hp Hne.
  pose proof (resolve_project_ok _ _ _ Hp Hne) as Hr.
  destruct r; try discriminate; simpl in Hr |- *;
    unfold result_of, state_after, perform, fmap;
    [unfold create_secret|unfold update_secret]; cbv zeta;
    unfold bind; rewrite Hr; unfold attr, remote, ret.
  - destruct (SDK.create (client w) _) as [e|d]; simpl; [discriminate|].
    destruct (invalidate w p _ _ self) as [[[e|[]] s'] ev]; simpl;
      [discriminate|reflexivity].
  - destruct (SDK.update (client w) _) as [e|[]]; simpl; [discriminate|].
    destruct (invalidate w p _ _ self) as [[[e|[]] s'] ev]; simpl;
      [discriminate|reflexivity].
Qed.

End Writes.

(** C1, as the code has it.  After a successful [create_secret] or
    [update_secret] for project [p], environment [env] and a path, at any
    later time no cache key that starts with the prefix of the scope of the
    resolved path, or with the prefix of the scope of the empty path, is in
    the cache; every entry whose key starts with neither prefix is as it was.
    The second prefix, [p:env:], starts every key of the project and the
    environment, so the entries of all their paths are gone; the entries of
    another project or environment are untouched when no project or
    environment contains the delimiter. *)
Theorem invalidation_scope (w : World) (r : LoadEnv.Request) (self : LoadEnv.t)
    (p : string) (v : LoadEnv.Value) :
  is_write r = true ->
  consistent (LoadEnv._cache self) ->
  py_or (LoadEnv.request_project r) (LoadEnv.project_id self) = Some p -> p <> "" ->
  result_of (LoadEnv.perform w r) self = inr v ->
  let env := LoadEnv.kwarg "dev" (LoadEnv.request_env r) in
  let prefix1 := LoadEnv._key p env (resolved_path self r) in
  let prefix2 := LoadEnv._key p env "" in
  let before := LoadEnv._cache self in
  let after := LoadEnv._cache (state_after (LoadEnv.perform w r) self) in
  (forall k t, startswith k prefix1 = true \/ startswith k prefix2 = true ->
               now w <= t -> TTLCache.contains after t k = false) /\
  (forall k, startswith k prefix1 = false -> startswith k prefix2 = false ->
             TTLCache.find_link k after = TTLCache.find_link k before) /\
  (forall path name t, now w <= t ->
             TTLCache.contains after t (LoadEnv.cache_key p env path name) = false) /\
  (forall p' env' path name,
     no_delimiter p = true -> no_delimiter env = true ->
     no_delimiter p' = true -> no_delimiter env' = true ->
     (p', env') <> (p, env) ->
     TTLCache.find_link (LoadEnv.cache_key p' env' path name) after =
     TTLCache.find_link (LoadEnv.cache_key p' env' path name) before).
Proof.
  intros Hw Hc Hp Hne Hres env prefix1 prefix2 before after.
  destruct (invalidate_spec w p env (request_path r) self Hc)
    as (c' & ev & Hrun & _ & _ & _ & Hfind).
  assert (Hafter : after = c').
  { unfold after. rewrite (write_invalidates w self p r v Hw Hp Hne Hres).
    fold env. unfold state_after. now rewrite Hrun. }
  unfold resolved_path in prefix1. fold prefix1 prefix2 in Hfind. rewrite Hafter.
  assert (Hgone : forall k t, startswith k prefix1 = true \/ startswith k prefix2 = true ->
                              now w <= t -> TTLCache.contains c' t k = false).
  { intros k t Hk Hle. apply contains_later with (now := now w); [|assumption].
    unfold TTLCache.contains at 1. rewrite Hfind.
    destruct (TTLCache.contains (LoadEnv._cache self) (now w) k) eqn:E; simpl.
    - replace (startswith k prefix1 || startswith k prefix2) with true; [reflexivity|].
      symmetry. apply orb_true_iff. exact Hk.
    - exact E. }
  assert (Hkept : forall k, startswith k prefix2 = false -> startswith k prefix1 = false ->
                            TTLCache.find_link k c' = TTLCache.find_link k before).
  { intros k H2 H1. rewrite Hfind, H1, H2. simpl. now rewrite andb_false_r. }
  split; [exact Hgone|]. split; [auto|]. split.
  - intros path name t Hle. apply Hgone; [|assumption]. right. apply key_in_scope.
  - intros p' env' path name Hdp Hde Hdp' Hde' Hother.
    assert (H2 : startswith (LoadEnv.cache_key p' env' path name) prefix2 = false).
    { destruct (startswith _ prefix2) eqn:E; [|reflexivity].
      apply key_of_other_scope in E as [-> ->]; try assumption. congruence. }
    apply Hkept; [assumption|].
    destruct (startswith _ prefix1) eqn:E; [|reflexivity].
    rewrite <- H2. symmetry. apply startswith_trans with (p := prefix1); [assumption|].
    unfold prefix1, prefix2, LoadEnv._key.
    replace (p ++ ":" ++ env ++ ":" ++ or_str (request_path r) (LoadEnv.secret_path self))%string
      with ((p ++ ":" ++ env ++ ":" ++ "") ++ or_str (request_path r) (LoadEnv.secret_path self))%string.
    + apply startswith_append.
    + now rewrite !append_assoc.
Qed.

Lemma invalidation_scope_witness :
  is_write Example.create_in_app = true /\
  consistent (LoadEnv._cache Example.with_other_path) /\
  py_or (LoadEnv.request_project Example.create_in_app)
        (LoadEnv.project_id Example.with_other_path) = Some "P" /\
  "P" <> "" /\
  result_of (LoadEnv.perform (Example.world 1 (Example.answering "v"))
               Example.create_in_app) Example.with_other_path
    = inr (LoadEnv.VDescriptor [("id", "secret_123")]) /\
  TTLCache.contains
    (LoadEnv._cache
       (state_after (LoadEnv.perform (Example.world 1 (Example.answering "v"))
                       Example.create_in_app) Example.with_other_path))
    2 (LoadEnv.cache_key "P" "dev" "/app" "NEW_SECRET") = false /\
  TTLCache.find_link (LoadEnv.cache_key "Q" "dev" "/app" "NEW_SECRET")
    (LoadEnv._cache
       (state_after (LoadEnv.perform (Example.world 1 (Example.answering "v"))
                       Example.create_in_app) Example.with_other_path))
  = TTLCache.find_link (LoadEnv.cache_key "Q" "dev" "/app" "NEW_SECRET")
      (LoadEnv._cache Example.with_other_path).
Proof.
  assert (H1 : is_write Example.create_in_app = true) by reflexivity.
  assert (H2 : py_or (LoadEnv.request_project Example.create_in_app)
                 (LoadEnv.project_id Example.with_other_path) = Some "P") by reflexivity.
  assert (H3 : "P" <> "") by discriminate.
  assert (H4 : result_of (LoadEnv.perform (Example.world 1 (Example.answering "v"))
                            Example.create_in_app) Example.with_other_path
               = inr (LoadEnv.VDescriptor [("id", "secret_123")])) by reflexivity.
  assert (H5 : consistent (LoadEnv._cache Example.with_other_path)).
  { constructor; vm_compute.
    - constructor; [intros []|constructor].
    - constructor; [intros []|constructor].
    - intros k. split; exact (fun H => H). }
  destruct (invalidation_scope (Example.world 1 (Example.answering "v"))
              Example.create_in_app Example.with_other_path "P"
              (LoadEnv.VDescriptor [("id", "secret_123")])
              H1 H5 H2 H3 H4) as (_ & _ & Hgone & Hother).
  split; [exact H1|]. split; [exact H5|]. split; [exact H2|]. split; [exact H3|].
  split; [exact H4|]. split.
  - apply (Hgone "/app" "NEW_SECRET" 2). simpl. lia.
  - apply (Hother "Q" "dev" "/app" "NEW_SECRET"); try reflexivity. discriminate.
Defined.

(** C1, as the claim states it, fails: [create_secret] for the path ["/app"]
    of project ["P"] in ["dev"] removes the live entry that a [get] with the
    path ["/other"] had cached for the same project and environment. *)
Lemma invalidation_reaches_other_paths :
  let w := Example.world 1 (Example.answering "v") in
  let k := LoadEnv.cache_key "P" "dev" "/other" "NAME" in
  let after := state_after (LoadEnv.perform w Example.create_in_app)
                 Example.with_other_path in
  "/other" <> resolved_path Example.with_other_path Example.create_in_app /\
  result_of (LoadEnv.perform w Example.create_in_app) Example.with_other_path
    = inr (LoadEnv.VDescriptor [("id", "secret_123")]) /\
  TTLCache.contains (LoadEnv._cache Example.with_other_path) (now w) k = true /\
  TTLCache.contains (LoadEnv._cache after) (now w) k = false /\
  TTLCache.find_link k (LoadEnv._cache after) <>
  TTLCache.find_link k (LoadEnv._cache Example.with_other_path).
Proof.
  vm_compute. repeat split; discriminate.
Qed.

(** ** What a store leaves of the rest of the cache *)

Section Within.

Import TTLCache.

Lemma within_refl c : within c c.
Proof. apply incl_refl. Qed.

Lemma within_trans a b c : within a b -> within b c -> within a c.
Proof. unfold within. intros Hab Hbc. eapply incl_tran; eassumption. Qed.

Lemma expire_within c now : within c (expire c now).
Proof.
  destruct (expire_suffix c now) as (d & Hd & _).
  unfold within. rewrite Hd at 1. apply incl_appr, incl_refl.
Qed.

Lemma pop_within c now k : within c (snd (pop c now k)).
Proof.
  destruct (contains c now k) eqn:E.
  - apply contains_find in E as (l & Hf & Hl). rewrite (pop_live c now k l Hf Hl).
    unfold within. simpl. intros x Hx. now apply filter_In in Hx.
  - rewrite pop_dead by assumption. apply within_refl.
Qed.

Lemma popitem_within c now : within c (snd (popitem c now)).
Proof.
  rewrite popitem_snd. pose proof (expire_within c now) as He.
  destruct (links (expire c now)) as [|k ?]; [assumption|].
  eapply within_trans; [exact He|apply pop_within].
Qed.

Lemma make_room_within fuel c now : within c (snd (make_room fuel c now)).
Proof.
  revert c. induction fuel as [|fuel IH]; intros c; simpl.
  - destruct (currsize c + 1 >? maxsize c); apply within_refl.
  - destruct (currsize c + 1 >? maxsize c); [|apply within_refl].
    pose proof (popitem_within c now) as Hp.
    destruct (popitem c now) as [[e|kv] c1]; simpl in *; [assumption|].
    eapply within_trans; [exact Hp|apply IH].
Qed.

Lemma within_absent c c' k :
  within c c' -> find_link k c = None -> find_link k c' = None.
Proof.
  unfold find_link. rewrite !find_none_keys. intros Hw Hn Hin. apply Hn.
  unfold keys_of in *. apply in_map_iff in Hin as (l & Hk & Hin).
  apply in_map_iff. exists l. split; [assumption|]. now apply Hw.
Qed.

(** A successful [setitem] is a [store] into what expiry and eviction
    have left. *)
Lemma setitem_stored c now k v c' :
  setitem c now k v = (inr tt, c') ->
  exists c1, c' = store c1 now k v /\ ttl c1 = ttl c /\ within c c1.
Proof.
  rewrite setitem_eq. cbv zeta.
  generalize (S (length (root (expire c now)))). intros fuel.
  destruct (1 >? maxsize (expire c now)); [discriminate|].
  destruct (in_data k (expire c now)).
  - intros [= <-]. exists (expire c now).
    auto using expire_ttl, expire_within.
  - pose proof (make_room_shrinks fuel (expire c now) now) as (_ & Ht & _).
    pose proof (make_room_within fuel (expire c now) now) as Hw.
    destruct (make_room fuel (expire c now) now) as [[e|[]] c1]; [discriminate|].
    intros [= <-]. exists c1. simpl in *. split; [reflexivity|].
    split; [now rewrite Ht, expire_ttl|].
    eapply within_trans; [apply expire_within|exact Hw].
Qed.

Lemma setitem_find_same c now k v c' :
  setitem c now k v = (inr tt, c') ->
  find_link k c' = Some (mkLink k v (now + ttl c)).
Proof.
  intros H. destruct (setitem_stored _ _ _ _ _ H) as (c1 & -> & Ht & _).
  now rewrite stored_find_same, Ht.
Qed.

Lemma setitem_absent_other c now k v c' k' :
  setitem c now k v = (inr tt, c') -> k' <> k ->
  find_link k' c = None -> find_link k' c' = None.
Proof.
  intros H Hne Hn. destruct (setitem_stored _ _ _ _ _ H) as (c1 & -> & _ & Hw).
  rewrite stored_find_other by assumption. eapply within_absent; eassumption.
Qed.

Lemma len_le_currsize c now : fst (len c now) <= currsize c.
Proof.
  unfold len, currsize. simpl. pose proof (expire_length c now). lia.
Qed.

Lemma insert_all_bounded inserts c :
  bounded c ->
  bounded (insert_all inserts c) /\ maxsize (insert_all inserts c) = maxsize c.
Proof.
  revert c. induction inserts as [|[[t k] v] rest IH]; intros c Hb; simpl; [auto|].
  destruct (IH _ (setitem_bounded c t k v Hb)) as [Hb' Hm].
  split; [assumption|]. rewrite Hm. apply setitem_config.
Qed.

End Within.

(** ** Reachable states *)

Section Reachable.

Import LoadEnv.

Lemma init_cache w environ id secret self :
  __init__ w environ id secret = inr self -> _cache self = TTLCache.empty 100 3600.
Proof.
  unfold __init__. cbv zeta. destruct (_SDK w _ _); [discriminate|].
  now intros [= <-].
Qed.

Lemma empty_consistent m t : consistent (TTLCache.empty m t).
Proof. constructor; simpl; [constructor|constructor|tauto]. Qed.

Lemma empty_valid clock m t : 1 <= m -> valid clock (TTLCache.empty m t).
Proof.
  intros Hm. constructor; simpl.
  - assumption.
  - apply empty_consistent.
  - unfold bounded, TTLCache.currsize. simpl. lia.
  - constructor.
  - constructor.
Qed.

Lemma run_keeps (P : TTLCache.t -> Prop) :
  (forall c now k, P c -> P (snd (TTLCache.getitem c now k))) ->
  (forall c now k v, P c -> P (snd (TTLCache.setitem c now k v))) ->
  (forall c now k, P c -> P (snd (TTLCache.delitem c now k))) ->
  forall steps self, P (_cache self) -> P (_cache (run steps self)).
Proof.
  intros Hg Hs Hd. induction steps as [|[w r] steps IH]; intros self HP; simpl.
  - assumption.
  - apply IH.
    apply (perform_keeps w P (fun c k => Hg c (now w) k)
             (fun c k v => Hs c (now w) k v) (fun c k => Hd c (now w) k) r self HP).
Qed.

(** Along operations whose times never go back, the cache stays valid. *)
Lemma run_valid steps : forall clock self,
  valid clock (_cache self) -> monotone clock steps ->
  valid (last_time clock steps) (_cache (run steps self)).
Proof.
  induction steps as [|[w r] steps IH]; intros clock self Hv Hm; simpl.
  - assumption.
  - destruct Hm as [Hle Hm]. apply IH; [|assumption].
    apply valid_later with (clock' := now w) in Hv; [|assumption].
    apply (perform_keeps w (valid (now w))); try assumption.
    + intros c k. apply getitem_valid.
    + intros c k v Hc. apply setitem_valid with (clock := now w); [assumption|lia].
    + intros c k. apply delitem_valid.
Qed.

Lemma run_consistent steps self :
  consistent (_cache self) -> consistent (_cache (run steps self)).
Proof.
  apply run_keeps.
  - intros c t k. apply getitem_consistent.
  - intros c t k v. apply setitem_consistent.
  - intros c t k. apply delitem_consistent.
Qed.

(** The capacity, the time-to-live and the capacity bound are kept by
    every operation, at whatever times. *)
Lemma run_bounded steps self :
  bounded (_cache self) ->
  bounded (_cache (run steps self)) /\
  TTLCache.maxsize (_cache (run steps self)) = TTLCache.maxsize (_cache self) /\
  TTLCache.ttl (_cache (run steps self)) = TTLCache.ttl (_cache self).
Proof.
  intros Hb.
  apply (run_keeps (fun c => bounded c /\
                             TTLCache.maxsize c = TTLCache.maxsize (_cache self) /\
                             TTLCache.ttl c = TTLCache.ttl (_cache self))); [| | |auto].
  - intros c t k (H & Hm & Ht).
    pose proof (getitem_shrinks c t k) as Hsh.
    split; [now apply (shrinks_bounded _ _ Hsh)|].
    destruct Hsh as (-> & -> & _). auto.
  - intros c t k v (H & Hm & Ht).
    split; [now apply setitem_bounded|].
    destruct (setitem_config c t k v) as (-> & ->). auto.
  - intros c t k (H & Hm & Ht).
    pose proof (delitem_shrinks c t k) as Hsh.
    split; [now apply (shrinks_bounded _ _ Hsh)|].
    destruct Hsh as (-> & -> & _). auto.
Qed.

End Reachable.

(** ** Witnesses of the statements above *)

Lemma missing_project_fails_closed_witness :
  truthy (py_or (LoadEnv.request_project (LoadEnv.GetAll None None None))
                (LoadEnv.project_id Example.load_env)) = false /\
  LoadEnv.perform (Example.world 1 (Example.answering "v"))
    (LoadEnv.GetAll None None None) Example.load_env
  = (inl LoadEnv.missing_project, Example.load_env, []).
Proof.
  split; [reflexivity|].
  apply (missing_project_fails_closed (Example.world 1 (Example.answering "v"))
           (LoadEnv.GetAll None None None) Example.load_env).
  reflexivity.
Defined.

Lemma cache_hit_avoids_remote_witness :
  py_or (Some "test_project") (LoadEnv.project_id Example.seeded) = Some "test_project" /\
  "test_project" <> "" /\
  TTLCache.contains (LoadEnv._cache Example.seeded) 1
    (LoadEnv.cache_key "test_project" "dev" "" "TEST_SECRET") = true /\
  exists l,
    TTLCache.find_link (LoadEnv.cache_key "test_project" "dev" "" "TEST_SECRET")
      (LoadEnv._cache Example.seeded) = Some l /\
    result_of (LoadEnv.get (Example.world 1 (Example.failing "SDK error")) "TEST_SECRET"
                 (Some "test_project") None None None None) Example.seeded
    = inr (TTLCache.link_value l).
Proof.
  assert (H1 : py_or (Some "test_project") (LoadEnv.project_id Example.seeded)
               = Some "test_project") by reflexivity.
  assert (H2 : "test_project" <> "") by discriminate.
  assert (H3 : TTLCache.contains (LoadEnv._cache Example.seeded) 1
                 (LoadEnv.cache_key "test_project" "dev" "" "TEST_SECRET") = true)
    by reflexivity.
  split; [exact H1|]. split; [exact H2|]. split; [exact H3|].
  destruct (cache_hit_avoids_remote (Example.world 1 (Example.failing "SDK error"))
              Example.seeded "TEST_SECRET" (Some "test_project") None None None None
              "test_project" H1 H2 H3) as (l & Hf & Hr & _).
  exists l. split; [exact Hf|exact Hr].
Defined.

(** ** The cache key of the tests *)



(** ** Failures of the remote side *)

(** C5. Whatever the operation, when the remote side raises during it (a
    call fails, or the construction of a client with overridden credentials
    does), the operation raises that very exception and [self], the cache
    included, is as it was before the operation. *)
Theorem remote_failure_leaves_cache (w : World) (r : LoadEnv.Request)
    (self : LoadEnv.t) (e : Exception) :
  failed_with e (events_of (LoadEnv.perform w r) self) ->
  result_of (LoadEnv.perform w r) self = inl e /\
  state_after (LoadEnv.perform w r) self = self /\
  LoadEnv._cache (state_after (LoadEnv.perform w r) self) = LoadEnv._cache self.
Proof.
  intros H. destruct (perform_fail_safe w r self e H) as [Hr Hs].
  split; [assumption|]. split; [assumption|]. now rewrite Hs.
Qed.

Lemma remote_failure_leaves_cache_witness :
  failed_with (RemoteError "SDK error")
    (events_of (LoadEnv.perform (Example.world 1 (Example.failing "SDK error"))
                  Example.create_in_app) Example.with_other_path) /\
  result_of (LoadEnv.perform (Example.world 1 (Example.failing "SDK error"))
               Example.create_in_app) Example.with_other_path
    = inl (RemoteError "SDK error") /\
  LoadEnv._cache
    (state_after (LoadEnv.perform (Example.world 1 (Example.failing "SDK error"))
                    Example.create_in_app) Example.with_other_path)
    = LoadEnv._cache Example.with_other_path.
Proof.
  assert (H : failed_with (RemoteError "SDK error")
                (events_of (LoadEnv.perform (Example.world 1 (Example.failing "SDK error"))
                              Example.create_in_app) Example.with_other_path)).
  { left. eexists. simpl. left. reflexivity. }
  split; [exact H|].
  destruct (remote_failure_leaves_cache (Example.world 1 (Example.failing "SDK error"))
              Example.create_in_app Example.with_other_path (RemoteError "SDK error") H)
    as (Hr & _ & Hc).
  split; [exact Hr|exact Hc].
Defined.

(** ** The default environment *)






(** ** Expiry *)

Lemma stored_keys c1 now k v t :
  In k (TTLCache.keys (TTLCache.store c1 now k v) t) ->
  TTLCache.live t (TTLCache.mkLink k v (now + TTLCache.ttl c1)) = true.
Proof.
  unfold TTLCache.keys, TTLCache.store. simpl. intros H.
  apply in_map_iff in H as (l & Hk & Hin).
  apply filter_In in Hin as [Hin Hl].
  apply in_app_or in Hin as [Hin|[<-|[]]]; [|assumption].
  apply filter_In in Hin as [_ Hin]. apply has_key_eq in Hk.
  now rewrite Hk in Hin.
Qed.

(** An entry stored at time [now] is absent from every read at a time
    [t >= now + ttl]. *)
Lemma setitem_expires c now k v c' t :
  TTLCache.setitem c now k v = (inr tt, c') ->
  now + TTLCache.ttl c <= t ->
  TTLCache.contains c' t k = false /\
  fst (TTLCache.getitem c' t k) = inl (KeyError k) /\
  ~ In k (TTLCache.keys c' t).
Proof.
  intros Hset Hle.
  pose proof (setitem_find_same _ _ _ _ _ Hset) as Hf.
  assert (Hdead : TTLCache.live t (TTLCache.mkLink k v (now + TTLCache.ttl c)) = false).
  { unfold TTLCache.live. simpl. apply Z.ltb_ge. lia. }
  split; [|split].
  - unfold TTLCache.contains. now rewrite Hf.
  - unfold TTLCache.getitem. now rewrite Hf, Hdead.
  - destruct (setitem_stored _ _ _ _ _ Hset) as (c1 & -> & Ht & _).
    intros Hin. apply stored_keys in Hin. rewrite Ht in Hin. congruence.
Qed.

(** ** Credentials and paths *)

Section Fetch.

Import LoadEnv.

Variables (w : World) (self : LoadEnv.t) (clock : Z).
Variables (key : string) (project env path client_id client_secret : option string).
Variables (p : string) (sdk : SDK.Client) (ev : list Event).
Variables (secret : SDK.BaseSecret) (s : string).

Hypothesis cache_valid : valid clock (_cache self).
Hypothesis clock_before : clock <= now w.
Hypothesis project_resolved : py_or project (project_id self) = Some p.
Hypothesis project_not_empty : p <> "".
Hypothesis miss :
  TTLCache.contains (_cache self) (now w)
    (cache_key p (kwarg "dev" env) (kwarg "" path) key) = false.
Hypothesis picked : pick_client w self client_id client_secret = (inr sdk, ev).
Hypothesis fetched : SDK.fetch sdk (fetch_args self key p env path) = inr secret.
Hypothesis has_value : SDK.secret_value secret = Some s.

(** A miss on a valid cache, answered by the remote side: the value is
    returned, and stored under the key that [get] looked up. *)
Lemma get_fetches :
  let k := cache_key p (kwarg "dev" env) (kwarg "" path) key in
  let v := mkSecretStr s in
  exists c',
    TTLCache.setitem (_cache self) (now w) k v = (inr tt, c') /\
    valid (now w) c' /\
    get w key project env path client_id client_secret self =
      (inr v, set_cache self c',
       CacheContains k :: ev ++
         [RemoteCall (SDK.Get (fetch_args self key p env path)) None; CacheSetitem k v]).
Proof.
  intros k v.
  destruct (setitem_ok clock (_cache self) (now w) k v cache_valid clock_before)
    as (c' & Hset & Hv & _).
  exists c'. split; [assumption|]. split; [assumption|].
  rewrite (get_miss w self key project env path client_id client_secret p
             project_resolved project_not_empty miss).
  rewrite picked, fetched, has_value. cbv zeta. fold k. fold v. now rewrite Hset.
Qed.

End Fetch.

(** C9. The credentials of a call are no part of the cache key.  A [get]
    that misses a valid cache, with whatever client it picks (a transient one
    for overridden credentials, [self.client] otherwise), stores the fetched
    value under the key made of project, environment, path and name alone;
    a later [get] of the same secret before the entry expires, with any
    credentials or none, returns that value from the cache without touching
    the remote side. *)
Theorem credentials_not_in_cache_key (w1 w2 : World) (self : LoadEnv.t) (clock : Z)
    (key : string) (project env path : option string)
    (client_id1 client_secret1 client_id2 client_secret2 : option string)
    (p : string) (sdk : SDK.Client) (ev : list Event)
    (secret : SDK.BaseSecret) (s : string) :
  valid clock (LoadEnv._cache self) -> clock <= now w1 ->
  py_or project (LoadEnv.project_id self) = Some p -> p <> "" ->
  let k := LoadEnv.cache_key p (LoadEnv.kwarg "dev" env) (LoadEnv.kwarg "" path) key in
  TTLCache.contains (LoadEnv._cache self) (now w1) k = false ->
  pick_client w1 self client_id1 client_secret1 = (inr sdk, ev) ->
  SDK.fetch sdk (fetch_args self key p env path) = inr secret ->
  SDK.secret_value secret = Some s ->
  now w2 < now w1 + TTLCache.ttl (LoadEnv._cache self) ->
  let first := LoadEnv.get w1 key project env path client_id1 client_secret1 in
  let second := LoadEnv.get w2 key project env path client_id2 client_secret2 in
  let self1 := state_after first self in
  result_of first self = inr (mkSecretStr s) /\
  events_of first self
    = CacheContains k :: ev ++
        [RemoteCall (SDK.Get (fetch_args self key p env path)) None;
         CacheSetitem k (mkSecretStr s)] /\
  result_of second self1 = inr (mkSecretStr s) /\
  events_of second self1 = [CacheContains k; CacheGetitem k].
Proof.
  intros Hv Hclock Hp Hne k Hmiss Hpick Hfetch Hval Hlive first second self1.
  destruct (get_fetches w1 self clock key project env path client_id1 client_secret1
              p sdk ev secret s Hv Hclock Hp Hne Hmiss Hpick Hfetch Hval)
    as (c' & Hset & _ & Hget).
  fold k in Hset, Hget.
  unfold self1, result_of, events_of, state_after, first. rewrite Hget. simpl.
  split; [reflexivity|]. split; [reflexivity|].
  pose proof (setitem_find_same _ _ _ _ _ Hset) as Hfind.
  assert (Hl : TTLCache.live (now w2)
                 (TTLCache.mkLink k (mkSecretStr s)
                    (now w1 + TTLCache.ttl (LoadEnv._cache self))) = true).
  { unfold TTLCache.live. simpl. now apply Z.ltb_lt. }
  unfold second.
  rewrite (get_hit w2 (LoadEnv.set_cache self c') key project env path client_id2
             client_secret2 p _ Hp Hne Hfind Hl).
  split; reflexivity.
Qed.

Lemma credentials_not_in_cache_key_witness :
  let w1 := Example.world 1 (Example.answering "override_value") in
  let w2 := Example.world 2 (Example.failing "SDK error") in
  let first := LoadEnv.get w1 "TEST_SECRET" (Some "test_project") None None
                 (Some "override_id") (Some "override_secret") in
  let second := LoadEnv.get w2 "TEST_SECRET" (Some "test_project") None None None None in
  valid 0 (LoadEnv._cache Example.load_env) /\
  pick_client w1 Example.load_env (Some "override_id") (Some "override_secret")
    = (inr (Example.answering "override_value"),
       [NewClient "override_id" "override_secret" None]) /\
  result_of first Example.load_env = inr (mkSecretStr "override_value") /\
  result_of second (state_after first Example.load_env)
    = inr (mkSecretStr "override_value") /\
  events_of second (state_after first Example.load_env)
    = [CacheContains "test_project:dev::TEST_SECRET";
       CacheGetitem "test_project:dev::TEST_SECRET"].
Proof.
  intros w1 w2 first second.
  assert (H1 : valid 0 (LoadEnv._cache Example.load_env)).
  { apply empty_valid. lia. }
  assert (H2 : 0 <= now w1) by (simpl; lia).
  assert (H3 : py_or (Some "test_project") (LoadEnv.project_id Example.load_env)
               = Some "test_project") by reflexivity.
  assert (H4 : "test_project" <> "") by discriminate.
  assert (H5 : TTLCache.contains (LoadEnv._cache Example.load_env) (now w1)
                 (LoadEnv.cache_key "test_project" (LoadEnv.kwarg "dev" None)
                    (LoadEnv.kwarg "" None) "TEST_SECRET") = false) by reflexivity.
  assert (H6 : pick_client w1 Example.load_env (Some "override_id") (Some "override_secret")
               = (inr (Example.answering "override_value"),
                  [NewClient "override_id" "override_secret" None])) by reflexivity.
  assert (H7 : SDK.fetch (Example.answering "override_value")
                 (fetch_args Example.load_env "TEST_SECRET" "test_project" None None)
               = inr (Example.secret "override_value")) by reflexivity.
  assert (H8 : SDK.secret_value (Example.secret "override_value")
               = Some "override_value") by reflexivity.
  assert (H9 : now w2 < now w1 + TTLCache.ttl (LoadEnv._cache Example.load_env))
    by reflexivity.
  destruct (credentials_not_in_cache_key w1 w2 Example.load_env 0 "TEST_SECRET"
              (Some "test_project") None None (Some "override_id")
              (Some "override_secret") None None "test_project"
              (Example.answering "override_value")
              [NewClient "override_id" "override_secret" None]
              (Example.secret "override_value") "override_value"
              H1 H2 H3 H4 H5 H6 H7 H8 H9) as (Hr1 & _ & Hr2 & He2).
  split; [exact H1|]. split; [exact H6|]. split; [exact Hr1|].
  split; [exact Hr2|exact He2].
Defined.

Lemma length_append (a b : string) :
  String.length (a ++ b)%string = (String.length a + String.length b)%nat.
Proof. induction a as [|x a IH]; simpl; [reflexivity|now rewrite IH]. Qed.

(** The key of a non-empty path is not the key of the empty path. *)
Lemma cache_key_path (p env path name : string) :
  path <> "" -> LoadEnv.cache_key p env path name <> LoadEnv.cache_key p env "" name.
Proof.
  intros Hne Heq. apply (f_equal String.length) in Heq.
  unfold LoadEnv.cache_key, LoadEnv._key in Heq.
  rewrite !length_append in Heq. simpl in Heq.
  destruct path; [congruence|]. simpl in Heq. lia.
Qed.

(** C10. When [get] is called with the empty path (given or left out), the
    facade has a non-empty default path and the cache misses, the remote
    fetch is issued with the default path, and the value is stored under the
    key of the empty path, [project:env::name]: that key then holds the
    value, and no entry is written under the key of the default path, which
    is a different key. *)
Theorem empty_path_cached_under_empty_path_key (w : World) (self : LoadEnv.t)
    (clock : Z) (key : string)
    (project env path client_id client_secret : option string)
    (p : string) (sdk : SDK.Client) (ev : list Event)
    (secret : SDK.BaseSecret) (s : string) :
  valid clock (LoadEnv._cache self) -> clock <= now w ->
  py_or project (LoadEnv.project_id self) = Some p -> p <> "" ->
  LoadEnv.kwarg "" path = "" ->
  LoadEnv.secret_path self <> "" ->
  let e := LoadEnv.kwarg "dev" env in
  let k_empty := LoadEnv.cache_key p e "" key in
  let k_default := LoadEnv.cache_key p e (LoadEnv.secret_path self) key in
  let fetch := SDK.get_secret_by_name key p e (LoadEnv.secret_path self) in
  TTLCache.contains (LoadEnv._cache self) (now w) k_empty = false ->
  pick_client w self client_id client_secret = (inr sdk, ev) ->
  SDK.fetch sdk fetch = inr secret ->
  SDK.secret_value secret = Some s ->
  let call := LoadEnv.get w key project env path client_id client_secret in
  let after := LoadEnv._cache (state_after call self) in
  k_empty = (p ++ ":" ++ e ++ "::" ++ key)%string /\
  k_default <> k_empty /\
  result_of call self = inr (mkSecretStr s) /\
  events_of call self
    = CacheContains k_empty :: ev ++
        [RemoteCall (SDK.Get fetch) None; CacheSetitem k_empty (mkSecretStr s)] /\
  TTLCache.find_link k_empty after
    = Some (TTLCache.mkLink k_empty (mkSecretStr s)
              (now w + TTLCache.ttl (LoadEnv._cache self))) /\
  (TTLCache.find_link k_default (LoadEnv._cache self) = None ->
   TTLCache.find_link k_default after = None).
Proof.
  intros Hv Hclock Hp Hne Hpath Hdefault e k_empty k_default fetch
         Hmiss Hpick Hfetch Hval call after.
  assert (Hargs : fetch_args self key p env path = fetch).
  { unfold fetch_args, fetch. rewrite Hpath. simpl. reflexivity. }
  assert (Hdiff : k_default <> k_empty) by now apply cache_key_path.
  destruct (get_fetches w self clock key project env path client_id client_secret
              p sdk ev secret s Hv Hclock Hp Hne) as (c' & Hset & _ & Hget).
  - now rewrite Hpath.
  - assumption.
  - now rewrite Hargs.
  - assumption.
  - rewrite Hpath, Hargs in *. fold e k_empty in Hset, Hget.
    unfold after, result_of, events_of, state_after, call. rewrite Hget. simpl.
    split; [unfold k_empty, LoadEnv.cache_key, LoadEnv._key; now rewrite !append_assoc|].
    split; [assumption|]. split; [reflexivity|]. split; [reflexivity|].
    split; [now apply setitem_find_same|].
    now apply (setitem_absent_other _ _ _ _ _ _ Hset Hdiff).
Qed.

Lemma empty_path_cached_under_empty_path_key_witness :
  let w := Example.world 1 (Example.answering "fresh_value") in
  let call := LoadEnv.get w "TEST_SECRET" None None None None None in
  valid 0 (LoadEnv._cache Example.staging_env) /\
  LoadEnv.secret_path Example.staging_env <> "" /\
  events_of call Example.staging_env
    = [CacheContains "test_project:dev::TEST_SECRET";
       RemoteCall (SDK.Get (SDK.get_secret_by_name "TEST_SECRET" "test_project" "dev"
                              "/custom/path")) None;
       CacheSetitem "test_project:dev::TEST_SECRET" (mkSecretStr "fresh_value")] /\
  TTLCache.find_link "test_project:dev:/custom/path:TEST_SECRET"
    (LoadEnv._cache (state_after call Example.staging_env)) = None.
Proof.
  intros w call.
  assert (H1 : valid 0 (LoadEnv._cache Example.staging_env)).
  { apply empty_valid. lia. }
  assert (H2 : 0 <= now w) by (simpl; lia).
  assert (H3 : py_or None (LoadEnv.project_id Example.staging_env)
               = Some "test_project") by reflexivity.
  assert (H4 : "test_project" <> "") by discriminate.
  assert (H5 : LoadEnv.kwarg "" None = "") by reflexivity.
  assert (H6 : LoadEnv.secret_path Example.staging_env <> "") by discriminate.
  assert (H7 : TTLCache.contains (LoadEnv._cache Example.staging_env) (now w)
                 (LoadEnv.cache_key "test_project" (LoadEnv.kwarg "dev" None) ""
                    "TEST_SECRET") = false) by reflexivity.
  assert (H8 : pick_client w Example.staging_env None None
               = (inr (Example.answering "fresh_value"), [])) by reflexivity.
  assert (H9 : SDK.fetch (Example.answering "fresh_value")
                 (SDK.get_secret_by_name "TEST_SECRET" "test_project"
                    (LoadEnv.kwarg "dev" None)
                    (LoadEnv.secret_path Example.staging_env))
               = inr (Example.secret "fresh_value")) by reflexivity.
  assert (H10 : SDK.secret_value (Example.secret "fresh_value") = Some "fresh_value")
    by reflexivity.
  destruct (empty_path_cached_under_empty_path_key w Example.staging_env 0
              "TEST_SECRET" None None None None None "test_project"
              (Example.answering "fresh_value") [] (Example.secret "fresh_value")
              "fresh_value" H1 H2 H3 H4 H5 H6 H7 H8 H9 H10)
    as (_ & _ & _ & Hev & _ & Hnone).
  split; [exact H1|]. split; [exact H6|]. split; [exact Hev|].
  apply Hnone. reflexivity.
Defined.

(** ** The facade as built, and the scenarios of the test suite *)

(** X20.  From construction on, along operations whose times never go back, the
    cache is valid and consistent: what the statements above assume of the
    cache holds in every state the facade reaches. *)
Lemma reachable_valid (w0 : World) (environ : string -> option string)
    (id secret : option string) (self0 : LoadEnv.t) (clock : Z)
    (steps : list (World * LoadEnv.Request)) :
  LoadEnv.__init__ w0 environ id secret = inr self0 ->
  monotone clock steps ->
  valid (last_time clock steps) (LoadEnv._cache (LoadEnv.run steps self0)) /\
  consistent (LoadEnv._cache (LoadEnv.run steps self0)).
Proof.
  intros Hinit Hm. apply init_cache in Hinit.
  assert (Hv : valid clock (LoadEnv._cache self0)).
  { rewrite Hinit. apply empty_valid. lia. }
  split.
  - now apply run_valid.
  - apply run_consistent. now destruct Hv.
Qed.

(** [test_init_from_env_vars]. *)
Example init_from_env_vars :
  LoadEnv.__init__ (Example.world 0 (Example.answering "v")) Example.environ None None
  = inr Example.staging_env.
Proof. reflexivity. Qed.

(** [test_init_sdk_initialization_failure]. *)
Example init_sdk_failure :
  LoadEnv.__init__
    (mkWorld 0 (Example.failing "x") (fun _ _ => inl (RemoteError "SDK init failed")))
    Example.no_environ (Some "test_id") (Some "test_secret")
  = inl (RemoteError "SDK init failed").
Proof. reflexivity. Qed.

(** [test_cache_key_generation]. *)
Example cache_key_generation :
  LoadEnv._key "project1" "dev" "/path" = "project1:dev:/path" /\
  LoadEnv._key "project1" "dev" "" = "project1:dev:".
Proof. split; reflexivity. Qed.

(** [test_get_secret_with_path]: the fetch carries the given path. *)
Example get_secret_with_path :
  events_of (LoadEnv.get (Example.world 1 (Example.answering "path_value")) "TEST_SECRET"
               (Some "test_project") (Some "staging") (Some "/custom/path") None None)
            Example.load_env
  = [CacheContains "test_project:staging:/custom/path:TEST_SECRET";
     RemoteCall (SDK.Get (SDK.get_secret_by_name "TEST_SECRET" "test_project" "staging"
                            "/custom/path")) None;
     CacheSetitem "test_project:staging:/custom/path:TEST_SECRET"
                  (mkSecretStr "path_value")].
Proof. reflexivity. Qed.

(** [test_list_secrets]: the flags of a call without overrides. *)
Example list_secrets_defaults :
  events_of (LoadEnv.list_secrets (Example.world 1 (Example.answering "v"))
               (Some "test_project") None None None None None None None)
            Example.load_env
  = [RemoteCall (SDK.List (SDK.list_secrets "test_project" "dev" "/" true true false
                             true [])) None].
Proof. reflexivity. Qed.

(** [test_create_secret]: the entry of another secret of the scope is
    invalidated. *)
Example create_secret_invalidates :
  let seeded :=
    LoadEnv.set_cache Example.load_env
      (snd (TTLCache.setitem (LoadEnv._cache Example.load_env) 0
              "test_project:dev::OTHER_SECRET" (mkSecretStr "other_value"))) in
  let call :=
    LoadEnv.create_secret (Example.world 1 (Example.answering "v")) "NEW_SECRET"
      "new_value" (Some "test_project") None None None None None None in
  TTLCache.contains (LoadEnv._cache seeded) 1 "test_project:dev::OTHER_SECRET" = true /\
  result_of call seeded = inr [("id", "secret_123")] /\
  TTLCache.contains (LoadEnv._cache (state_after call seeded)) 1
    "test_project:dev::OTHER_SECRET" = false.
Proof. vm_compute. repeat split. Qed.

(** [test_cache_ttl]: of two reads in a row only the first one fetches. *)
Example second_get_uses_cache :
  let w := Example.world 1 (Example.answering "value1") in
  let call := LoadEnv.get w "TEST_SECRET" (Some "test_project") None None None None in
  result_of call (state_after call Example.load_env) = inr (mkSecretStr "value1") /\
  events_of call (state_after call Example.load_env)
  = [CacheContains "test_project:dev::TEST_SECRET";
     CacheGetitem "test_project:dev::TEST_SECRET"].
Proof. vm_compute. split; reflexivity. Qed.

(** The capacity at work: with two entries already in a cache of capacity 2,
    a third key evicts the least recently used one. *)
Example eviction_at_capacity :
  let c0 := TTLCache.empty 2 3600 in
  let c1 := snd (TTLCache.setitem c0 0 "a" (mkSecretStr "1")) in
  let c2 := snd (TTLCache.setitem c1 1 "b" (mkSecretStr "2")) in
  let c3 := snd (TTLCache.getitem c2 2 "a") in
  let c4 := snd (TTLCache.setitem c3 3 "c" (mkSecretStr "3")) in
  TTLCache.keys c4 3 = ["a"; "c"] /\ TTLCache.links c4 = ["a"; "c"].
Proof. vm_compute. split; reflexivity. Qed.

(** * Further properties of the facade *)

(** ** What kind of events an operation has *)

Section Emits.

Import LoadEnv.

Variable w : World.
Variable Q : Event -> bool.

Lemma emits_bind {A B} (m : M A) (f : A -> M B) :
  emits Q m -> (forall a, emits Q (f a)) -> emits Q (bind m f).
Proof.
  intros Hm Hf self. rewrite bind_events.
  destruct (result_of m self) as [e|a]; [apply Hm|].
  apply Forall_app. split; [apply Hm|apply Hf].
Qed.

Lemma emits_ret {A} (a : A) : emits Q (ret a).
Proof. intros self. constructor. Qed.

Lemma emits_raise {A} e : emits Q (@raise A e).
Proof. intros self. constructor. Qed.

Lemma emits_attr {A} (field : t -> A) : emits Q (attr field).
Proof. intros self. constructor. Qed.

Lemma emits_for_each {A} (l : list A) body :
  (forall x, emits Q (body x)) -> emits Q (for_each l body).
Proof.
  intros H. induction l as [|x l IH]; simpl; [apply emits_ret|].
  apply emits_bind; auto.
Qed.

Lemma emits_remote {A} c (answer : Exception + A) :
  (forall failure, Q (RemoteCall c failure) = true) -> emits Q (remote c answer).
Proof. intros H self. constructor; [apply H|constructor]. Qed.

Lemma emits_new_client i s :
  (forall failure, Q (NewClient i s failure) = true) -> emits Q (new_client w i s).
Proof. intros H self. constructor; [apply H|constructor]. Qed.

Lemma emits_cache_contains k : Q (CacheContains k) = true -> emits Q (cache_contains w k).
Proof. intros H self. constructor; [apply H|constructor]. Qed.

Lemma emits_cache_keys : Q CacheKeys = true -> emits Q (cache_keys w).
Proof. intros H self. constructor; [apply H|constructor]. Qed.

Lemma emits_cache_getitem k : Q (CacheGetitem k) = true -> emits Q (cache_getitem w k).
Proof.
  intros H self. unfold events_of, cache_getitem.
  destruct (TTLCache.getitem _ _ _). constructor; [apply H|constructor].
Qed.

Lemma emits_cache_delitem k : Q (CacheDelitem k) = true -> emits Q (cache_delitem w k).
Proof.
  intros H self. unfold events_of, cache_delitem.
  destruct (TTLCache.delitem _ _ _). constructor; [apply H|constructor].
Qed.

Lemma emits_cache_setitem k v :
  Q (CacheSetitem k v) = true -> emits Q (cache_setitem w k v).
Proof.
  intros H self. unfold events_of, cache_setitem.
  destruct (TTLCache.setitem _ _ _ _). constructor; [apply H|constructor].
Qed.

End Emits.

Ltac emits_steps :=
  repeat first
    [ apply emits_bind; [|intros ?]
    | apply emits_ret | apply emits_raise | apply emits_attr
    | apply emits_remote; reflexivity
    | apply emits_new_client; reflexivity
    | apply emits_cache_contains; reflexivity
    | apply emits_cache_keys; reflexivity
    | apply emits_cache_getitem; reflexivity
    | apply emits_cache_delitem; reflexivity
    | apply emits_cache_setitem; reflexivity
    | apply emits_for_each; intros ?
    | split_branches ].

Ltac readonly_steps :=
  repeat first
    [ apply readonly_bind; [|intros ?]
    | apply ret_readonly | apply raise_readonly | apply attr_readonly
    | apply remote_readonly | apply new_client_readonly
    | apply cache_contains_readonly | apply cache_keys_readonly
    | split_branches ].

(** ** The operations that bypass the cache *)

Lemma bypass_readonly (w : World) (r : LoadEnv.Request) :
  is_bypass r = true -> readonly (LoadEnv.perform w r).
Proof.
  destruct r; try discriminate; intros _; unfold_operations; readonly_steps.
Qed.

Lemma bypass_emits_remote (w : World) (r : LoadEnv.Request) :
  is_bypass r = true -> emits is_remote (LoadEnv.perform w r).
Proof.
  destruct r; try discriminate; intros _; unfold_operations; emits_steps.
Qed.

(** X1.  [get_all], [list_secrets] and [secret_by_name] never read or change the
    cache, whatever they are given and whatever the remote side answers:
    [self] is afterwards what it was, and all their events are remote ones.
    A [get] after one of them therefore behaves as it would have before:
    what a listing returns is not put into the cache. *)
Theorem bypass_operations_leave_the_cache_alone (w : World) (r : LoadEnv.Request)
    (self : LoadEnv.t) :
  is_bypass r = true ->
  state_after (LoadEnv.perform w r) self = self /\
  Forall (fun e => is_remote e = true) (events_of (LoadEnv.perform w r) self) /\
  (forall w' key project env path client_id client_secret,
     LoadEnv.get w' key project env path client_id client_secret
       (state_after (LoadEnv.perform w r) self)
     = LoadEnv.get w' key project env path client_id client_secret self).
Proof.
  intros H. pose proof (bypass_readonly w r H self) as Hs.
  split; [assumption|]. split; [apply (bypass_emits_remote w r H)|].
  intros. now rewrite Hs.
Qed.

Lemma bypass_operations_leave_the_cache_alone_witness :
  is_bypass (LoadEnv.GetAll (Some "test_project") None None) = true /\
  state_after (LoadEnv.perform (Example.world 1 (Example.answering "v"))
                 (LoadEnv.GetAll (Some "test_project") None None)) Example.seeded
  = Example.seeded.
Proof.
  assert (H : is_bypass (LoadEnv.GetAll (Some "test_project") None None) = true)
    by reflexivity.
  split; [exact H|].
  destruct (bypass_operations_leave_the_cache_alone
              (Example.world 1 (Example.answering "v"))
              (LoadEnv.GetAll (Some "test_project") None None) Example.seeded H)
    as [Hs _].
  exact Hs.
Defined.

(** ** Only [get] stores *)

Section NoStore.

Variable w : World.
Variable P : TTLCache.t -> Prop.
Hypothesis P_delitem : forall c k, P c -> P (snd (TTLCache.delitem c (now w) k)).

(** Operations other than [get] keep what deletions keep. *)
Lemma other_operations_keep r : is_get r = false -> keeps P (LoadEnv.perform w r).
Proof.
  destruct r; try discriminate; intros _; unfold_operations;
    repeat first
      [ apply keeps_bind; [|intros ?]
      | apply ret_keeps | apply raise_keeps | apply attr_keeps
      | apply remote_keeps | apply cache_keys_keeps
      | apply cache_delitem_keeps; assumption
      | apply for_each_keeps; intros ?
      | split_branches ].
Qed.

End NoStore.

Lemma other_operations_emit_no_store (w : World) (r : LoadEnv.Request) :
  is_get r = false -> emits (fun e => negb (is_store e)) (LoadEnv.perform w r).
Proof.
  destruct r; try discriminate; intros _; unfold_operations; emits_steps.
Qed.

Lemma delitem_within c0 c now k :
  within c0 c -> within c0 (snd (TTLCache.delitem c now k)).
Proof.
  intros H. unfold TTLCache.delitem.
  destruct (TTLCache.find_link k c) as [l|]; [|assumption].
  assert (Hw : within c0 (TTLCache.mk (TTLCache.maxsize c) (TTLCache.ttl c)
                            (TTLCache.forget k (TTLCache.links c))
                            (TTLCache.unlink k (TTLCache.root c)))).
  { unfold within in *. simpl. intros x Hx. apply filter_In in Hx as [Hx _]. auto. }
  now destruct (TTLCache.live now l).
Qed.

(** X3.  No operation but [get] puts anything into the cache: [get_all],
    [list_secrets], [create_secret], [update_secret] and [secret_by_name]
    have no store among their events, and every entry that is in the cache
    after one of them was in the cache before it, with the same value and
    the same expiry time.  In particular a created or updated secret is not
    written through to the cache. *)
Theorem only_get_stores (w : World) (r : LoadEnv.Request) (self : LoadEnv.t) :
  is_get r = false ->
  (forall k v, ~ In (CacheSetitem k v) (events_of (LoadEnv.perform w r) self)) /\
  (forall l, In l (TTLCache.root (LoadEnv._cache (state_after (LoadEnv.perform w r) self))) ->
             In l (TTLCache.root (LoadEnv._cache self))).
Proof.
  intros H. split.
  - intros k v Hin. pose proof (other_operations_emit_no_store w r H self) as He.
    rewrite Forall_forall in He. specialize (He _ Hin). discriminate.
  - apply (other_operations_keep w (within (LoadEnv._cache self))
             (fun c k => delitem_within (LoadEnv._cache self) c (now w) k) r H self).
    apply within_refl.
Qed.

Lemma only_get_stores_witness :
  is_get Example.create_in_app = false /\
  ~ In (CacheSetitem "P:dev:/app:NEW_SECRET" (mkSecretStr "new_value"))
       (events_of (LoadEnv.perform (Example.world 1 (Example.answering "v"))
                     Example.create_in_app) Example.seeded).
Proof.
  assert (H : is_get Example.create_in_app = false) by reflexivity.
  split; [exact H|].
  destruct (only_get_stores (Example.world 1 (Example.answering "v"))
              Example.create_in_app Example.seeded H) as [Hno _].
  exact (Hno "P:dev:/app:NEW_SECRET" (mkSecretStr "new_value")).
Defined.

(** ** Failures of any kind *)

Lemma fmap_result {A B} (f : A -> B) (m : LoadEnv.M A) self :
  result_of (LoadEnv.fmap f m) self =
    match result_of m self with inl e => inl e | inr a => inr (f a) end.
Proof.
  unfold LoadEnv.fmap. rewrite bind_result.
  now destruct (result_of m self).
Qed.

Lemma fmap_state {A B} (f : A -> B) (m : LoadEnv.M A) self :
  state_after (LoadEnv.fmap f m) self = state_after m self.
Proof.
  unfold LoadEnv.fmap. rewrite bind_state.
  now destruct (result_of m self).
Qed.

Lemma fmap_events {A B} (f : A -> B) (m : LoadEnv.M A) self :
  events_of (LoadEnv.fmap f m) self = events_of m self.
Proof.
  unfold LoadEnv.fmap. rewrite bind_events.
  destruct (result_of m self); [reflexivity|]. simpl. apply app_nil_r.
Qed.

(** Without a project nothing happens; a helper that repeats, for use in
    further proofs, what the operations do first. *)
Lemma missing_project_state (w : World) (r : LoadEnv.Request) (self : LoadEnv.t) :
  truthy (py_or (LoadEnv.request_project r) (LoadEnv.project_id self)) = false ->
  LoadEnv.perform w r self = (inl LoadEnv.missing_project, self, []).
Proof.
  intros H. pose proof (resolve_project_missing _ _ H) as Hr.
  destruct r; simpl in Hr; unfold LoadEnv.perform, LoadEnv.fmap;
    apply bind_inl;
    [ unfold LoadEnv.get | unfold LoadEnv.get_all | unfold LoadEnv.list_secrets
    | unfold LoadEnv.create_secret | unfold LoadEnv.update_secret
    | unfold LoadEnv.secret_by_name ];
    cbv zeta; apply bind_inl; exact Hr.
Qed.

Lemma resolved_or_missing project self :
  (exists p, py_or project (LoadEnv.project_id self) = Some p /\ p <> "") \/
  truthy (py_or project (LoadEnv.project_id self)) = false.
Proof.
  destruct (py_or project (LoadEnv.project_id self)) as [p|] eqn:E; simpl.
  - destruct (String.eqb_spec p ""); [now right|]. left. now exists p.
  - now right.
Qed.

Section GetFails.

Import LoadEnv.

Variables (w : World) (self : LoadEnv.t) (clock : Z).
Variables (key : string) (project env path client_id client_secret : option string).
Hypothesis cache_valid : valid clock (_cache self).
Hypothesis clock_before : clock <= now w.

(** On a valid cache a [get] that raises has changed nothing. *)
Lemma get_failure e :
  result_of (get w key project env path client_id client_secret) self = inl e ->
  state_after (get w key project env path client_id client_secret) self = self.
Proof.
  destruct (resolved_or_missing project self) as [(p & Hp & Hne)|Hmiss].
  - destruct (TTLCache.contains (_cache self) (now w)
                (cache_key p (kwarg "dev" env) (kwarg "" path) key)) eqn:Ec.
    + apply contains_find in Ec as (l & Hf & Hl). unfold result_of.
      rewrite (get_hit w self key project env path client_id client_secret p l
                 Hp Hne Hf Hl). discriminate.
    + unfold result_of, state_after.
      rewrite (get_miss w self key project env path client_id client_secret p
                 Hp Hne Ec).
      destruct (pick_client w self client_id client_secret) as [[e'|sdk] ev];
        [reflexivity|].
      destruct (SDK.fetch sdk _) as [e'|secret]; [reflexivity|].
      destruct (SDK.secret_value secret) as [s|]; [|reflexivity].
      cbv zeta.
      destruct (setitem_ok clock (_cache self) (now w)
                  (cache_key p (kwarg "dev" env) (kwarg "" path) key) (mkSecretStr s)
                  cache_valid clock_before) as (c' & -> & _).
      discriminate.
  - intros _. unfold state_after, get. cbv zeta.
    now rewrite (bind_inl _ _ _ _ _ _ (resolve_project_missing project self Hmiss)).
Qed.

End GetFails.

Section WriteFails.

Import LoadEnv.

Variables (w : World) (self : LoadEnv.t).
Hypothesis cache_consistent : consistent (_cache self).

(** On a consistent cache a write that raises has changed nothing. *)
Lemma write_failure r e :
  is_write r = true ->
  result_of (perform w r) self = inl e -> state_after (perform w r) self = self.
Proof.
  intros Hw.
  destruct (resolved_or_missing (request_project r) self) as [(p & Hp & Hne)|Hmiss].
  - pose proof (resolve_project_ok _ _ _ Hp Hne) as Hr.
    destruct (invalidate_spec w p (kwarg "dev" (request_env r)) (request_path r) self
                cache_consistent) as (c' & ev & Hinv & _).
    destruct r; try discriminate; simpl in Hr, Hinv |- *;
      unfold result_of, state_after, perform, fmap;
      [unfold create_secret|unfold update_secret]; cbv zeta;
      unfold bind; rewrite Hr; unfold attr, remote, ret.
    + destruct (SDK.create (client w) _) as [e'|d]; simpl; [reflexivity|].
      rewrite Hinv. discriminate.
    + destruct (SDK.update (client w) _) as [e'|[]]; simpl; [reflexivity|].
      rewrite Hinv. discriminate.
  - intros _. unfold state_after.
    now rewrite (missing_project_state w r self Hmiss).
Qed.

End WriteFails.

(** X4.  Whatever makes an operation raise (a missing project, a failure of the
    remote side, a record without a value), on a valid cache the operation
    leaves [self], the cache included, exactly as it was: no entry is added,
    removed or reordered by an operation that fails. *)
Theorem failed_operation_changes_nothing (w : World) (r : LoadEnv.Request)
    (self : LoadEnv.t) (clock : Z) (e : Exception) :
  valid clock (LoadEnv._cache self) -> clock <= now w ->
  result_of (LoadEnv.perform w r) self = inl e ->
  state_after (LoadEnv.perform w r) self = self.
Proof.
  intros Hv Hclock Hres.
  destruct (is_bypass r) eqn:Hb; [now apply bypass_readonly|].
  destruct (is_write r) eqn:Hw.
  - apply write_failure with (e := e); [now destruct Hv|assumption|assumption].
  - destruct r; try discriminate. unfold LoadEnv.perform in *.
    rewrite fmap_state. rewrite fmap_result in Hres.
    destruct (result_of (LoadEnv.get w key project env path client_id client_secret) self)
      as [e'|v] eqn:E; [|discriminate].
    now apply get_failure with (clock := clock) (e := e').
Qed.

Lemma failed_operation_changes_nothing_witness :
  let w := Example.world 1
             (SDK.mkClient (fun _ => inr (SDK.mkSecret (Some "TEST_SECRET") None))
                           (fun _ => inr []) (fun _ => inr []) (fun _ => inr tt)) in
  let r := LoadEnv.Get "OTHER" (Some "test_project") None None None None in
  valid 0 (LoadEnv._cache Example.seeded) /\
  result_of (LoadEnv.perform w r) Example.seeded = inl (AttributeError "secret_value") /\
  state_after (LoadEnv.perform w r) Example.seeded = Example.seeded.
Proof.
  intros w r.
  assert (H1 : valid 0 (LoadEnv._cache Example.seeded)).
  { apply (setitem_valid 0 (LoadEnv._cache Example.load_env) 0); [|lia].
    apply empty_valid. lia. }
  assert (H2 : 0 <= now w) by (simpl; lia).
  assert (H3 : result_of (LoadEnv.perform w r) Example.seeded
               = inl (AttributeError "secret_value")) by reflexivity.
  split; [exact H1|]. split; [exact H3|].
  exact (failed_operation_changes_nothing w r Example.seeded 0
           (AttributeError "secret_value") H1 H2 H3).
Defined.

(** ** Reads from the cache and the lifetime of entries *)

(** X8.  A [get] served by the cache does not extend the lifetime of anything:
    the entries of the cache, their values and their expiry times are after
    the read what they were before, so every key is present at exactly the
    same times as without the read.  Only the order of use changes. *)
Theorem hit_does_not_refresh (w : World) (self : LoadEnv.t) (key : string)
    (project env path client_id client_secret : option string) (p : string) :
  py_or project (LoadEnv.project_id self) = Some p -> p <> "" ->
  TTLCache.contains (LoadEnv._cache self) (now w)
    (LoadEnv.cache_key p (LoadEnv.kwarg "dev" env) (LoadEnv.kwarg "" path) key) = true ->
  let before := LoadEnv._cache self in
  let after := LoadEnv._cache
                 (state_after (LoadEnv.get w key project env path client_id client_secret)
                    self) in
  TTLCache.root after = TTLCache.root before /\
  TTLCache.ttl after = TTLCache.ttl before /\
  (forall k t, TTLCache.contains after t k = TTLCache.contains before t k) /\
  (forall t, TTLCache.keys after t = TTLCache.keys before t).
Proof.
  intros Hp Hne Hc before after.
  apply contains_find in Hc as (l & Hf & Hl).
  assert (Hroot : TTLCache.root after = TTLCache.root before).
  { unfold after, state_after.
    rewrite (get_hit w self key project env path client_id client_secret p l
               Hp Hne Hf Hl). simpl. apply getitem_root. }
  split; [assumption|]. split.
  - unfold after, state_after.
    rewrite (get_hit w self key project env path client_id client_secret p l
               Hp Hne Hf Hl). simpl. apply getitem_shrinks.
  - split.
    + intros k t. unfold TTLCache.contains, TTLCache.find_link. now rewrite Hroot.
    + intros t. unfold TTLCache.keys. now rewrite Hroot.
Qed.

Lemma hit_does_not_refresh_witness :
  let call := LoadEnv.get (Example.world 1 (Example.failing "SDK error")) "TEST_SECRET"
                (Some "test_project") None None None None in
  TTLCache.contains (LoadEnv._cache Example.seeded) 1
    (LoadEnv.cache_key "test_project" "dev" "" "TEST_SECRET") = true /\
  TTLCache.contains (LoadEnv._cache (state_after call Example.seeded)) 3600
    "test_project:dev::TEST_SECRET"
  = TTLCache.contains (LoadEnv._cache Example.seeded) 3600
      "test_project:dev::TEST_SECRET".
Proof.
  intros call.
  assert (H1 : py_or (Some "test_project") (LoadEnv.project_id Example.seeded)
               = Some "test_project") by reflexivity.
  assert (H2 : "test_project" <> "") by discriminate.
  assert (H3 : TTLCache.contains (LoadEnv._cache Example.seeded)
                 (now (Example.world 1 (Example.failing "SDK error")))
                 (LoadEnv.cache_key "test_project" (LoadEnv.kwarg "dev" None)
                    (LoadEnv.kwarg "" None) "TEST_SECRET") = true) by reflexivity.
  split; [exact H3|].
  destruct (hit_does_not_refresh (Example.world 1 (Example.failing "SDK error"))
              Example.seeded "TEST_SECRET" (Some "test_project") None None None None
              "test_project" H1 H2 H3) as (_ & _ & Hsame & _).
  exact (Hsame "test_project:dev::TEST_SECRET" 3600).
Defined.

(** ** Writes and the reads that follow them *)

Section AfterWrite.

Import LoadEnv.

Variables (w : World) (r : Request) (self : LoadEnv.t) (p : string) (v : Value).
Hypothesis write : is_write r = true.
Hypothesis cache_consistent : consistent (_cache self).
Hypothesis project_resolved : py_or (request_project r) (project_id self) = Some p.
Hypothesis project_not_empty : p <> "".
Hypothesis succeeded : result_of (perform w r) self = inr v.

(** After a successful write the cache is what the invalidation makes of
    it, the rest of [self] is untouched, and no key of the project and the
    environment is live. *)
Lemma write_outcome :
  exists c',
    state_after (perform w r) self = set_cache self c' /\
    consistent c' /\
    (forall clock, valid clock (_cache self) -> valid clock c') /\
    (forall k t, startswith k (_key p (kwarg "dev" (request_env r)) "") = true ->
                 now w <= t -> TTLCache.contains c' t k = false).
Proof.
  destruct (invalidate_spec w p (kwarg "dev" (request_env r)) (request_path r) self
              cache_consistent) as (c' & ev & Hrun & Hc' & _ & Hv & Hfind).
  exists c'. split; [|split; [assumption|split; [assumption|]]].
  - rewrite (write_invalidates w self p r v write project_resolved project_not_empty
               succeeded).
    unfold state_after. now rewrite Hrun.
  - intros k t Hk Hle. apply contains_later with (now := now w); [|assumption].
    unfold TTLCache.contains at 1. rewrite Hfind, Hk, orb_true_r, andb_true_r.
    destruct (TTLCache.contains (_cache self) (now w) k) eqn:E; [reflexivity|exact E].
Qed.

End AfterWrite.

(** X14.  After a successful [create_secret] or [update_secret], every [get] for
    the same project and environment, at that time or later, for whatever
    path and name and with whatever credentials, misses the cache and turns
    to the remote side: a read that follows a write is never served a value
    cached before the write. *)
Theorem write_then_get_refetches (w w' : World) (r : LoadEnv.Request)
    (self : LoadEnv.t) (p : string) (v : LoadEnv.Value) (key : string)
    (path client_id client_secret : option string) :
  is_write r = true ->
  consistent (LoadEnv._cache self) ->
  py_or (LoadEnv.request_project r) (LoadEnv.project_id self) = Some p -> p <> "" ->
  result_of (LoadEnv.perform w r) self = inr v ->
  now w <= now w' ->
  let self' := state_after (LoadEnv.perform w r) self in
  let read := LoadEnv.get w' key (LoadEnv.request_project r) (LoadEnv.request_env r)
                path client_id client_secret in
  TTLCache.contains (LoadEnv._cache self') (now w')
    (LoadEnv.cache_key p (LoadEnv.kwarg "dev" (LoadEnv.request_env r))
       (LoadEnv.kwarg "" path) key) = false /\
  exists e, In e (events_of read self') /\ is_remote e = true.
Proof.
  intros Hw Hc Hp Hne Hres Hle self' read.
  destruct (write_outcome w r self p v Hw Hc Hp Hne Hres) as (c' & Hs & _ & _ & Hgone).
  unfold self'. rewrite Hs. simpl.
  assert (Hmiss : TTLCache.contains c' (now w')
                    (LoadEnv.cache_key p (LoadEnv.kwarg "dev" (LoadEnv.request_env r))
                       (LoadEnv.kwarg "" path) key) = false).
  { apply Hgone; [apply key_in_scope|assumption]. }
  split; [assumption|].
  apply get_miss_remote with (p := p); assumption.
Qed.

Lemma write_then_get_refetches_witness :
  let w := Example.world 1 (Example.answering "v") in
  let r := LoadEnv.UpdateSecret "TEST_SECRET" (Some "new_value") (Some "test_project")
             None None None None None None None None None in
  is_write r = true /\
  consistent (LoadEnv._cache Example.seeded) /\
  result_of (LoadEnv.perform w r) Example.seeded = inr LoadEnv.VNone /\
  TTLCache.contains (LoadEnv._cache Example.seeded) 1 "test_project:dev::TEST_SECRET"
    = true /\
  TTLCache.contains (LoadEnv._cache (state_after (LoadEnv.perform w r) Example.seeded)) 2
    (LoadEnv.cache_key "test_project" "dev" "" "TEST_SECRET") = false.
Proof.
  intros w r.
  assert (H1 : is_write r = true) by reflexivity.
  assert (H2 : consistent (LoadEnv._cache Example.seeded)).
  { apply setitem_consistent, empty_consistent. }
  assert (H3 : py_or (LoadEnv.request_project r) (LoadEnv.project_id Example.seeded)
               = Some "test_project") by reflexivity.
  assert (H4 : "test_project" <> "") by discriminate.
  assert (H5 : result_of (LoadEnv.perform w r) Example.seeded = inr LoadEnv.VNone)
    by reflexivity.
  assert (H6 : now w <= now (Example.world 2 (Example.failing "SDK error")))
    by (simpl; lia).
  split; [exact H1|]. split; [exact H2|]. split; [exact H5|].
  split; [reflexivity|].
  destruct (write_then_get_refetches w (Example.world 2 (Example.failing "SDK error"))
              r Example.seeded "test_project" LoadEnv.VNone "TEST_SECRET" None None None
              H1 H2 H3 H4 H5 H6) as [Hmiss _].
  exact Hmiss.
Defined.

(** ** What an invalidation depends on *)

Section Nothing.

Import LoadEnv.
Local Open Scope loadenv_scope.

Variables (w : World) (self : LoadEnv.t).

Lemma filter_none {A} (f : A -> bool) (l : list A) :
  (forall x, In x l -> f x = false) -> filter f l = [].
Proof.
  induction l as [|x l IH]; simpl; intros H; [reflexivity|].
  rewrite (H x (or_introl eq_refl)). apply IH. auto.
Qed.

(** A pass over a cache without a live key of the prefix is one listing of
    the keys and nothing else. *)
Lemma pass_without_keys prefix :
  (forall k, In k (TTLCache.keys (_cache self) (now w)) -> startswith k prefix = false) ->
  (ks <- cache_keys w ;;
   for_each (filter (fun k => startswith k prefix) ks) (cache_delitem w)) self
  = (inr tt, self, [CacheKeys]).
Proof.
  intros H. unfold bind, cache_keys. rewrite (filter_none _ _ H). reflexivity.
Qed.

Lemma invalidate_without_keys project_id env path :
  (forall k, In k (TTLCache.keys (_cache self) (now w)) ->
             startswith k (_key project_id env "") = false) ->
  invalidate w project_id env path self = (inr tt, self, [CacheKeys; CacheKeys]).
Proof.
  intros H.
  assert (H1 : forall k, In k (TTLCache.keys (_cache self) (now w)) ->
                 startswith k (_key project_id env (or_str path (secret_path self)))
                 = false).
  { intros k Hk.
    destruct (startswith k (_key project_id env (or_str path (secret_path self))))
      eqn:E; [|reflexivity].
    rewrite <- (H k Hk). symmetry.
    apply startswith_trans with (p := _key project_id env (or_str path (secret_path self)));
      [assumption|].
    unfold _key.
    replace (project_id ++ ":" ++ env ++ ":" ++ or_str path (secret_path self))%string
      with ((project_id ++ ":" ++ env ++ ":" ++ "")
              ++ or_str path (secret_path self))%string
      by now rewrite !append_assoc.
    apply startswith_append. }
  unfold invalidate. unfold bind at 1, attr at 1.
  cbn [for_each fst snd]. cbv beta.
  rewrite (bind_inr _ _ _ _ _ _ (pass_without_keys _ H1)).
  rewrite (bind_inr _ _ _ _ _ _ (pass_without_keys _ H)). reflexivity.
Qed.

(** A write on a cache without a live key of its project and environment
    leaves [self] as it is, whether it succeeds or fails. *)
Lemma write_without_keys r :
  is_write r = true ->
  (forall p k, py_or (request_project r) (project_id self) = Some p ->
               In k (TTLCache.keys (_cache self) (now w)) ->
               startswith k (_key p (kwarg "dev" (request_env r)) "") = false) ->
  state_after (perform w r) self = self.
Proof.
  intros Hw Hnone.
  destruct (resolved_or_missing (request_project r) self) as [(p & Hp & Hne)|Hmiss].
  - pose proof (resolve_project_ok _ _ _ Hp Hne) as Hr.
    pose proof (invalidate_without_keys p (kwarg "dev" (request_env r)) (request_path r)
                  (fun k Hk => Hnone p k Hp Hk)) as Hinv.
    destruct r; try discriminate; simpl in Hr, Hinv |- *;
      unfold state_after, perform, fmap;
      [unfold create_secret|unfold update_secret]; cbv zeta;
      unfold bind; rewrite Hr; unfold attr, remote, ret.
    + destruct (SDK.create (client w) _) as [e'|d]; simpl; [reflexivity|].
      now rewrite Hinv.
    + destruct (SDK.update (client w) _) as [e'|[]]; simpl; [reflexivity|].
      now rewrite Hinv.
  - unfold state_after. now rewrite (missing_project_state w r self Hmiss).
Qed.

End Nothing.

(** X15.  A [create_secret] or [update_secret] for a project and an environment
    of which the cache holds no live key leaves [self], the cache included,
    exactly as it was, whether the remote write succeeds or fails: entries of
    other projects and environments are neither deleted nor reordered, and
    expired entries are not purged. *)
Theorem write_without_cached_scope (w : World) (r : LoadEnv.Request) (self : LoadEnv.t) :
  is_write r = true ->
  (forall p k, py_or (LoadEnv.request_project r) (LoadEnv.project_id self) = Some p ->
               In k (TTLCache.keys (LoadEnv._cache self) (now w)) ->
               startswith k (LoadEnv._key p (LoadEnv.kwarg "dev" (LoadEnv.request_env r)) "")
               = false) ->
  state_after (LoadEnv.perform w r) self = self /\
  (forall k, ~ In (CacheDelitem k) (events_of (LoadEnv.perform w r) self)).
Proof.
  intros Hw Hnone. split; [now apply write_without_keys|].
  intros k Hin.
  destruct (resolved_or_missing (LoadEnv.request_project r) self) as [(p & Hp & Hne)|Hmiss].
  - pose proof (resolve_project_ok _ _ _ Hp Hne) as Hr.
    pose proof (invalidate_without_keys w self p (LoadEnv.kwarg "dev" (LoadEnv.request_env r))
                  (request_path r) (fun k Hk => Hnone p k Hp Hk)) as Hinv.
    revert Hin.
    destruct r; try discriminate; simpl in Hr, Hinv |- *;
      unfold events_of, LoadEnv.perform, LoadEnv.fmap;
      [unfold LoadEnv.create_secret|unfold LoadEnv.update_secret]; cbv zeta;
      unfold LoadEnv.bind; rewrite Hr; unfold LoadEnv.attr, LoadEnv.remote, LoadEnv.ret.
    + destruct (SDK.create (client w) _) as [e'|d]; simpl;
        [|rewrite Hinv; simpl]; intuition discriminate.
    + destruct (SDK.update (client w) _) as [e'|[]]; simpl;
        [|rewrite Hinv; simpl]; intuition discriminate.
  - unfold events_of in Hin. now rewrite (missing_project_state w r self Hmiss) in Hin.
Qed.

Lemma write_without_cached_scope_witness :
  let w := Example.world 1 (Example.answering "v") in
  let r := LoadEnv.CreateSecret "NEW_SECRET" "new_value" (Some "other_project") None None
             None None None None in
  is_write r = true /\
  state_after (LoadEnv.perform w r) Example.seeded = Example.seeded.
Proof.
  intros w r.
  assert (H1 : is_write r = true) by reflexivity.
  assert (H2 : forall p k,
             py_or (LoadEnv.request_project r) (LoadEnv.project_id Example.seeded) = Some p ->
             In k (TTLCache.keys (LoadEnv._cache Example.seeded) (now w)) ->
             startswith k (LoadEnv._key p (LoadEnv.kwarg "dev" (LoadEnv.request_env r)) "")
             = false).
  { intros p k Hp Hk. injection Hp as <-. simpl in Hk.
    destruct Hk as [<-|[]]. reflexivity. }
  split; [exact H1|].
  destruct (write_without_cached_scope w r Example.seeded H1 H2) as [Hs _].
  exact Hs.
Defined.

Lemma invalidate_resolved_path (w : World) (p env : string) (path path' : option string)
    (self : LoadEnv.t) :
  or_str path (LoadEnv.secret_path self) = or_str path' (LoadEnv.secret_path self) ->
  LoadEnv.invalidate w p env path self = LoadEnv.invalidate w p env path' self.
Proof.
  intros H. unfold LoadEnv.invalidate.
  unfold LoadEnv.bind at 1 3, LoadEnv.attr. cbv beta iota. now rewrite H.
Qed.

(** X16.  The invalidation of a write is by scope, not by name: two successful
    writes, be they [create_secret] or [update_secret], with whatever names,
    values, comments and reminders, leave the same [self] when they resolve
    to the same project, the same environment and the same path (a path left
    out being the default path). *)
Theorem invalidation_depends_on_scope_only (w : World) (r1 r2 : LoadEnv.Request)
    (self : LoadEnv.t) (p : string) (v1 v2 : LoadEnv.Value) :
  is_write r1 = true -> is_write r2 = true ->
  py_or (LoadEnv.request_project r1) (LoadEnv.project_id self) = Some p ->
  py_or (LoadEnv.request_project r2) (LoadEnv.project_id self) = Some p ->
  p <> "" ->
  LoadEnv.kwarg "dev" (LoadEnv.request_env r1) = LoadEnv.kwarg "dev" (LoadEnv.request_env r2) ->
  resolved_path self r1 = resolved_path self r2 ->
  result_of (LoadEnv.perform w r1) self = inr v1 ->
  result_of (LoadEnv.perform w r2) self = inr v2 ->
  state_after (LoadEnv.perform w r1) self = state_after (LoadEnv.perform w r2) self.
Proof.
  intros Hw1 Hw2 Hp1 Hp2 Hne Henv Hpath Hr1 Hr2.
  rewrite (write_invalidates w self p r1 v1 Hw1 Hp1 Hne Hr1).
  rewrite (write_invalidates w self p r2 v2 Hw2 Hp2 Hne Hr2).
  rewrite Henv. unfold state_after.
  now rewrite (invalidate_resolved_path w p _ (request_path r1) (request_path r2) self Hpath).
Qed.

Lemma invalidation_depends_on_scope_only_witness :
  let w := Example.world 1 (Example.answering "v") in
  let r1 := LoadEnv.CreateSecret "NEW_SECRET" "new_value" (Some "test_project") None None
              None None None None in
  let r2 := LoadEnv.UpdateSecret "OLD_NAME" (Some "updated_value") None (Some "dev")
              (Some "/custom/path") (Some "NEW_NAME") None None None None None None in
  let self := LoadEnv.set_cache Example.staging_env (LoadEnv._cache Example.seeded) in
  resolved_path self r1 = resolved_path self r2 /\
  result_of (LoadEnv.perform w r1) self = inr (LoadEnv.VDescriptor [("id", "secret_123")]) /\
  result_of (LoadEnv.perform w r2) self = inr LoadEnv.VNone /\
  state_after (LoadEnv.perform w r1) self = state_after (LoadEnv.perform w r2) self.
Proof.
  intros w r1 r2 self.
  assert (H1 : is_write r1 = true) by reflexivity.
  assert (H2 : is_write r2 = true) by reflexivity.
  assert (H3 : py_or (LoadEnv.request_project r1) (LoadEnv.project_id self)
               = Some "test_project") by reflexivity.
  assert (H4 : py_or (LoadEnv.request_project r2) (LoadEnv.project_id self)
               = Some "test_project") by reflexivity.
  assert (H5 : "test_project" <> "") by discriminate.
  assert (H6 : LoadEnv.kwarg "dev" (LoadEnv.request_env r1)
               = LoadEnv.kwarg "dev" (LoadEnv.request_env r2)) by reflexivity.
  assert (H7 : resolved_path self r1 = resolved_path self r2) by reflexivity.
  assert (H8 : result_of (LoadEnv.perform w r1) self
               = inr (LoadEnv.VDescriptor [("id", "secret_123")])) by reflexivity.
  assert (H9 : result_of (LoadEnv.perform w r2) self = inr LoadEnv.VNone) by reflexivity.
  split; [exact H7|]. split; [exact H8|]. split; [exact H9|].
  exact (invalidation_depends_on_scope_only w r1 r2 self "test_project" _ _
           H1 H2 H3 H4 H5 H6 H7 H8 H9).
Defined.

(** X17.  A second write to the same project and environment, at the same time or
    later, finds nothing to invalidate: after a successful [create_secret]
    or [update_secret] on a consistent cache, any further [create_secret] or
    [update_secret] for that project and environment, successful or not,
    leaves [self] as the first one left it. *)
Theorem second_write_changes_nothing (w w' : World) (r r' : LoadEnv.Request)
    (self : LoadEnv.t) (p : string) (v : LoadEnv.Value) :
  is_write r = true -> is_write r' = true ->
  consistent (LoadEnv._cache self) ->
  py_or (LoadEnv.request_project r) (LoadEnv.project_id self) = Some p -> p <> "" ->
  result_of (LoadEnv.perform w r) self = inr v ->
  now w <= now w' ->
  (forall p', py_or (LoadEnv.request_project r') (LoadEnv.project_id self) = Some p' ->
              p' = p) ->
  LoadEnv.kwarg "dev" (LoadEnv.request_env r') = LoadEnv.kwarg "dev" (LoadEnv.request_env r) ->
  let self' := state_after (LoadEnv.perform w r) self in
  state_after (LoadEnv.perform w' r') self' = self'.
Proof.
  intros Hw Hw' Hc Hp Hne Hres Hle Hsame Henv self'.
  destruct (write_outcome w r self p v Hw Hc Hp Hne Hres) as (c' & Hs & Hc' & _ & Hgone).
  unfold self'. rewrite Hs.
  apply write_without_keys; [assumption|].
  intros p' k Hp' Hk. simpl in Hp', Hk.
  rewrite (Hsame p' Hp'), Henv.
  destruct (startswith k _) eqn:E; [|reflexivity].
  apply (keys_contains w' c' k (consistent_nodup _ Hc')) in Hk.
  rewrite (Hgone k (now w') E Hle) in Hk. discriminate.
Qed.

Lemma second_write_changes_nothing_witness :
  let w := Example.world 1 (Example.answering "v") in
  let w' := Example.world 2 (Example.answering "v") in
  let r := LoadEnv.CreateSecret "NEW_SECRET" "new_value" (Some "test_project") None None
             None None None None in
  let r' := LoadEnv.UpdateSecret "NEW_SECRET" (Some "newer_value") (Some "test_project")
              None (Some "/app") None None None None None None None in
  consistent (LoadEnv._cache Example.seeded) /\
  result_of (LoadEnv.perform w r) Example.seeded
    = inr (LoadEnv.VDescriptor [("id", "secret_123")]) /\
  state_after (LoadEnv.perform w' r') (state_after (LoadEnv.perform w r) Example.seeded)
  = state_after (LoadEnv.perform w r) Example.seeded.
Proof.
  intros w w' r r'.
  assert (H1 : is_write r = true) by reflexivity.
  assert (H2 : is_write r' = true) by reflexivity.
  assert (H3 : consistent (LoadEnv._cache Example.seeded)).
  { apply setitem_consistent, empty_consistent. }
  assert (H4 : py_or (LoadEnv.request_project r) (LoadEnv.project_id Example.seeded)
               = Some "test_project") by reflexivity.
  assert (H5 : "test_project" <> "") by discriminate.
  assert (H6 : result_of (LoadEnv.perform w r) Example.seeded
               = inr (LoadEnv.VDescriptor [("id", "secret_123")])) by reflexivity.
  assert (H7 : now w <= now w') by (simpl; lia).
  assert (H8 : forall p',
             py_or (LoadEnv.request_project r') (LoadEnv.project_id Example.seeded) = Some p' ->
             p' = "test_project") by (intros p' [= <-]; reflexivity).
  assert (H9 : LoadEnv.kwarg "dev" (LoadEnv.request_env r')
               = LoadEnv.kwarg "dev" (LoadEnv.request_env r)) by reflexivity.
  split; [exact H3|]. split; [exact H6|].
  exact (second_write_changes_nothing w w' r r' Example.seeded "test_project" _
           H1 H2 H3 H4 H5 H6 H7 H8 H9).
Defined.

(** ** Cache keys and scopes *)

Lemma split_at_delimiter (a b x y : string) :
  no_delimiter a = true -> no_delimiter b = true ->
  (a ++ ":" ++ x)%string = (b ++ ":" ++ y)%string -> a = b /\ x = y.
Proof.
  revert b. induction a as [|c a IH]; intros [|d b] Ha Hb H;
    cbn [no_delimiter append] in *.
  - injection H as ->. auto.
  - injection H as <- _. apply andb_true_iff in Hb as [Hd _].
    now rewrite Ascii.eqb_refl in Hd.
  - injection H as -> _. apply andb_true_iff in Ha as [Hc _].
    now rewrite Ascii.eqb_refl in Hc.
  - injection H as -> H.
    apply andb_true_iff in Ha as [_ Ha]. apply andb_true_iff in Hb as [_ Hb].
    destruct (IH b Ha Hb H) as [-> ->]. auto.
Qed.

(** X11.  When the project, the environment and the path contain no [":"], the
    cache key determines all four of project, environment, path and secret
    name (which may itself contain [":"]): two reads share a cache entry only
    if they are reads of the same secret in the same scope. *)
Theorem cache_key_injective (p e path name p' e' path' name' : string) :
  no_delimiter p = true -> no_delimiter e = true -> no_delimiter path = true ->
  no_delimiter p' = true -> no_delimiter e' = true -> no_delimiter path' = true ->
  LoadEnv.cache_key p e path name = LoadEnv.cache_key p' e' path' name' ->
  p = p' /\ e = e' /\ path = path' /\ name = name'.
Proof.
  intros Hp He Hpath Hp' He' Hpath' H.
  unfold LoadEnv.cache_key, LoadEnv._key in H. rewrite !append_assoc in H.
  apply split_at_delimiter in H as [-> H]; [|assumption|assumption].
  apply split_at_delimiter in H as [-> H]; [|assumption|assumption].
  apply split_at_delimiter in H as [-> ->]; auto.
Qed.

Lemma cache_key_injective_witness :
  no_delimiter "test_project" = true /\ no_delimiter "dev" = true /\
  no_delimiter "/custom/path" = true /\ no_delimiter "" = true /\
  LoadEnv.cache_key "test_project" "dev" "/custom/path" "DB:PASSWORD"
  <> LoadEnv.cache_key "test_project" "dev" "" "/custom/path:DB:PASSWORD".
Proof.
  split; [reflexivity|]. split; [reflexivity|]. split; [reflexivity|].
  split; [reflexivity|].
  intros H.
  destruct (cache_key_injective "test_project" "dev" "/custom/path" "DB:PASSWORD"
              "test_project" "dev" "" "/custom/path:DB:PASSWORD"
              eq_refl eq_refl eq_refl eq_refl eq_refl eq_refl H)
    as (_ & _ & Hpath & _).
  discriminate Hpath.
Defined.

Lemma cache_key_shift (p e path x name : string) :
  LoadEnv.cache_key p e (path ++ ":" ++ x) name
  = LoadEnv.cache_key p e path (x ++ ":" ++ name).
Proof. unfold LoadEnv.cache_key, LoadEnv._key. now rewrite !append_assoc. Qed.

(** X12.  With a [":"] in a path the key is ambiguous, and the cache answers for
    the wrong secret: when the secret named [x:name] of the path [path] is in
    the cache and not expired, a [get] of the secret named [name] at the path
    [path:x] is served the value of that other secret, without any remote
    call. *)
Theorem delimiter_in_path_serves_another_secret (w : World) (self : LoadEnv.t)
    (name x path : string) (project env client_id client_secret : option string)
    (p : string) :
  py_or project (LoadEnv.project_id self) = Some p -> p <> "" ->
  let e := LoadEnv.kwarg "dev" env in
  let other := LoadEnv.cache_key p e path (x ++ ":" ++ name) in
  let call := LoadEnv.get w name project env (Some (path ++ ":" ++ x)%string)
                client_id client_secret in
  TTLCache.contains (LoadEnv._cache self) (now w) other = true ->
  exists l, TTLCache.find_link other (LoadEnv._cache self) = Some l /\
            result_of call self = inr (TTLCache.link_value l) /\
            events_of call self = [CacheContains other; CacheGetitem other].
Proof.
  intros Hp Hne e other call Hc.
  apply contains_find in Hc as (l & Hf & Hl). exists l. split; [assumption|].
  assert (Hk : LoadEnv.cache_key p (LoadEnv.kwarg "dev" env)
                 (LoadEnv.kwarg "" (Some (path ++ ":" ++ x)%string)) name = other).
  { simpl. apply cache_key_shift. }
  pose proof (get_hit w self name project env (Some (path ++ ":" ++ x)%string)
                client_id client_secret p l Hp Hne) as Hget.
  cbv zeta in Hget. rewrite Hk in Hget.
  unfold result_of, events_of, call. rewrite (Hget Hf Hl). split; reflexivity.
Qed.

Lemma delimiter_in_path_serves_another_secret_witness :
  let self :=
    state_after (LoadEnv.get (Example.world 0 (Example.answering "password_of_db"))
                   "db:PASSWORD" (Some "P") None (Some "/app") None None)
      Example.load_env in
  TTLCache.contains (LoadEnv._cache self) 1
    (LoadEnv.cache_key "P" "dev" "/app" ("db" ++ ":" ++ "PASSWORD")) = true /\
  result_of (LoadEnv.get (Example.world 1 (Example.answering "another_password"))
               "PASSWORD" (Some "P") None (Some "/app:db") None None) self
  = inr (mkSecretStr "password_of_db").
Proof.
  intros self.
  assert (H1 : py_or (Some "P") (LoadEnv.project_id self) = Some "P") by reflexivity.
  assert (H2 : "P" <> "") by discriminate.
  assert (H3 : TTLCache.contains (LoadEnv._cache self)
                 (now (Example.world 1 (Example.answering "another_password")))
                 (LoadEnv.cache_key "P" (LoadEnv.kwarg "dev" None) "/app"
                    ("db" ++ ":" ++ "PASSWORD")) = true) by reflexivity.
  split; [exact H3|].
  destruct (delimiter_in_path_serves_another_secret
              (Example.world 1 (Example.answering "another_password")) self
              "PASSWORD" "db" "/app" (Some "P") None None None "P" H1 H2 H3)
    as (l & Hf & Hr & _).
  transitivity (@inr Exception SecretStr (TTLCache.link_value l)); [exact Hr|]. f_equal.
  assert (Hfind : TTLCache.find_link
                    (LoadEnv.cache_key "P" (LoadEnv.kwarg "dev" None) "/app"
                       ("db" ++ ":" ++ "PASSWORD")) (LoadEnv._cache self)
                  = Some (TTLCache.mkLink "P:dev:/app:db:PASSWORD"
                            (mkSecretStr "password_of_db") 3600)) by reflexivity.
  rewrite Hfind in Hf. now injection Hf as <-.
Defined.

(** ** Empty overrides *)

(** X7.  An empty string given for the project, for the path or for a credential
    is no override at all: every operation called with [project=""] or
    [path=""] behaves exactly as when the argument is left out, and [get]
    called with [client_id=""] or [client_secret=""] as with the credential
    left out. *)
Theorem empty_override_is_no_override (w : World) (r : LoadEnv.Request)
    (self : LoadEnv.t) :
  LoadEnv.perform w (with_project (Some "") r) self
    = LoadEnv.perform w (with_project None r) self /\
  LoadEnv.perform w (with_path (Some "") r) self
    = LoadEnv.perform w (with_path None r) self /\
  (forall key project env path client_secret,
     LoadEnv.get w key project env path (Some "") client_secret self
     = LoadEnv.get w key project env path None client_secret self) /\
  (forall key project env path client_id,
     LoadEnv.get w key project env path client_id (Some "") self
     = LoadEnv.get w key project env path client_id None self).
Proof.
  split; [now destruct r|]. split; [now destruct r|]. split; reflexivity.
Qed.

(** ** The dictionary of [get_all] *)

Section Dictionary.

Import LoadEnv.

Lemma dict_get_set d k v k' :
  dict_get (dict_set d k v) k' = if (k =? k')%string then Some v else dict_get d k'.
Proof.
  induction d as [|[k0 v0] d IH]; simpl.
  - reflexivity.
  - destruct (String.eqb_spec k0 k) as [->|Hne]; simpl.
    + now destruct (k =? k')%string.
    + rewrite IH. destruct (String.eqb_spec k0 k') as [->|Hne'].
      * apply String.eqb_neq in Hne. rewrite String.eqb_sym. now rewrite Hne.
      * reflexivity.
Qed.

Lemma in_dict_set_keys d k v x :
  In x (map fst (dict_set d k v)) -> x = k \/ In x (map fst d).
Proof.
  induction d as [|[k0 v0] d IH]; simpl.
  - intros [<-|[]]. now left.
  - destruct (String.eqb_spec k0 k) as [->|Hne]; simpl.
    + intros [<-|H]; auto.
    + intros [<-|H]; [auto|]. destruct (IH H); auto.
Qed.

Lemma dict_set_nodup d k v : NoDup (map fst d) -> NoDup (map fst (dict_set d k v)).
Proof.
  induction d as [|[k0 v0] d IH]; simpl; intros Hnd.
  - constructor; [intros []|constructor].
  - inversion Hnd as [|? ? Hnotin Hnd']; subst.
    destruct (String.eqb_spec k0 k) as [->|Hne]; simpl.
    + now constructor.
    + constructor; [|auto]. intros Hin.
      apply in_dict_set_keys in Hin as [->|Hin]; contradiction.
Qed.

Lemma dict_set_length d k v : (length (dict_set d k v) <= S (length d))%nat.
Proof.
  induction d as [|[k0 v0] d IH]; simpl; [lia|].
  destruct (k0 =? k)%string; simpl; lia.
Qed.

Lemma collect_get records : forall acc k,
  dict_get (collect records acc) k =
    match last_value k records with
    | Some v => Some (mkSecretStr v)
    | None => dict_get acc k
    end.
Proof.
  induction records as [|secret rest IH]; intros acc k; simpl; [reflexivity|].
  destruct (SDK.secret_key secret) as [k0|], (SDK.secret_value secret) as [v0|];
    rewrite IH; destruct (last_value k rest); try reflexivity.
  rewrite dict_get_set. now destruct (k0 =? k)%string.
Qed.

Lemma collect_nodup records : forall acc,
  NoDup (map fst acc) -> NoDup (map fst (collect records acc)).
Proof.
  induction records as [|secret rest IH]; intros acc H; simpl; [assumption|].
  destruct (SDK.secret_key secret) as [k0|], (SDK.secret_value secret) as [v0|];
    auto using dict_set_nodup.
Qed.

Lemma collect_length records : forall acc,
  (length (collect records acc) <= length records + length acc)%nat.
Proof.
  induction records as [|secret rest IH]; intros acc; simpl; [lia|].
  destruct (SDK.secret_key secret) as [k0|], (SDK.secret_value secret) as [v0|];
    try (specialize (IH acc); lia).
  specialize (IH (dict_set acc k0 (mkSecretStr v0))).
  pose proof (dict_set_length acc k0 (mkSecretStr v0)). lia.
Qed.

End Dictionary.

(** X2.  When the listing succeeds, [get_all] returns a dictionary in which every
    name maps to the value of the last listed record that has that name and
    a value: records without a name or without a value are skipped, a name
    listed twice keeps its last value, each name appears once, and there are
    no more entries than records.  The listing is asked for the resolved
    path with references expanded, values shown, no recursion, imports
    included and no tag filter, and [self] is left as it was. *)
Theorem get_all_last_value_wins (w : World) (self : LoadEnv.t)
    (project env path : option string) (p : string) (records : list SDK.BaseSecret) :
  py_or project (LoadEnv.project_id self) = Some p -> p <> "" ->
  let args := SDK.list_secrets p (LoadEnv.kwarg "dev" env)
                (or_str (Some (LoadEnv.kwarg "" path)) (LoadEnv.secret_path self))
                true true false true [] in
  SDK.listing (client w) args = inr records ->
  exists d,
    LoadEnv.get_all w project env path self
      = (inr d, self, [RemoteCall (SDK.List args) None]) /\
    (forall k, dict_get d k = option_map mkSecretStr (last_value k records)) /\
    NoDup (map fst d) /\
    (length d <= length records)%nat.
Proof.
  intros Hp Hne args Hlist. exists (LoadEnv.collect records []).
  split; [|split; [|split]].
  - unfold LoadEnv.get_all. cbv zeta.
    rewrite (bind_inr _ _ _ _ _ _ (resolve_project_ok project self p Hp Hne)).
    unfold LoadEnv.bind, LoadEnv.attr, LoadEnv.remote, LoadEnv.ret.
    subst args. simpl in Hlist |- *. now rewrite Hlist.
  - intros k. rewrite collect_get. now destruct (last_value k records).
  - apply collect_nodup. constructor.
  - pose proof (collect_length records []). simpl in *. lia.
Qed.

Lemma get_all_last_value_wins_witness :
  let w := Example.world 1 Listing.listing_client in
  py_or (Some "test_project") (LoadEnv.project_id Example.load_env) = Some "test_project" /\
  exists d,
    result_of (LoadEnv.get_all w (Some "test_project") None None) Example.load_env = inr d /\
    dict_get d "SECRET_1" = Some (mkSecretStr "value_2") /\
    dict_get d "SECRET_2" = None.
Proof.
  intros w.
  assert (H1 : py_or (Some "test_project") (LoadEnv.project_id Example.load_env)
               = Some "test_project") by reflexivity.
  assert (H2 : "test_project" <> "") by discriminate.
  assert (H3 : SDK.listing (client w)
                 (SDK.list_secrets "test_project" (LoadEnv.kwarg "dev" None)
                    (or_str (Some (LoadEnv.kwarg "" None))
                       (LoadEnv.secret_path Example.load_env))
                    true true false true [])
               = inr Listing.records) by reflexivity.
  split; [exact H1|].
  destruct (get_all_last_value_wins w Example.load_env (Some "test_project") None None
              "test_project" Listing.records H1 H2 H3) as (d & Hrun & Hget & _).
  exists d. split; [unfold result_of; now rewrite Hrun|].
  split; [apply (Hget "SECRET_1")|apply (Hget "SECRET_2")].
Defined.

(** ** What a store keeps *)

Section Room.

Import TTLCache.

Lemma expire_find_live c now k :
  contains c now k = true -> find_link k (expire c now) = find_link k c.
Proof.
  intros Hc. apply contains_find in Hc as (l & Hf & Hl).
  destruct (expire_suffix c now) as (d & Hd & Hdead).
  unfold find_link in *. rewrite Hd in Hf |- *. rewrite find_app in Hf |- *.
  destruct (find (has_key k) d) as [x|] eqn:E; [|reflexivity].
  injection Hf as ->. apply find_has_key in E as [Hin _].
  rewrite Forall_forall in Hdead. rewrite (Hdead l Hin) in Hl. discriminate.
Qed.

Lemma make_room_enough fuel c now :
  currsize c + 1 <= maxsize c -> make_room fuel c now = (inr tt, c).
Proof.
  intros H. assert (E : (currsize c + 1 >? maxsize c) = false) by lia.
  destruct fuel; simpl; now rewrite E.
Qed.

(** With room left, a successful [setitem] leaves every other live entry as
    it is. *)
Lemma setitem_keeps_live c now k v c' k' :
  setitem c now k v = (inr tt, c') ->
  currsize c < maxsize c -> k' <> k -> contains c now k' = true ->
  find_link k' c' = find_link k' c.
Proof.
  intros Hset Hroom Hne Hlive.
  assert (Hroom0 : currsize (expire c now) + 1 <= maxsize (expire c now)).
  { rewrite expire_maxsize. unfold currsize in *.
    pose proof (expire_length c now). lia. }
  rewrite setitem_eq in Hset. cbv zeta in Hset.
  rewrite (make_room_enough _ _ _ Hroom0) in Hset.
  destruct (1 >? maxsize (expire c now)); [discriminate|].
  assert (Hc' : c' = store (expire c now) now k v).
  { destruct (in_data k (expire c now)); now injection Hset as <-. }
  rewrite Hc', stored_find_other by assumption.
  now apply expire_find_live.
Qed.

End Room.

(** X9.  While the cache is not full, caching one secret costs no other: when a
    [get] misses, fetches and returns on a cache that holds fewer entries
    than its capacity, every other key that was live before the call is in
    the cache after it with the same value and the same expiry time. *)
Theorem get_with_room_evicts_nothing (w : World) (self : LoadEnv.t) (key : string)
    (project env path client_id client_secret : option string) (p : string)
    (v : SecretStr) :
  py_or project (LoadEnv.project_id self) = Some p -> p <> "" ->
  let k := LoadEnv.cache_key p (LoadEnv.kwarg "dev" env) (LoadEnv.kwarg "" path) key in
  let call := LoadEnv.get w key project env path client_id client_secret in
  TTLCache.contains (LoadEnv._cache self) (now w) k = false ->
  result_of call self = inr v ->
  TTLCache.currsize (LoadEnv._cache self) < TTLCache.maxsize (LoadEnv._cache self) ->
  forall k', TTLCache.contains (LoadEnv._cache self) (now w) k' = true ->
    TTLCache.find_link k' (LoadEnv._cache (state_after call self))
    = TTLCache.find_link k' (LoadEnv._cache self) /\
    TTLCache.contains (LoadEnv._cache (state_after call self)) (now w) k' = true.
Proof.
  intros Hp Hne k call Hmiss Hres Hroom k' Hlive.
  destruct (get_miss_stored w self key project env path client_id client_secret p
              Hp Hne v Hmiss Hres) as (c' & Hset & Hstate & _).
  fold k in Hset. unfold call. rewrite Hstate. simpl.
  assert (Hk : k' <> k) by (intros ->; congruence).
  pose proof (setitem_keeps_live _ _ _ _ _ k' Hset Hroom Hk Hlive) as Hsame.
  split; [assumption|]. unfold TTLCache.contains in *. now rewrite Hsame.
Qed.

Lemma get_with_room_evicts_nothing_witness :
  let w := Example.world 1 (Example.answering "fresh_value") in
  let call := LoadEnv.get w "OTHER_SECRET" (Some "test_project") None None None None in
  result_of call Example.seeded = inr (mkSecretStr "fresh_value") /\
  TTLCache.currsize (LoadEnv._cache Example.seeded)
    < TTLCache.maxsize (LoadEnv._cache Example.seeded) /\
  TTLCache.contains (LoadEnv._cache Example.seeded) 1 "test_project:dev::TEST_SECRET"
    = true /\
  TTLCache.contains (LoadEnv._cache (state_after call Example.seeded)) 1
    "test_project:dev::TEST_SECRET" = true.
Proof.
  intros w call.
  assert (H1 : py_or (Some "test_project") (LoadEnv.project_id Example.seeded)
               = Some "test_project") by reflexivity.
  assert (H2 : "test_project" <> "") by discriminate.
  assert (H3 : TTLCache.contains (LoadEnv._cache Example.seeded) (now w)
                 (LoadEnv.cache_key "test_project" (LoadEnv.kwarg "dev" None)
                    (LoadEnv.kwarg "" None) "OTHER_SECRET") = false) by reflexivity.
  assert (H4 : result_of call Example.seeded = inr (mkSecretStr "fresh_value"))
    by reflexivity.
  assert (H5 : TTLCache.currsize (LoadEnv._cache Example.seeded)
               < TTLCache.maxsize (LoadEnv._cache Example.seeded)) by reflexivity.
  assert (H6 : TTLCache.contains (LoadEnv._cache Example.seeded) (now w)
                 "test_project:dev::TEST_SECRET" = true) by reflexivity.
  split; [exact H4|]. split; [exact H5|]. split; [exact H6|].
  destruct (get_with_room_evicts_nothing w Example.seeded "OTHER_SECRET"
              (Some "test_project") None None None None "test_project"
              (mkSecretStr "fresh_value") H1 H2 H3 H4 H5
              "test_project:dev::TEST_SECRET" H6) as [_ Hc].
  exact Hc.
Defined.

(** ** Construction *)

(** X18.  Construction succeeds exactly when the SDK client can be built from the
    default credentials, and fails with the exception of that construction
    otherwise.  A facade just built has nothing cached: no key is in its
    cache at any time, so the first [get] of any secret turns to the remote
    side. *)
Theorem fresh_facade_has_nothing_cached (w0 : World) (environ : string -> option string)
    (id secret : option string) :
  let client_id := or_str id (LoadEnv.getenv_default environ "INFISICAL_MACHINE_ID" "") in
  let client_secret :=
    or_str secret (LoadEnv.getenv_default environ "INFISICAL_SECRET_KEY" "") in
  (forall e, LoadEnv.__init__ w0 environ id secret = inl e <->
             _SDK w0 client_id client_secret = inl e) /\
  (forall self, LoadEnv.__init__ w0 environ id secret = inr self ->
     LoadEnv._default_client_id self = client_id /\
     LoadEnv._default_client_secret self = client_secret /\
     (forall t k, TTLCache.contains (LoadEnv._cache self) t k = false) /\
     (forall w key project env path cid cs p,
        py_or project (LoadEnv.project_id self) = Some p -> p <> "" ->
        exists e, In e (events_of (LoadEnv.get w key project env path cid cs) self)
                  /\ is_remote e = true)).
Proof.
  intros client_id client_secret. split.
  - intros e. unfold LoadEnv.__init__. cbv zeta. simpl.
    fold client_id client_secret.
    destruct (_SDK w0 client_id client_secret) as [e'|c]; split; congruence.
  - intros self Hinit. pose proof (init_cache _ _ _ _ _ Hinit) as Hc.
    unfold LoadEnv.__init__ in Hinit. cbv zeta in Hinit. simpl in Hinit.
    destruct (_SDK w0 _ _); [discriminate|]. injection Hinit as <-. simpl.
    split; [reflexivity|]. split; [reflexivity|]. split; [reflexivity|].
    intros w key project env path cid cs p Hp Hne.
    apply get_miss_remote with (p := p); [assumption|assumption|reflexivity].
Qed.

Lemma reachable_valid_witness :
  let steps := [(Example.world 1 (Example.answering "v"), Example.get_test_secret);
                (Example.world 1 (Example.answering "v"), Example.create_in_app);
                (Example.world 5 (Example.failing "SDK error"), Example.get_test_secret)] in
  monotone 0 steps /\
  valid 5 (LoadEnv._cache (LoadEnv.run steps Example.load_env)).
Proof.
  intros steps.
  assert (H1 : LoadEnv.__init__ (Example.world 0 (Example.answering "v"))
                 Example.no_environ (Some "test_client_id") (Some "test_client_secret")
               = inr Example.load_env) by reflexivity.
  assert (H2 : monotone 0 steps) by (simpl; lia).
  split; [exact H2|].
  destruct (reachable_valid (Example.world 0 (Example.answering "v")) Example.no_environ
              (Some "test_client_id") (Some "test_client_secret") Example.load_env 0
              steps H1 H2) as [Hv _].
  exact Hv.
Defined.

(** ** Remote calls per operation *)

Section Calls.

Import LoadEnv.

Lemma calls_app ev1 ev2 : calls (ev1 ++ ev2) = (calls ev1 + calls ev2)%nat.
Proof. unfold calls. now rewrite filter_app, length_app. Qed.

Lemma no_call_calls {A} (m : M A) self :
  emits (fun e => negb (is_call e)) m -> calls (events_of m self) = 0%nat.
Proof.
  intros H. specialize (H self). unfold calls.
  rewrite filter_none; [reflexivity|].
  intros x Hx. rewrite Forall_forall in H. specialize (H x Hx).
  now apply negb_true_iff in H.
Qed.

Lemma no_call_once {A} (m : M A) : emits (fun e => negb (is_call e)) m -> calls_once m.
Proof. intros H self. rewrite (no_call_calls m self H). lia. Qed.

Lemma calls_once_after {A B} (m : M A) (f : A -> M B) :
  emits (fun e => negb (is_call e)) m -> (forall a, calls_once (f a)) ->
  calls_once (bind m f).
Proof.
  intros Hm Hf self. rewrite bind_events. pose proof (no_call_calls m self Hm) as H0.
  destruct (result_of m self) as [e|a]; [lia|].
  rewrite calls_app, H0. apply Hf.
Qed.

Lemma calls_once_before {A B} (m : M A) (f : A -> M B) :
  calls_once m -> (forall a, emits (fun e => negb (is_call e)) (f a)) ->
  calls_once (bind m f).
Proof.
  intros Hm Hf self. rewrite bind_events.
  destruct (result_of m self) as [e|a]; [apply Hm|].
  rewrite calls_app, (no_call_calls (f a) _ (Hf a)). specialize (Hm self). lia.
Qed.

Lemma remote_calls_once {A} c (answer : Exception + A) : calls_once (remote c answer).
Proof. intros self. unfold calls. simpl. lia. Qed.

Lemma resolve_project_no_call project :
  emits (fun e => negb (is_call e)) (resolve_project project).
Proof. unfold resolve_project. emits_steps. Qed.

Lemma invalidate_no_call w p env path :
  emits (fun e => negb (is_call e)) (invalidate w p env path).
Proof. unfold invalidate. emits_steps. Qed.

Lemma perform_calls_once w r : calls_once (perform w r).
Proof.
  destruct r; unfold perform, fmap, get, get_all, list_secrets, create_secret,
    update_secret, secret_by_name; cbv zeta.
  all: apply calls_once_before; [|intros ?; apply emits_ret].
  all: apply calls_once_after; [apply resolve_project_no_call|intros project_id].
  - apply calls_once_after; [emits_steps|intros hit].
    destruct hit; [apply no_call_once; emits_steps|].
    apply calls_once_after; [emits_steps|intros sdk].
    apply calls_once_after; [emits_steps|intros default_path].
    apply calls_once_before; [apply remote_calls_once|intros secret]. emits_steps.
  - apply calls_once_after; [emits_steps|intros default_path].
    apply calls_once_before; [apply remote_calls_once|intros ?]. emits_steps.
  - apply calls_once_after; [emits_steps|intros default_path].
    apply remote_calls_once.
  - apply calls_once_after; [emits_steps|intros default_path].
    apply calls_once_before; [apply remote_calls_once|intros result].
    apply emits_bind; [apply invalidate_no_call|intros ?; apply emits_ret].
  - apply calls_once_after; [emits_steps|intros default_path].
    apply calls_once_before; [apply remote_calls_once|intros ?].
    apply invalidate_no_call.
  - apply calls_once_after; [emits_steps|intros default_path].
    apply remote_calls_once.
Qed.

End Calls.

(** X5.  No operation calls the remote service more than once, whatever it is
    given and however the call ends: a failed call is not retried, and
    [get_all] and the invalidation of a write issue no call per secret. *)
Theorem at_most_one_remote_call (w : World) (r : LoadEnv.Request) (self : LoadEnv.t) :
  (calls (events_of (LoadEnv.perform w r) self) <= 1)%nat.
Proof. apply perform_calls_once. Qed.

(** ** The order of a write *)

Section WriteOrder.

Import LoadEnv.

Variable w : World.

Lemma emits_for_each_in Q {A} (l : list A) body :
  (forall x, In x l -> emits Q (body x)) -> emits Q (for_each l body).
Proof.
  induction l as [|x l IH]; simpl; intros H; [apply emits_ret|].
  apply emits_bind; [apply H; now left|intros _]. apply IH. intros y Hy. apply H. now right.
Qed.

Lemma scope_prefix p env path k :
  startswith k (_key p env path) = true -> startswith k (_key p env "") = true.
Proof.
  intros H. apply startswith_trans with (p := _key p env path); [assumption|].
  unfold _key.
  replace (p ++ ":" ++ env ++ ":" ++ path)%string
    with ((p ++ ":" ++ env ++ ":" ++ "") ++ path)%string by now rewrite !append_assoc.
  apply startswith_append.
Qed.

(** Whatever the state of the cache, the invalidation only lists the keys
    and deletes keys of its project and environment. *)
Lemma invalidate_within_scope p env path :
  emits (invalidates_within (_key p env "")) (invalidate w p env path).
Proof.
  unfold invalidate.
  apply emits_bind; [apply emits_attr|intros default_path].
  apply emits_for_each_in. intros path_to_check _.
  apply emits_bind; [apply emits_cache_keys; reflexivity|intros ks].
  apply emits_for_each_in. intros k Hk. apply filter_In in Hk as [_ Hk].
  apply emits_cache_delitem. simpl. now apply scope_prefix with (path := path_to_check).
Qed.

End WriteOrder.

(** X13.  A write asks the remote side first and touches the cache only after the
    answer: the events of [create_secret] and [update_secret] with a project
    begin with the one remote call, and what follows, whatever the state of
    the cache and even if a deletion raises, is only listings of the keys and
    deletions of keys that start with the prefix [project:env:] of the write.
    When the remote call fails the cache is not touched at all.  A key that
    starts with that prefix need not be a key of that project and
    environment: a project or an environment with a [":"] inside can share
    the prefix.  When neither the project and the environment of the write
    nor those of a key contain [":"], the key is deleted only if it is a key
    of the project and the environment of the write. *)
Theorem write_calls_remote_then_invalidates (w : World) (r : LoadEnv.Request)
    (self : LoadEnv.t) (p : string) :
  is_write r = true ->
  py_or (LoadEnv.request_project r) (LoadEnv.project_id self) = Some p -> p <> "" ->
  let env := LoadEnv.kwarg "dev" (LoadEnv.request_env r) in
  exists c failure rest,
    events_of (LoadEnv.perform w r) self = RemoteCall c failure :: rest /\
    Forall (fun e => invalidates_within (LoadEnv._key p env "") e = true) rest /\
    (failure <> None -> rest = []) /\
    (no_delimiter p = true -> no_delimiter env = true ->
     forall p' env' path' name,
       no_delimiter p' = true -> no_delimiter env' = true ->
       In (CacheDelitem (LoadEnv.cache_key p' env' path' name)) rest ->
       p' = p /\ env' = env).
Proof.
  intros Hw Hp Hne env.
  assert (Hscope : forall rest,
            Forall (fun e => invalidates_within (LoadEnv._key p env "") e = true) rest ->
            no_delimiter p = true -> no_delimiter env = true ->
            forall p' env' path' name,
              no_delimiter p' = true -> no_delimiter env' = true ->
              In (CacheDelitem (LoadEnv.cache_key p' env' path' name)) rest ->
              p' = p /\ env' = env).
  { intros rest Hall Hdp Hde p' env' path' name Hdp' Hde' Hin.
    rewrite Forall_forall in Hall. specialize (Hall _ Hin). simpl in Hall.
    now apply key_of_other_scope with path' name. }
  unfold env in *. clear env.
  pose proof (resolve_project_ok _ _ _ Hp Hne) as Hr.
  pose proof (invalidate_within_scope w p (LoadEnv.kwarg "dev" (LoadEnv.request_env r))
                (request_path r) self) as Hinv.
  unfold events_of in Hinv.
  destruct r; try discriminate; simpl in Hr, Hinv |- *;
    unfold events_of, LoadEnv.perform, LoadEnv.fmap;
    [unfold LoadEnv.create_secret|unfold LoadEnv.update_secret]; cbv zeta;
    unfold LoadEnv.bind; rewrite Hr; unfold LoadEnv.attr, LoadEnv.remote, LoadEnv.ret.
  - destruct (SDK.create (client w) _) as [e'|d]; simpl.
    + eexists. eexists. eexists. split; [reflexivity|]. split; [constructor|].
      split; [reflexivity|]. intros _ _ p' env' path' name _ _ [].
    + destruct (LoadEnv.invalidate w p _ _ self) as [[[e|[]] s'] ev]; simpl in *;
        (eexists; eexists; eexists; split; [reflexivity|]);
        rewrite ?app_nil_r;
        (split; [assumption|split; [congruence|now apply Hscope]]).
  - destruct (SDK.update (client w) _) as [e'|[]]; simpl.
    + eexists. eexists. eexists. split; [reflexivity|]. split; [constructor|].
      split; [reflexivity|]. intros _ _ p' env' path' name _ _ [].
    + destruct (LoadEnv.invalidate w p _ _ self) as [[[e|[]] s'] ev]; simpl in *;
        (eexists; eexists; eexists; split; [reflexivity|]);
        rewrite ?app_nil_r;
        (split; [assumption|split; [congruence|now apply Hscope]]).
Qed.

Lemma write_calls_remote_then_invalidates_witness :
  let w := Example.world 1 (Example.answering "v") in
  is_write Example.create_in_app = true /\
  exists c failure rest,
    events_of (LoadEnv.perform w Example.create_in_app) Example.with_other_path
      = RemoteCall c failure :: rest /\
    Forall (fun e => invalidates_within "P:dev:" e = true) rest /\
    (forall path' name, ~ In (CacheDelitem (LoadEnv.cache_key "Q" "dev" path' name)) rest).
Proof.
  intros w.
  assert (H1 : is_write Example.create_in_app = true) by reflexivity.
  assert (H2 : py_or (LoadEnv.request_project Example.create_in_app)
                 (LoadEnv.project_id Example.with_other_path) = Some "P") by reflexivity.
  assert (H3 : "P" <> "") by discriminate.
  split; [exact H1|].
  destruct (write_calls_remote_then_invalidates w Example.create_in_app
              Example.with_other_path "P" H1 H2 H3)
    as (c & failure & rest & He & Hall & _ & Hscope).
  exists c, failure, rest. split; [exact He|]. split; [exact Hall|].
  intros path' name Hin.
  destruct (Hscope eq_refl eq_refl "Q" "dev" path' name eq_refl eq_refl Hin) as [HQ _].
  discriminate HQ.
Defined.

(** ** Defaults and overrides *)

(** X6.  No operation changes the defaults of the instance: after any sequence of
    operations the default project, the default environment, the default path
    and the default credentials are what the constructor set, whatever
    project, environment, path or credentials the calls were given.  An
    override counts for its call only; only the cache changes. *)
Theorem overrides_are_not_retained (steps : list (World * LoadEnv.Request))
    (self : LoadEnv.t) :
  let self' := LoadEnv.run steps self in
  self' = LoadEnv.set_cache self (LoadEnv._cache self') /\
  LoadEnv.project_id self' = LoadEnv.project_id self /\
  LoadEnv.environment_slug self' = LoadEnv.environment_slug self /\
  LoadEnv.secret_path self' = LoadEnv.secret_path self /\
  LoadEnv._default_client_id self' = LoadEnv._default_client_id self /\
  LoadEnv._default_client_secret self' = LoadEnv._default_client_secret self.
Proof.
  assert (H : LoadEnv.run steps self
              = LoadEnv.set_cache self (LoadEnv._cache (LoadEnv.run steps self))).
  { revert self. induction steps as [|[w r] steps IH]; intros self; simpl.
    - symmetry. apply set_cache_same.
    - rewrite IH.
      destruct (perform_keeps w (fun _ => True) (fun _ _ _ => I) (fun _ _ _ _ => I)
                  (fun _ _ _ => I) r self I) as [_ Hframe].
      unfold state_after in Hframe. rewrite Hframe at 1. reflexivity. }
  cbv zeta. split; [exact H|]. rewrite H. repeat split.
Qed.

(** X19.  The credentials that [LoadEnv] takes as its defaults are those of the
    [InfisicalSecrets] model built from the same arguments and the same
    process environment, whenever each argument is left out or is not empty.
    (For an argument given as the empty string the two differ: the model
    keeps the empty string, [LoadEnv] falls back to the environment.) *)
Theorem default_credentials_agree (w0 : World) (environ : string -> option string)
    (id secret : option string) (self : LoadEnv.t) :
  id <> Some "" -> secret <> Some "" ->
  LoadEnv.__init__ w0 environ id secret = inr self ->
  LoadEnv._default_client_id self
    = InfisicalSecrets.machine_identity_client_id (InfisicalSecrets.new environ id secret) /\
  LoadEnv._default_client_secret self
    = InfisicalSecrets.machine_identity_client_secret
        (InfisicalSecrets.new environ id secret).
Proof.
  intros Hid Hsecret Hinit.
  unfold LoadEnv.__init__ in Hinit. cbv zeta in Hinit. simpl in Hinit.
  destruct (_SDK w0 _ _); [discriminate|]. injection Hinit as <-. simpl.
  split.
  - destruct id as [s|]; simpl; [|reflexivity].
    destruct (String.eqb_spec s ""); [congruence|reflexivity].
  - destruct secret as [s|]; simpl; [|reflexivity].
    destruct (String.eqb_spec s ""); [congruence|reflexivity].
Qed.

Lemma default_credentials_agree_witness :
  (Some "test_id" : option string) <> Some "" /\ (None : option string) <> Some "" /\
  LoadEnv._default_client_secret
    (LoadEnv.mk (TTLCache.empty 100 3600) "test_id" "env_secret_key"
                (Some "test_project") "staging" "/custom/path")
  = InfisicalSecrets.machine_identity_client_secret
      (InfisicalSecrets.new Example.environ (Some "test_id") None).
Proof.
  assert (H1 : (Some "test_id" : option string) <> Some "") by discriminate.
  assert (H2 : (None : option string) <> Some "") by discriminate.
  assert (H3 : LoadEnv.__init__ (Example.world 0 (Example.answering "v")) Example.environ
                 (Some "test_id") None
               = inr (LoadEnv.mk (TTLCache.empty 100 3600) "test_id" "env_secret_key"
                        (Some "test_project") "staging" "/custom/path")) by reflexivity.
  split; [exact H1|]. split; [exact H2|].
  destruct (default_credentials_agree (Example.world 0 (Example.answering "v"))
              Example.environ (Some "test_id") None _ H1 H2 H3) as [_ Hs].
  exact Hs.
Defined.

Lemma fresh_facade_has_nothing_cached_witness :
  LoadEnv.__init__ (Example.world 0 (Example.answering "v")) Example.environ None None
    = inr Example.staging_env /\
  TTLCache.contains (LoadEnv._cache Example.staging_env) 0
    "test_project:dev::TEST_SECRET" = false.
Proof.
  assert (H : LoadEnv.__init__ (Example.world 0 (Example.answering "v")) Example.environ
                None None = inr Example.staging_env) by reflexivity.
  split; [exact H|].
  destruct (fresh_facade_has_nothing_cached (Example.world 0 (Example.answering "v"))
              Example.environ None None) as [_ Hfresh].
  destruct (Hfresh Example.staging_env H) as (_ & _ & Hempty & _).
  exact (Hempty 0 "test_project:dev::TEST_SECRET").
Defined.

(** ** One secret under two keys *)

(** X10.  Leaving the path out and giving the default path explicitly are the same
    read for the remote side but two different keys for the cache: after a
    [get] without a path has fetched and cached a secret, a [get] of the same
    secret with the default path given explicitly does not find it (unless
    that other key was already in the cache) and fetches it again with the
    very same arguments. *)
Theorem explicit_default_path_is_fetched_again (w w' : World) (self : LoadEnv.t)
    (clock : Z) (key : string) (project env client_id client_secret : option string)
    (p : string) (sdk : SDK.Client) (ev : list Event) (secret : SDK.BaseSecret)
    (s : string) :
  valid clock (LoadEnv._cache self) -> clock <= now w ->
  py_or project (LoadEnv.project_id self) = Some p -> p <> "" ->
  LoadEnv.secret_path self <> "" ->
  let e := LoadEnv.kwarg "dev" env in
  let k_default := LoadEnv.cache_key p e (LoadEnv.secret_path self) key in
  TTLCache.contains (LoadEnv._cache self) (now w) (LoadEnv.cache_key p e "" key) = false ->
  TTLCache.find_link k_default (LoadEnv._cache self) = None ->
  pick_client w self client_id client_secret = (inr sdk, ev) ->
  SDK.fetch sdk (fetch_args self key p env None) = inr secret ->
  SDK.secret_value secret = Some s ->
  let first := LoadEnv.get w key project env None client_id client_secret in
  let self' := state_after first self in
  let second := LoadEnv.get w' key project env (Some (LoadEnv.secret_path self))
                  client_id client_secret in
  result_of first self = inr (mkSecretStr s) /\
  fetch_args self' key p env (Some (LoadEnv.secret_path self))
    = fetch_args self key p env None /\
  TTLCache.contains (LoadEnv._cache self') (now w') k_default = false /\
  exists x, In x (events_of second self') /\ is_remote x = true.
Proof.
  intros Hv Hclock Hp Hne Hdefault e k_default Hmiss Habsent Hpick Hfetch Hval
         first self' second.
  destruct (get_fetches w self clock key project env None client_id client_secret
              p sdk ev secret s Hv Hclock Hp Hne Hmiss Hpick Hfetch Hval)
    as (c' & Hset & _ & Hget).
  assert (Hdiff : k_default <> LoadEnv.cache_key p e "" key) by now apply cache_key_path.
  pose proof (setitem_absent_other _ _ _ _ _ _ Hset Hdiff Habsent) as Hnone.
  assert (Hstate : self' = LoadEnv.set_cache self c').
  { unfold self', state_after, first. now rewrite Hget. }
  rewrite Hstate. simpl.
  assert (Hgone : TTLCache.contains c' (now w') k_default = false).
  { unfold TTLCache.contains. now rewrite Hnone. }
  split; [unfold result_of, first; now rewrite Hget|].
  split.
  - unfold fetch_args. simpl.
    destruct (String.eqb_spec (LoadEnv.secret_path self) ""); [contradiction|reflexivity].
  - split; [assumption|].
    apply get_miss_remote with (p := p); assumption.
Qed.

Lemma explicit_default_path_is_fetched_again_witness :
  let w := Example.world 1 (Example.answering "fresh_value") in
  let w' := Example.world 2 (Example.answering "fresh_value") in
  let first := LoadEnv.get w "TEST_SECRET" None None None None None in
  valid 0 (LoadEnv._cache Example.staging_env) /\
  LoadEnv.secret_path Example.staging_env <> "" /\
  result_of first Example.staging_env = inr (mkSecretStr "fresh_value") /\
  TTLCache.contains (LoadEnv._cache (state_after first Example.staging_env)) 2
    (LoadEnv.cache_key "test_project" "dev" "/custom/path" "TEST_SECRET") = false.
Proof.
  intros w w' first.
  assert (H1 : valid 0 (LoadEnv._cache Example.staging_env)).
  { apply empty_valid. lia. }
  assert (H2 : 0 <= now w) by (simpl; lia).
  assert (H3 : py_or None (LoadEnv.project_id Example.staging_env)
               = Some "test_project") by reflexivity.
  assert (H4 : "test_project" <> "") by discriminate.
  assert (H5 : LoadEnv.secret_path Example.staging_env <> "") by discriminate.
  assert (H6 : TTLCache.contains (LoadEnv._cache Example.staging_env) (now w)
                 (LoadEnv.cache_key "test_project" (LoadEnv.kwarg "dev" None) ""
                    "TEST_SECRET") = false) by reflexivity.
  assert (H7 : TTLCache.find_link
                 (LoadEnv.cache_key "test_project" (LoadEnv.kwarg "dev" None)
                    (LoadEnv.secret_path Example.staging_env) "TEST_SECRET")
                 (LoadEnv._cache Example.staging_env) = None) by reflexivity.
  assert (H8 : pick_client w Example.staging_env None None
               = (inr (Example.answering "fresh_value"), [])) by reflexivity.
  assert (H9 : SDK.fetch (Example.answering "fresh_value")
                 (fetch_args Example.staging_env "TEST_SECRET" "test_project" None None)
               = inr (Example.secret "fresh_value")) by reflexivity.
  assert (H10 : SDK.secret_value (Example.secret "fresh_value") = Some "fresh_value")
    by reflexivity.
  destruct (explicit_default_path_is_fetched_again w w' Example.staging_env 0
              "TEST_SECRET" None None None None "test_project"
              (Example.answering "fresh_value") [] (Example.secret "fresh_value")
              "fresh_value" H1 H2 H3 H4 H5 H6 H7 H8 H9 H10) as (Hr & _ & Hgone & _).
  split; [exact H1|]. split; [exact H5|]. split; [exact Hr|exact Hgone].
Defined.

(** * Capacity and expiry along sequences of operations *)

(** ** The last elements of a list *)

Section Lastn.

Context {A : Type}.

Lemma lastn_all n (l : list A) : (length l <= n)%nat -> lastn n l = l.
Proof.
  intros H. unfold lastn. now replace (length l - n)%nat with 0%nat by lia.
Qed.

Lemma lastn_length n (l : list A) : length (lastn n l) = Nat.min n (length l).
Proof. unfold lastn. rewrite length_skipn. lia. Qed.

Lemma lastn_snoc_full n (x : A) (l : list A) (y : A) :
  length (x :: l) = n -> lastn n ((x :: l) ++ [y]) = l ++ [y].
Proof.
  intros H. unfold lastn. rewrite length_app, H. simpl length.
  now replace (n + 1 - n)%nat with 1%nat by lia.
Qed.

Lemma lastn_app_lastn n (a b : list A) : lastn n (lastn n a ++ b) = lastn n (a ++ b).
Proof.
  unfold lastn. rewrite !length_app, length_skipn, !skipn_app, skipn_skipn, length_skipn.
  f_equal; f_equal; lia.
Qed.

End Lastn.

Lemma distinct_nodup (l : list string) : distinct l = true -> NoDup l.
Proof.
  induction l as [|k l IH]; simpl; intros H; [constructor|].
  apply andb_true_iff in H as [Hk Hl]. constructor; [|auto].
  intros Hin. apply negb_true_iff in Hk.
  assert (Hex : existsb (String.eqb k) l = true).
  { apply existsb_exists. exists k. split; [assumption|apply String.eqb_refl]. }
  congruence.
Qed.

(** ** Storing a new key into a cache without expired entries *)

Section NewKey.

Import TTLCache.

Lemma forget_absent k order : ~ In k order -> forget k order = order.
Proof.
  intros H. unfold forget. induction order as [|x order IH]; simpl; [reflexivity|].
  destruct (String.eqb_spec x k) as [->|Hne]; simpl.
  - exfalso. apply H. now left.
  - f_equal. apply IH. intros Hin. apply H. now right.
Qed.

Lemma consistent_length c : consistent c -> length (links c) = length (root c).
Proof.
  intros [Hnd Hord Hlinks].
  assert (H1 : (length (links c) <= length (keys_of (root c)))%nat).
  { apply NoDup_incl_length; [assumption|]. intros k. apply Hlinks. }
  assert (H2 : (length (keys_of (root c)) <= length (links c))%nat).
  { apply NoDup_incl_length; [assumption|]. intros k. apply Hlinks. }
  unfold keys_of in *. rewrite length_map in *. lia.
Qed.

Lemma absent_links c k : consistent c -> find_link k c = None -> ~ In k (links c).
Proof.
  intros [_ _ Hlinks] Hf Hin. apply find_none_keys in Hf. apply Hf. now apply Hlinks.
Qed.

(** In a consistent cache without expired entries the keys that a read
    finds are those of the usage order. *)
Lemma fresh_contains c now k :
  consistent c -> fresh now c -> (contains c now k = true <-> In k (links c)).
Proof.
  intros [Hnd Hord Hlinks] Hf. rewrite contains_find. split.
  - intros (l & Hl & _). apply Hlinks. now apply find_some_keys in Hl.
  - intros Hin. apply Hlinks in Hin. unfold keys_of in Hin.
    apply in_map_iff in Hin as (l & Hk & Hin). exists l. split.
    + now apply find_unique.
    + unfold fresh in Hf. rewrite Forall_forall in Hf. auto.
Qed.

Lemma fresh_earlier now t c : fresh t c -> now <= t -> fresh now c.
Proof.
  unfold fresh. rewrite !Forall_forall. intros H Hle l Hin.
  specialize (H l Hin). unfold live in *. apply Z.ltb_lt in H. apply Z.ltb_lt. lia.
Qed.

(** The eviction of one entry from a full cache without expired entries:
    the least recently used key goes. *)
Lemma popitem_first c now k order :
  consistent c -> fresh now c -> links c = k :: order ->
  exists v, popitem c now = (inr (k, v), mk (maxsize c) (ttl c) order (unlink k (root c))).
Proof.
  intros Hc Hf El. rewrite popitem_eq, (expire_fresh c now Hf), El.
  assert (Hin : contains c now k = true).
  { apply fresh_contains; [assumption|assumption|]. rewrite El. now left. }
  apply contains_find in Hin as (l & Hl & Hlive).
  rewrite (pop_live c now k l Hl Hlive). exists (link_value l).
  destruct Hc as [_ Hord _]. rewrite El in *.
  inversion Hord as [|? ? Hnotin _]; subst.
  unfold move_to_end. unfold forget at 2. simpl. rewrite String.eqb_refl. simpl.
  fold (forget k order). rewrite (forget_absent k order Hnotin).
  unfold forget. rewrite filter_app. simpl. rewrite String.eqb_refl. simpl.
  fold (forget k order). now rewrite (forget_absent k order Hnotin), app_nil_r.
Qed.

(** A new key stored into a valid cache without expired entries: the store
    succeeds, and the usage order afterwards is the old one followed by the
    key, cut to the capacity from the front. *)
Lemma setitem_new clock c now k v :
  valid clock c -> clock <= now -> fresh now c -> find_link k c = None ->
  exists c', setitem c now k v = (inr tt, c') /\
             links c' = lastn (Z.to_nat (maxsize c)) (links c ++ [k]).
Proof.
  intros Hv Hle Hf Hnew.
  pose proof Hv as [Hm Hc Hb _ _].
  pose proof (absent_links c k Hc Hnew) as Hnotin.
  pose proof (consistent_length c Hc) as Hlen.
  rewrite setitem_eq. cbv zeta. rewrite (expire_fresh c now Hf).
  replace (1 >? maxsize c) with false by lia.
  unfold in_data. rewrite Hnew.
  unfold bounded, currsize in Hb.
  destruct (Z.of_nat (length (root c)) + 1 >? maxsize c) eqn:E.
  - assert (Hfull : Z.of_nat (length (root c)) = maxsize c) by lia.
    destruct (links c) as [|k0 order] eqn:El; [simpl in Hlen; lia|].
    destruct (popitem_first c now k0 order Hc Hf El) as (v0 & Hpop).
    cbn [make_room]. unfold currsize at 1. rewrite E, Hpop.
    assert (Hlt : (length (unlink k0 (root c)) < length (root c))%nat).
    { pose proof (popitem_strict c now _ _ Hpop) as H. exact H. }
    assert (Hroom : forall fuel,
              make_room fuel (mk (maxsize c) (ttl c) order (unlink k0 (root c))) now
              = (inr tt, mk (maxsize c) (ttl c) order (unlink k0 (root c)))).
    { intros fuel. apply make_room_enough. unfold currsize. simpl. lia. }
    rewrite Hroom. eexists. split; [reflexivity|]. simpl.
    unfold move_to_end. rewrite forget_absent.
    + symmetry. apply lastn_snoc_full. simpl in *. lia.
    + intros Hin. apply Hnotin. now right.
  - rewrite make_room_enough by (unfold currsize; lia).
    eexists. split; [reflexivity|]. simpl.
    unfold move_to_end. rewrite forget_absent by assumption.
    symmetry. apply lastn_all. rewrite length_app. simpl. lia.
Qed.

End NewKey.

(** ** Reads of new secrets, one after the other *)

Section Reads.

Import LoadEnv.

Lemma monotone_last steps : forall clock,
  monotone clock steps -> clock <= last_time clock steps.
Proof.
  induction steps as [|[w r] steps IH]; intros clock Hm; simpl; [lia|].
  destruct Hm as [Hle Hm]. specialize (IH _ Hm). lia.
Qed.

Lemma perform_frame w r self :
  state_after (perform w r) self
  = set_cache self (_cache (state_after (perform w r) self)).
Proof.
  now destruct (perform_keeps w (fun _ => True) (fun _ _ _ => I) (fun _ _ _ _ => I)
                  (fun _ _ _ => I) r self I) as [_ Hframe].
Qed.

Lemma run_frame steps : forall self,
  run steps self = set_cache self (_cache (run steps self)).
Proof.
  induction steps as [|[w r] steps IH]; intros self; simpl.
  - symmetry. apply set_cache_same.
  - rewrite IH. fold (state_after (perform w r) self).
    rewrite (perform_frame w r self) at 1. reflexivity.
Qed.

Lemma read_key_frame self c r : read_key (set_cache self c) r = read_key self r.
Proof. now destruct r. Qed.

(** A [get] of a key that is not in a valid cache without expired entries,
    when it returns, has stored the key as the most recently used one. *)
Lemma read_new w r self clock k :
  valid clock (_cache self) -> clock <= now w -> fresh (now w) (_cache self) ->
  read_key self r = Some k -> TTLCache.find_link k (_cache self) = None ->
  (exists x, result_of (perform w r) self = inr x) ->
  exists v c',
    TTLCache.setitem (_cache self) (now w) k v = (inr tt, c') /\
    state_after (perform w r) self = set_cache self c' /\
    TTLCache.links c'
    = lastn (Z.to_nat (TTLCache.maxsize (_cache self))) (TTLCache.links (_cache self) ++ [k]).
Proof.
  intros Hv Hle Hf Hk Hnew (x & Hx).
  destruct r; try discriminate. simpl in Hk.
  destruct (py_or project (project_id self)) as [p|] eqn:Hp; [|discriminate].
  destruct (String.eqb_spec p "") as [|Hne]; [discriminate|].
  injection Hk as <-.
  simpl in Hx |- *. rewrite fmap_result in Hx. rewrite fmap_state.
  destruct (result_of (get w key project env path client_id client_secret) self)
    as [e|v] eqn:Hr; [discriminate|].
  assert (Hmiss : TTLCache.contains (_cache self) (now w)
                    (cache_key p (kwarg "dev" env) (kwarg "" path) key) = false).
  { unfold TTLCache.contains. now rewrite Hnew. }
  destruct (get_miss_stored w self key project env path client_id client_secret p
              Hp Hne v Hmiss Hr) as (c' & Hset & Hstate & _).
  destruct (setitem_new clock (_cache self) (now w) _ v Hv Hle Hf Hnew)
    as (c'' & Hset' & Hlinks).
  rewrite Hset in Hset'. injection Hset' as <-.
  exists v, c'. auto.
Qed.

(** After a successful store every entry is an old one or the new one. *)
Lemma setitem_fresh c now k v c' t :
  TTLCache.setitem c now k v = (inr tt, c') ->
  fresh t c -> t < now + TTLCache.ttl c -> fresh t c'.
Proof.
  intros Hset Hf Hlt. destruct (setitem_stored _ _ _ _ _ Hset) as (c1 & -> & Ht & Hw).
  unfold fresh in *. simpl. apply Forall_app. split.
  - apply Forall_forall. intros l Hin. apply filter_In in Hin as [Hin _].
    rewrite Forall_forall in Hf. apply Hf. now apply Hw.
  - constructor; [|constructor]. unfold TTLCache.live. simpl. apply Z.ltb_lt. lia.
Qed.

(** Reads of distinct keys that are not in the cache, none of which raises,
    while nothing expires: the usage order afterwards is the old one
    followed by the keys in the order of the reads, cut to the capacity
    from the front. *)
Lemma reads_links : forall reads ks self clock T,
  valid clock (_cache self) -> monotone clock reads -> last_time clock reads <= T ->
  fresh T (_cache self) ->
  map (read_key self) (map snd reads) = map Some ks ->
  NoDup ks ->
  (forall k, In k ks -> TTLCache.find_link k (_cache self) = None) ->
  all_return reads self = true ->
  Forall (fun s => T < now (fst s) + TTLCache.ttl (_cache self)) reads ->
  let c' := _cache (run reads self) in
  valid (last_time clock reads) c' /\ fresh T c' /\
  TTLCache.links c'
  = lastn (Z.to_nat (TTLCache.maxsize (_cache self))) (TTLCache.links (_cache self) ++ ks).
Proof.
  induction reads as [|[w r] reads IH]; intros ks self clock T Hv Hm HT Hf Hks Hnd Hnew
    Hret Hlate; simpl in *.
  - destruct ks; [|discriminate]. split; [assumption|]. split; [assumption|].
    rewrite app_nil_r. symmetry. apply lastn_all.
    destruct Hv as [_ Hc Hb _ _]. rewrite (consistent_length _ Hc).
    unfold bounded, TTLCache.currsize in Hb. lia.
  - destruct ks as [|k ks]; [discriminate|]. injection Hks as Hk Hks.
    destruct Hm as [Hle Hm]. pose proof (monotone_last _ _ Hm) as Hlast.
    inversion Hnd as [|? ? Hnotin Hnd']; subst.
    inversion Hlate as [|? ? Hw Hlate']; subst. simpl in Hw.
    destruct (result_of (perform w r) self) as [e|x] eqn:Hx; [discriminate|].
    assert (Hfw : fresh (now w) (_cache self)).
    { apply fresh_earlier with T; [assumption|lia]. }
    destruct (read_new w r self clock k Hv Hle Hfw Hk (Hnew k (or_introl eq_refl))
                (ex_intro _ x Hx)) as (v & c1 & Hset & Hstate & Hlinks).
    fold (state_after (perform w r) self). rewrite Hstate in *.
    pose proof (setitem_config (_cache self) (now w) k v) as [Hmax Httl].
    rewrite Hset in Hmax, Httl. simpl in Hmax, Httl.
    assert (Hv1 : valid (now w) c1).
    { pose proof (setitem_valid clock (_cache self) (now w) k v Hv Hle) as H.
      now rewrite Hset in H. }
    destruct (IH ks (set_cache self c1) (now w) T) as (Hv' & Hf' & Hl').
    + assumption.
    + assumption.
    + assumption.
    + simpl. now apply setitem_fresh with (_cache self) (now w) k v.
    + rewrite <- Hks. apply map_ext. intros a. apply read_key_frame.
    + assumption.
    + intros k' Hin. simpl.
      apply setitem_absent_other with (_cache self) (now w) k v.
      * assumption.
      * intros ->. contradiction.
      * apply Hnew. now right.
    + assumption.
    + simpl. rewrite Httl. exact Hlate'.
    + split; [exact Hv'|]. split; [exact Hf'|].
      rewrite Hl'. simpl. rewrite Hmax, Hlinks, lastn_app_lastn, <- app_assoc.
      reflexivity.
Qed.

End Reads.

(** ** The capacity bound *)

(** C7. The facade is built with a cache of capacity 100, and after any
    sequence of operations, whatever the remote side answers and whatever the
    times, the cache still has capacity 100 and holds at most 100 entries,
    live or expired; in particular at most 100 live ones are counted at any
    time, and after any further insertions the cache is within its capacity.
    The bound is kept by eviction, not by refusal.  In every state that the
    facade reaches along times that never go back, a store at the current
    time or later succeeds: the key is then in the cache with its value, to
    expire 3600 later.  And when [get]s of distinct secrets that are not in
    the cache follow, none of them raising and nothing expiring meanwhile,
    each of them stores its key as the most recently used one, and the cache
    then holds exactly the last 100 keys of the old usage order followed by
    the keys read: with [n] keys read into a cache of [m] entries, [m + n]
    entries if that is at most 100, and otherwise 100, the [m + n - 100]
    least recently used ones having been evicted. *)
Theorem capacity_bound (w0 : World) (environ : string -> option string)
    (id secret : option string) (self : LoadEnv.t)
    (steps : list (World * LoadEnv.Request)) (t : Z) :
  LoadEnv.__init__ w0 environ id secret = inr self ->
  let self' := LoadEnv.run steps self in
  let c := LoadEnv._cache self' in
  TTLCache.maxsize (LoadEnv._cache self) = 100 /\
  TTLCache.maxsize c = 100 /\
  TTLCache.currsize c <= 100 /\
  fst (TTLCache.len c t) <= 100 /\
  (forall inserts, TTLCache.currsize (insert_all inserts c) <= 100) /\
  forall clock, monotone clock steps ->
    let T0 := last_time clock steps in
    (forall time k v, T0 <= time ->
       exists c1, TTLCache.setitem c time k v = (inr tt, c1) /\
                  TTLCache.contains c1 time k = true /\
                  TTLCache.find_link k c1 = Some (TTLCache.mkLink k v (time + 3600)) /\
                  TTLCache.currsize c1 <= 100) /\
    (forall reads ks,
       let T := last_time T0 reads in
       monotone T0 reads ->
       map (read_key self') (map snd reads) = map Some ks ->
       NoDup ks ->
       (forall k, In k ks -> TTLCache.find_link k c = None) ->
       all_return reads self' = true ->
       fresh T c ->
       Forall (fun s => T < now (fst s) + 3600) reads ->
       let c' := LoadEnv._cache (LoadEnv.run reads self') in
       let resident := lastn 100 (TTLCache.links c ++ ks) in
       TTLCache.links c' = resident /\
       (forall k, TTLCache.contains c' T k = true <-> In k resident) /\
       TTLCache.currsize c' = Z.min 100 (TTLCache.currsize c + Z.of_nat (length ks))).
Proof.
  intros Hinit self' c. apply init_cache in Hinit.
  assert (Hb : bounded (LoadEnv._cache self)).
  { rewrite Hinit. unfold bounded, TTLCache.currsize. simpl. lia. }
  destruct (run_bounded steps self Hb) as (Hb' & Hm & Httl). fold self' c in Hb', Hm, Httl.
  rewrite Hinit in Hm, Httl. simpl in Hm, Httl.
  split; [now rewrite Hinit|]. split; [assumption|].
  unfold bounded in Hb'. split; [lia|]. split.
  { pose proof (len_le_currsize c t). lia. }
  split.
  { intros inserts. destruct (insert_all_bounded inserts c Hb') as [Hb'' Hm''].
    unfold bounded in Hb''. lia. }
  intros clock Hmono T0.
  assert (Hv : valid T0 c).
  { apply run_valid; [|assumption]. rewrite Hinit. apply empty_valid. lia. }
  split.
  - intros time k v Hle.
    destruct (setitem_ok T0 c time k v Hv Hle) as (c1 & Hset & Hv1 & Hfind & Hm1 & _).
    exists c1. rewrite Httl in Hfind. split; [assumption|]. split; [|split; [assumption|]].
    + unfold TTLCache.contains, TTLCache.live. rewrite Hfind. simpl.
      apply Z.ltb_lt. lia.
    + destruct Hv1 as [_ _ Hb1 _ _]. unfold bounded in Hb1. lia.
  - intros reads ks T Hmr Hks Hnd Hnew Hret Hf Hlate c' resident.
    destruct (reads_links reads ks self' T0 T Hv Hmr (Z.le_refl _) Hf Hks Hnd Hnew Hret)
      as (Hv' & Hf' & Hl').
    { fold c. now rewrite Httl. }
    fold c c' in Hv', Hf', Hl'. rewrite Hm in Hl'.
    change (Z.to_nat 100) with 100%nat in Hl'. fold resident in Hl'.
    pose proof (valid_consistent _ _ Hv') as Hc'.
    split; [assumption|]. split.
    + intros k. rewrite <- Hl'. now apply fresh_contains.
    + pose proof (consistent_length c' Hc') as Hlen'.
      pose proof (consistent_length c (valid_consistent _ _ Hv)) as Hlen.
      unfold TTLCache.currsize. rewrite <- Hlen', <- Hlen, Hl'. unfold resident.
      rewrite lastn_length, length_app. lia.
Qed.

Lemma capacity_bound_witness :
  let self := Example.load_env in
  let reads := Many.reads 101 in
  let c' := LoadEnv._cache (LoadEnv.run reads self) in
  LoadEnv.__init__ (Example.world 0 (Example.answering "v")) Example.no_environ
    (Some "test_client_id") (Some "test_client_secret") = inr self /\
  monotone 0 reads /\
  map (read_key self) (map snd reads) = map Some (Many.keys 101) /\
  NoDup (Many.keys 101) /\
  all_return reads self = true /\
  TTLCache.links c' = lastn 100 (Many.keys 101) /\
  (forall k, TTLCache.contains c' 100 k = true <-> In k (lastn 100 (Many.keys 101))) /\
  TTLCache.currsize c' = 100.
Proof.
  intros self reads c'.
  assert (H1 : LoadEnv.__init__ (Example.world 0 (Example.answering "v"))
                 Example.no_environ (Some "test_client_id") (Some "test_client_secret")
               = inr self) by reflexivity.
  assert (H2 : monotone 0 reads) by (vm_compute; repeat split; discriminate).
  assert (H3 : map (read_key self) (map snd reads) = map Some (Many.keys 101))
    by (vm_compute; reflexivity).
  assert (H4 : NoDup (Many.keys 101)) by (apply distinct_nodup; vm_compute; reflexivity).
  assert (H5 : all_return reads self = true) by (vm_compute; reflexivity).
  assert (H6 : forall k, In k (Many.keys 101) ->
                         TTLCache.find_link k (LoadEnv._cache self) = None)
    by (intros k _; reflexivity).
  assert (H7 : fresh 100 (LoadEnv._cache self)) by constructor.
  assert (H8 : Forall (fun s => 100 < now (fst s) + 3600) reads)
    by (vm_compute; repeat (constructor; [reflexivity|]); constructor).
  destruct (capacity_bound (Example.world 0 (Example.answering "v")) Example.no_environ
              (Some "test_client_id") (Some "test_client_secret") self [] 0 H1)
    as (_ & _ & _ & _ & _ & Hreach).
  destruct (Hreach 0 I) as [_ Hreads].
  destruct (Hreads reads (Many.keys 101) H2 H3 H4 H6 H5 H7 H8) as (Hl & Hin & Hsize).
  split; [exact H1|]. split; [exact H2|]. split; [exact H3|]. split; [exact H4|].
  split; [exact H5|]. split; [exact Hl|]. split; [exact Hin|exact Hsize].
Defined.

(** ** Where the entries of the cache come from *)

Section Recorded.

Import LoadEnv.
Local Open Scope loadenv_scope.

Lemma recorded_more h h' c : recorded h c -> recorded (h ++ h') c.
Proof.
  intros H l Hin. destruct (H l Hin) as (T & Hev & Hexp).
  exists T. split; [apply in_or_app; now left|assumption].
Qed.

Lemma recorded_within h c c' :
  within c c' -> TTLCache.ttl c' = TTLCache.ttl c -> recorded h c -> recorded h c'.
Proof.
  intros Hw Ht H l Hin. rewrite Ht. apply H. now apply Hw.
Qed.

Lemma getitem_recorded h c now k :
  recorded h c -> recorded h (snd (TTLCache.getitem c now k)).
Proof.
  intros H. apply (recorded_within h c); [| |exact H].
  - unfold within. rewrite getitem_root. apply incl_refl.
  - now destruct (getitem_shrinks c now k) as (_ & Ht & _).
Qed.

Lemma delitem_recorded h c now k :
  recorded h c -> recorded h (snd (TTLCache.delitem c now k)).
Proof.
  intros H. apply (recorded_within h c); [| |exact H].
  - apply delitem_within, within_refl.
  - now destruct (delitem_shrinks c now k) as (_ & Ht & _).
Qed.

(** Whatever [setitem] returns, every entry afterwards is an old one or
    the one just stored. *)
Lemma setitem_entries c now k v l :
  In l (TTLCache.root (snd (TTLCache.setitem c now k v))) ->
  In l (TTLCache.root c) \/ l = TTLCache.mkLink k v (now + TTLCache.ttl c).
Proof.
  rewrite setitem_eq. cbv zeta.
  generalize (S (length (TTLCache.root (TTLCache.expire c now)))). intros fuel.
  pose proof (expire_within c now) as He.
  destruct (1 >? TTLCache.maxsize (TTLCache.expire c now)); simpl.
  { intros Hin. left. now apply He. }
  assert (Hstore : forall c1, within c c1 -> TTLCache.ttl c1 = TTLCache.ttl c ->
            In l (TTLCache.root (TTLCache.store c1 now k v)) ->
            In l (TTLCache.root c) \/ l = TTLCache.mkLink k v (now + TTLCache.ttl c)).
  { intros c1 Hw Ht Hin. simpl in Hin. apply in_app_or in Hin as [Hin|[<-|[]]].
    - apply filter_In in Hin as [Hin _]. left. now apply Hw.
    - right. now rewrite Ht. }
  destruct (TTLCache.in_data k (TTLCache.expire c now)); simpl.
  - apply Hstore; [assumption|apply expire_ttl].
  - pose proof (make_room_shrinks fuel (TTLCache.expire c now) now) as (_ & Ht & _).
    pose proof (make_room_within fuel (TTLCache.expire c now) now) as Hw.
    destruct (TTLCache.make_room fuel (TTLCache.expire c now) now) as [[e|[]] c1];
      simpl in *.
    + intros Hin. left. apply He. now apply Hw.
    + apply Hstore.
      * eapply within_trans; [exact He|exact Hw].
      * now rewrite Ht, expire_ttl.
Qed.

Lemma setitem_recorded h c now k v :
  recorded h c ->
  recorded (h ++ [(now, CacheSetitem k v)]) (snd (TTLCache.setitem c now k v)).
Proof.
  intros H l Hin. destruct (setitem_config c now k v) as [_ Ht]. rewrite Ht.
  apply setitem_entries in Hin as [Hin| ->].
  - destruct (H l Hin) as (T & Hev & Hexp). exists T.
    split; [apply in_or_app; now left|assumption].
  - exists now. simpl. split; [|reflexivity]. apply in_or_app. right. now left.
Qed.

Variable w : World.

Lemma records_bind {A B} (m : M A) (f : A -> M B) :
  records (now w) m -> (forall a, records (now w) (f a)) -> records (now w) (bind m f).
Proof.
  intros Hm Hf self h H. rewrite bind_state, bind_events. specialize (Hm self h H).
  destruct (result_of m self) as [e|a]; [assumption|].
  rewrite map_app, app_assoc. now apply Hf.
Qed.

Lemma records_readonly {A} (m : M A) : readonly m -> records (now w) m.
Proof.
  intros Hm self h H. rewrite Hm. now apply recorded_more.
Qed.

Lemma records_for_each {A} (l : list A) body :
  (forall x, records (now w) (body x)) -> records (now w) (for_each l body).
Proof.
  intros H. induction l as [|x l IH]; simpl.
  - apply records_readonly, ret_readonly.
  - apply records_bind; auto.
Qed.

Lemma records_getitem k : records (now w) (cache_getitem w k).
Proof.
  intros self h H. unfold state_after, events_of, cache_getitem.
  pose proof (getitem_recorded h _ (now w) k H) as Hg.
  destruct (TTLCache.getitem (_cache self) (now w) k) as [r c']. simpl in *.
  now apply recorded_more.
Qed.

Lemma records_delitem k : records (now w) (cache_delitem w k).
Proof.
  intros self h H. unfold state_after, events_of, cache_delitem.
  pose proof (delitem_recorded h _ (now w) k H) as Hd.
  destruct (TTLCache.delitem (_cache self) (now w) k) as [r c']. simpl in *.
  now apply recorded_more.
Qed.

Lemma records_setitem k v : records (now w) (cache_setitem w k v).
Proof.
  intros self h H. unfold state_after, events_of, cache_setitem.
  pose proof (setitem_recorded h _ (now w) k v H) as Hs.
  destruct (TTLCache.setitem (_cache self) (now w) k v) as [r c']. simpl in *.
  exact Hs.
Qed.

(** Every operation keeps the entries of the cache recorded. *)
Lemma perform_records r : records (now w) (perform w r).
Proof.
  destruct r; unfold_operations;
    repeat first
      [ apply records_bind; [|intros ?]
      | apply records_getitem | apply records_setitem | apply records_delitem
      | apply records_for_each; intros ?
      | apply records_readonly;
        first [ apply ret_readonly | apply raise_readonly | apply attr_readonly
              | apply remote_readonly | apply new_client_readonly
              | apply cache_contains_readonly | apply cache_keys_readonly ]
      | split_branches ].
Qed.

End Recorded.

Section History.

Import LoadEnv.

Lemma run_recorded steps : forall self h,
  recorded h (_cache self) ->
  recorded (h ++ history steps self) (_cache (run steps self)).
Proof.
  induction steps as [|[w r] steps IH]; intros self h H; simpl.
  - now rewrite app_nil_r.
  - rewrite app_assoc. apply IH. now apply perform_records.
Qed.

(** The times of the events lie between the first and the last operation. *)
Lemma history_times steps : forall self clock T e,
  monotone clock steps -> In (T, e) (history steps self) ->
  clock <= T <= last_time clock steps.
Proof.
  induction steps as [|[w r] steps IH]; intros self clock T e Hm Hin; simpl in *; [tauto|].
  destruct Hm as [Hle Hm]. apply in_app_or in Hin as [Hin|Hin].
  - apply in_map_iff in Hin as (x & [= <- _] & _).
    pose proof (monotone_last _ _ Hm). lia.
  - specialize (IH _ _ _ _ Hm Hin). lia.
Qed.

Lemma run_app a : forall b self, run (a ++ b) self = run b (run a self).
Proof.
  induction a as [|[w r] a IH]; intros b self; simpl; [reflexivity|apply IH].
Qed.

Lemma history_app a : forall b self,
  history (a ++ b) self = history a self ++ history b (run a self).
Proof.
  induction a as [|[w r] a IH]; intros b self; simpl; [reflexivity|].
  now rewrite IH, app_assoc.
Qed.

Lemma monotone_app a : forall b clock,
  monotone clock a -> monotone (last_time clock a) b -> monotone clock (a ++ b).
Proof.
  induction a as [|[w r] a IH]; intros b clock Ha Hb; simpl in *; [assumption|].
  destruct Ha as [Hle Ha]. split; [assumption|]. now apply IH.
Qed.

End History.

(** ** Expiry along sequences of operations *)

Section Stale.

Import LoadEnv.

Variables (w0 : World) (environ : string -> option string) (id secret : option string).
Variables (self0 : LoadEnv.t) (clock : Z) (steps : list (World * LoadEnv.Request)).

Hypothesis built : __init__ w0 environ id secret = inr self0.
Hypothesis in_order : monotone clock steps.

Lemma reachable_ttl : TTLCache.ttl (_cache (run steps self0)) = 3600.
Proof.
  pose proof (init_cache _ _ _ _ _ built) as Hinit.
  assert (Hb : bounded (_cache self0)).
  { rewrite Hinit. unfold bounded, TTLCache.currsize. simpl. lia. }
  destruct (run_bounded steps self0 Hb) as (_ & _ & Ht). now rewrite Ht, Hinit.
Qed.

Lemma reachable_recorded : recorded (history steps self0) (_cache (run steps self0)).
Proof.
  apply (run_recorded steps self0 []).
  rewrite (init_cache _ _ _ _ _ built). intros l [].
Qed.

(** A key that a read finds was stored less than 3600 before the time of
    the read, and its entry is the one of that store. *)
Lemma present_stored t k :
  TTLCache.contains (_cache (run steps self0)) t k = true ->
  exists T v, In (T, CacheSetitem k v) (history steps self0) /\
              T <= last_time clock steps /\ t < T + 3600 /\
              TTLCache.find_link k (_cache (run steps self0))
              = Some (TTLCache.mkLink k v (T + 3600)).
Proof.
  intros Hc. apply contains_find in Hc as (l & Hf & Hl).
  pose proof (find_has_key _ _ _ Hf) as [Hin Hk].
  destruct (reachable_recorded l Hin) as (T & Hev & Hexp).
  rewrite reachable_ttl in Hexp. rewrite Hk in Hev.
  exists T, (TTLCache.link_value l).
  split; [assumption|]. split; [|split].
  - now apply (history_times steps self0 clock T _ in_order) in Hev.
  - unfold TTLCache.live in Hl. apply Z.ltb_lt in Hl. lia.
  - rewrite Hf. destruct l as [k' v' x]. simpl in *. now subst.
Qed.

(** A key is absent 3600 after its last store, whatever has happened
    since. *)
Lemma absent_after_ttl T k t :
  (forall T' v, In (T', CacheSetitem k v) (history steps self0) -> T' <= T) ->
  T + 3600 <= t ->
  TTLCache.contains (_cache (run steps self0)) t k = false.
Proof.
  intros Hlast Hle.
  destruct (TTLCache.contains (_cache (run steps self0)) t k) eqn:E; [|reflexivity].
  apply present_stored in E as (T' & v & Hev & _ & Hlt & _).
  specialize (Hlast T' v Hev). lia.
Qed.

Lemma reachable_now_valid :
  valid (last_time clock steps) (_cache (run steps self0)).
Proof.
  apply run_valid; [|assumption].
  rewrite (init_cache _ _ _ _ _ built). apply empty_valid. lia.
Qed.

End Stale.

(** What a read does with a key that the membership test does not find. *)
Lemma absent_reads (w0 : World) c t k :
  NoDup (keys_of (TTLCache.root c)) ->
  TTLCache.contains c t k = false ->
  fst (TTLCache.getitem c t k) = inl (KeyError k) /\ ~ In k (TTLCache.keys c t).
Proof.
  intros Hnd Hc. split.
  - unfold TTLCache.contains in Hc. unfold TTLCache.getitem.
    destruct (TTLCache.find_link k c) as [l|]; [|reflexivity]. now rewrite Hc.
  - intros Hin.
    apply (keys_contains (mkWorld t (client w0) (_SDK w0)) c k Hnd) in Hin.
    simpl in Hin. congruence.
Qed.

(** C8. An entry inserted at time [T] is absent from every read of the cache
    at a time [t >= T + ttl]: the membership test is false, the read raises
    [KeyError] and the key is not listed, although nothing deleted it.  The
    cache of the facade has the time-to-live 3600 in every state the facade
    reaches, and no operation extends the life of an entry.  In every state
    reached from construction along times that never go back: a key that a
    read at time [t] finds was stored by an operation of the sequence at a
    time [T > t - 3600], and its entry is the one of that store, with the
    value stored and the expiry time [T + 3600]; a key all of whose stores
    were at time [T] or before is absent from every read at a time
    [t >= T + 3600], whatever was done since, reads of the key included.  So
    [get] never returns a value older than 3600: when it returns a value from
    the cache, that value was stored under that key less than 3600 before;
    otherwise it has turned to the remote side and stored the value to expire
    3600 later, and after any further operations that do not store the key
    again, a [get] of the same secret 3600 later or more does not find it and
    turns to the remote side. *)
Theorem ttl_expiry (w0 : World) (environ : string -> option string)
    (id secret : option string) (self0 : LoadEnv.t) (clock : Z)
    (steps : list (World * LoadEnv.Request)) :
  LoadEnv.__init__ w0 environ id secret = inr self0 ->
  monotone clock steps ->
  let self := LoadEnv.run steps self0 in
  let c := LoadEnv._cache self in
  let h := history steps self0 in
  let T0 := last_time clock steps in
  (forall c T k v c' t,
     TTLCache.setitem c T k v = (inr tt, c') -> T + TTLCache.ttl c <= t ->
     TTLCache.contains c' t k = false /\
     fst (TTLCache.getitem c' t k) = inl (KeyError k) /\
     ~ In k (TTLCache.keys c' t)) /\
  TTLCache.ttl c = 3600 /\
  (forall t k, TTLCache.contains c t k = true ->
     exists T v, In (T, CacheSetitem k v) h /\ T <= T0 /\ t < T + 3600 /\
                 TTLCache.find_link k c = Some (TTLCache.mkLink k v (T + 3600))) /\
  (forall T k t,
     (forall T' v, In (T', CacheSetitem k v) h -> T' <= T) -> T + 3600 <= t ->
     TTLCache.contains c t k = false /\
     fst (TTLCache.getitem c t k) = inl (KeyError k) /\
     ~ In k (TTLCache.keys c t)) /\
  (forall w key project env path client_id client_secret p v,
     T0 <= now w ->
     py_or project (LoadEnv.project_id self) = Some p -> p <> "" ->
     let k := LoadEnv.cache_key p (LoadEnv.kwarg "dev" env) (LoadEnv.kwarg "" path) key in
     let call := LoadEnv.get w key project env path client_id client_secret in
     result_of call self = inr v ->
     if TTLCache.contains c (now w) k
     then events_of call self = [CacheContains k; CacheGetitem k] /\
          exists T, In (T, CacheSetitem k v) h /\ T <= now w < T + 3600
     else (exists e, In e (events_of call self) /\ is_remote e = true) /\
          TTLCache.find_link k (LoadEnv._cache (state_after call self))
          = Some (TTLCache.mkLink k v (now w + 3600)) /\
          forall later w' client_id' client_secret',
            monotone (now w) later ->
            (forall T' v', ~ In (T', CacheSetitem k v')
                               (history later (state_after call self))) ->
            last_time (now w) later <= now w' ->
            now w + 3600 <= now w' ->
            let self' := LoadEnv.run later (state_after call self) in
            TTLCache.contains (LoadEnv._cache self') (now w') k = false /\
            exists e,
              In e (events_of (LoadEnv.get w' key project env path client_id'
                                 client_secret') self')
              /\ is_remote e = true).
Proof.
  intros Hinit Hmono self c h T0.
  pose proof (reachable_ttl w0 environ id secret self0 steps Hinit) as Httl.
  pose proof (reachable_now_valid w0 environ id secret self0 clock steps Hinit Hmono) as Hv.
  fold self c in Httl, Hv. fold T0 in Hv.
  split; [exact setitem_expires|]. split; [exact Httl|]. split; [|split].
  - intros t k. apply (present_stored w0 environ id secret self0 clock steps Hinit Hmono).
  - intros T k t Hlast Hle.
    pose proof (absent_after_ttl w0 environ id secret self0 clock steps Hinit Hmono
                  T k t Hlast Hle) as Hgone.
    fold self c in Hgone. split; [assumption|].
    apply (absent_reads w0); [|assumption].
    now destruct Hv as [_ [Hnd _ _] _ _ _].
  - intros w key project env path client_id client_secret p v Hle Hp Hne k call Hres.
    destruct (TTLCache.contains c (now w) k) eqn:Hc.
    + destruct (present_stored w0 environ id secret self0 clock steps Hinit Hmono
                  (now w) k Hc) as (T & v' & Hev & HT & Hlt & Hf).
      fold self c in Hf. fold h in Hev. fold T0 in HT.
      assert (Hlive : TTLCache.live (now w) (TTLCache.mkLink k v' (T + 3600)) = true).
      { unfold TTLCache.live. simpl. apply Z.ltb_lt. lia. }
      pose proof (get_hit w self key project env path client_id client_secret p _
                    Hp Hne Hf Hlive) as Hget.
      unfold result_of, events_of, call in *. rewrite Hget in *. simpl in *.
      injection Hres as <-. split; [reflexivity|]. exists T. split; [assumption|lia].
    + split; [now apply get_miss_remote with (p := p)|].
      destruct (get_miss_stored w self key project env path client_id client_secret p
                  Hp Hne v Hc Hres) as (c1 & Hset & Hstate & Hstored).
      fold k call in Hset, Hstate, Hstored.
      split.
      { rewrite Hstate. simpl. rewrite (setitem_find_same _ _ _ _ _ Hset).
        fold c. now rewrite Httl. }
      intros later w' client_id' client_secret' Hml Hquiet Hlast Hlate self'.
      set (r := LoadEnv.Get key project env path client_id client_secret).
      assert (Hperf : state_after (LoadEnv.perform w r) self = state_after call self).
      { unfold r. simpl. apply fmap_state. }
      assert (Hevs : events_of (LoadEnv.perform w r) self = events_of call self).
      { unfold r. simpl. apply fmap_events. }
      assert (Hrun : LoadEnv.run (steps ++ (w, r) :: later) self0 = self').
      { rewrite run_app.
        change (LoadEnv.run later (state_after (LoadEnv.perform w r) self) = self').
        now rewrite Hperf. }
      assert (Hmono' : monotone clock (steps ++ (w, r) :: later)).
      { apply monotone_app; [assumption|]. simpl. fold T0. auto. }
      assert (Hgone : TTLCache.contains (LoadEnv._cache self') (now w') k = false).
      { rewrite <- Hrun.
        apply (absent_after_ttl w0 environ id secret self0 clock _ Hinit Hmono' (now w));
          [|assumption].
        intros T' v'. rewrite history_app.
        change (history ((w, r) :: later) (LoadEnv.run steps self0))
          with (map (pair (now w)) (events_of (LoadEnv.perform w r) self)
                ++ history later (state_after (LoadEnv.perform w r) self)).
        rewrite Hevs, Hperf.
        intros Hin. apply in_app_or in Hin as [Hin|Hin].
        - apply (history_times steps self0 clock T' _ Hmono) in Hin. fold T0 in Hin. lia.
        - apply in_app_or in Hin as [Hin|Hin].
          + apply in_map_iff in Hin as (x & [= <- _] & _). lia.
          + exfalso. exact (Hquiet T' v' Hin). }
      split; [assumption|].
      apply get_miss_remote with (p := p); [|assumption|assumption].
      unfold self'. rewrite run_frame, Hstate. exact Hp.
Qed.

Lemma ttl_expiry_witness :
  let self := LoadEnv.run Aging.steps Example.load_env in
  let h := history Aging.steps Example.load_env in
  LoadEnv.__init__ (Example.world 0 (Example.answering "v")) Example.no_environ
    (Some "test_client_id") (Some "test_client_secret") = inr Example.load_env /\
  monotone 0 Aging.steps /\
  In (100, CacheGetitem Aging.key) h /\
  TTLCache.contains (LoadEnv._cache self) 3609 Aging.key = true /\
  (exists T v, In (T, CacheSetitem Aging.key v) h /\ T <= 200 /\ 3609 < T + 3600 /\
               TTLCache.find_link Aging.key (LoadEnv._cache self)
               = Some (TTLCache.mkLink Aging.key v (T + 3600))) /\
  (forall T' v, In (T', CacheSetitem Aging.key v) h -> T' <= 10) /\
  TTLCache.contains (LoadEnv._cache self) 3610 Aging.key = false.
Proof.
  intros self h.
  assert (H1 : LoadEnv.__init__ (Example.world 0 (Example.answering "v"))
                 Example.no_environ (Some "test_client_id") (Some "test_client_secret")
               = inr Example.load_env) by reflexivity.
  assert (H2 : monotone 0 Aging.steps) by (simpl; lia).
  assert (H3 : In (100, CacheGetitem Aging.key) h) by (vm_compute; tauto).
  assert (H4 : TTLCache.contains (LoadEnv._cache self) 3609 Aging.key = true)
    by reflexivity.
  assert (H5 : forall T' v, In (T', CacheSetitem Aging.key v) h -> T' <= 10).
  { intros T' v Hin. vm_compute in Hin.
    repeat (destruct Hin as [Hin|Hin];
            [first [discriminate Hin | injection Hin as <-; discriminate]|]).
    destruct Hin. }
  assert (H6 : 10 + 3600 <= 3610) by lia.
  destruct (ttl_expiry (Example.world 0 (Example.answering "v")) Example.no_environ
              (Some "test_client_id") (Some "test_client_secret") Example.load_env 0
              Aging.steps H1 H2) as (_ & _ & Hstored & Hgone & _).
  split; [exact H1|]. split; [exact H2|]. split; [exact H3|]. split; [exact H4|].
  split; [exact (Hstored 3609 Aging.key H4)|]. split; [exact H5|].
  exact (proj1 (Hgone 10 Aging.key 3610 H5 H6)).
Defined.
